(** * Gibbering Mouther: the voice engine and its WAV encoder

    A shallow embedding of [src/app.js] (the continuous-play variant with
    download) and of the straight-line encoder of the earlier variant
    ([src/unnamed/part_000]).

    Arithmetic model.  JavaScript numbers are IEEE doubles, and a finite
    double is a rational: the model carries numbers as rationals and rounds
    where the code does.  [Binary.double] takes a rational to the nearest
    binary64 and [Binary.fround] to the nearest binary32, which is what an
    [AudioParam] holds.  What the engine computes for an audio node (a gain,
    a playback rate, a start or stop time) is computed with the operators of
    [Number]: the exact result, rounded to a double.  The samples the encoder
    reads come out of a [Float32Array]; clamping a binary32 value and
    multiplying it by [0x7fff] is exact in binary64, so the encoder works on
    exact values and [JS.number] carries them as rationals, next to the three
    non-finite values.  The delay of a timer and the length of a render are
    kept exact: the host converts both to whole numbers in its own way.
    [Binary64] compares the rounding with the primitive floats on samples.

    The host (timers, the audio clock, [stop] on an ended source, the
    offline renderer) is a parameter of the engine or an event of its event
    loop; [downloadEffect] is taken as one step, its awaits included.
    Recording, the sliders and the rest of the page's wiring are left out:
    the engine starts from a state that has a recording or has none. *)

From Stdlib Require Import ZArith NArith QArith Qminmax Qround Qpower Lia Lqa String Ascii List.
From Stdlib Require Import Floats.
From stdpp Require Import base decidable option list numbers.
From Equations Require Import Equations.
Import ListNotations.

Local Open Scope Z_scope.

(** ** JavaScript numbers and the integer conversions of ECMA-262 *)

Module JS.

Inductive number :=
| Finite (q : Q)
| PosInfinity
| NegInfinity
| NaN.

Definition of_Z (z : Z) : number := Finite (inject_Z z).
Definition of_N (n : N) : number := of_Z (Z.of_N n).

(** [Math.min] and [Math.max]: NaN if an argument is NaN. *)
Definition Math_min (a b : number) : number :=
  match a, b with
  | NaN, _ | _, NaN => NaN
  | NegInfinity, _ | _, NegInfinity => NegInfinity
  | PosInfinity, x | x, PosInfinity => x
  | Finite p, Finite q => if Qle_bool p q then Finite p else Finite q
  end.

Definition Math_max (a b : number) : number :=
  match a, b with
  | NaN, _ | _, NaN => NaN
  | PosInfinity, _ | _, PosInfinity => PosInfinity
  | NegInfinity, x | x, NegInfinity => x
  | Finite p, Finite q => if Qle_bool p q then Finite q else Finite p
  end.

(** The sign of an infinite product. *)
Definition signed_infinity (c : comparison) (positive : bool) : number :=
  match c with
  | Eq => NaN
  | Gt => if positive then PosInfinity else NegInfinity
  | Lt => if positive then NegInfinity else PosInfinity
  end.

(** The operator [*]. *)
Definition mul (a b : number) : number :=
  match a, b with
  | NaN, _ | _, NaN => NaN
  | Finite p, Finite q => Finite (p * q)
  | Finite p, PosInfinity | PosInfinity, Finite p => signed_infinity (p ?= 0)%Q true
  | Finite p, NegInfinity | NegInfinity, Finite p => signed_infinity (p ?= 0)%Q false
  | PosInfinity, PosInfinity | NegInfinity, NegInfinity => PosInfinity
  | PosInfinity, NegInfinity | NegInfinity, PosInfinity => NegInfinity
  end.

(** Truncation toward zero, the first step of every [ToIntN]/[ToUintN]. *)
Definition truncate (q : Q) : Z := Z.quot (Qnum q) (Zpos (Qden q)).

(** [ToIntegerOrZero]-like core: non-finite values become 0. *)
Definition to_int (v : number) : Z :=
  match v with
  | Finite q => truncate q
  | _ => 0
  end.

Definition ToUint8 (v : number) : Z := to_int v mod 2 ^ 8.
Definition ToUint16 (v : number) : Z := to_int v mod 2 ^ 16.
Definition ToUint32 (v : number) : Z := to_int v mod 2 ^ 32.
Definition ToInt16 (v : number) : Z :=
  let int16bit := to_int v mod 2 ^ 16 in
  if Z_ge_dec int16bit (2 ^ 15) then int16bit - 2 ^ 16 else int16bit.

End JS.

(** ** Binary floating point

    A finite number of an IEEE 754 binary format with [prec] significant bits
    and least positive number [2 ^ emin] is a rational [m * 2 ^ e] with
    [|m| < 2 ^ prec] and [emin <= e].  [round] takes a rational to the
    nearest such number, a tie going to the one whose last bit is 0.  The
    formats have no largest number here: a result beyond the largest finite
    double, which JavaScript turns into an infinity, is outside the model. *)

Module Binary.

Local Open Scope Q_scope.

(** [floor (log2 x)], for [0 < x]. *)
Definition ilog2 (x : Q) : Z :=
  let e := (Z.log2 (Qnum x) - Z.log2 (Zpos (Qden x)))%Z in
  if Qle_bool (2 ^ e) x then e else (e - 1)%Z.

(** The nearest integer, a tie going to the even one. *)
Definition nearest_even (x : Q) : Z :=
  let n := Qfloor x in
  match Qcompare (x - inject_Z n) (1 # 2) with
  | Lt => n
  | Gt => (n + 1)%Z
  | Eq => if Z.even n then n else (n + 1)%Z
  end.

(** The exponent of the unit in the last place of [x], for [0 < x]: below
    the least normal number the unit is the least positive number. *)
Definition ulp_exponent (prec emin : Z) (x : Q) : Z :=
  Z.max (ilog2 x - prec + 1) emin.

Definition round_positive (prec emin : Z) (x : Q) : Q :=
  let k := ulp_exponent prec emin x in
  inject_Z (nearest_even (x / 2 ^ k)) * 2 ^ k.

Definition round (prec emin : Z) (x : Q) : Q :=
  match Qnum x with
  | Z0 => 0
  | Zpos _ => round_positive prec emin x
  | Zneg _ => - round_positive prec emin (- x)
  end.

(** binary64, the Number type, and binary32, the [float] of Web IDL and
    [Math.fround]. *)
Definition double : Q -> Q := round 53 (-1074).
Definition fround : Q -> Q := round 24 (-149).

Arguments round : simpl never.
Arguments double : simpl never.
Arguments fround : simpl never.

End Binary.

(** ** The arithmetic operators on Numbers

    Each is the exact result rounded to a double.  [div] is only used with
    a divisor that is not zero. *)

Module Number.

Local Open Scope Q_scope.

Definition add (x y : Q) : Q := Binary.double (x + y).
Definition sub (x y : Q) : Q := Binary.double (x - y).
Definition mul (x y : Q) : Q := Binary.double (x * y).
Definition div (x y : Q) : Q := Binary.double (x / y).

Arguments add : simpl never.
Arguments sub : simpl never.
Arguments mul : simpl never.
Arguments div : simpl never.

End Number.

(** ** [ArrayBuffer] and [DataView]

    An [ArrayBuffer] is its list of bytes, each in [0, 256).  The view of the
    encoder spans the whole buffer.  A setter raises [RangeError] (here
    [None]) when the field does not lie inside the buffer. *)

Module DataView.

(** [new ArrayBuffer(byteLength)]: zero-filled.  The host's allocation limit
    is not modelled: the buffer is always obtained. *)
Definition ArrayBuffer (byteLength : nat) : list Z := replicate byteLength 0.

(** [n] bytes of [v], least significant first. *)
Fixpoint le_bytes (n : nat) (v : Z) : list Z :=
  match n with
  | O => []
  | S k => v mod 256 :: le_bytes k (v / 256)
  end.

Definition raw_bytes (n : nat) (v : Z) (littleEndian : bool) : list Z :=
  if littleEndian then le_bytes n v else rev (le_bytes n v).

(** [SetViewValue]: bounds check, then the bytes go in at [byteOffset]. *)
Definition set_bytes (view : list Z) (byteOffset : nat) (bytes : list Z)
  : option (list Z) :=
  if (byteOffset + length bytes <=? length view)%nat
  then Some (list_inserts byteOffset bytes view)
  else None.

Definition setUint8 (view : list Z) (byteOffset : nat) (value : JS.number)
  : option (list Z) :=
  set_bytes view byteOffset (raw_bytes 1 (JS.ToUint8 value) true).

Definition setUint16 (view : list Z) (byteOffset : nat) (value : JS.number)
    (littleEndian : bool) : option (list Z) :=
  set_bytes view byteOffset (raw_bytes 2 (JS.ToUint16 value) littleEndian).

Definition setUint32 (view : list Z) (byteOffset : nat) (value : JS.number)
    (littleEndian : bool) : option (list Z) :=
  set_bytes view byteOffset (raw_bytes 4 (JS.ToUint32 value) littleEndian).

Definition setInt16 (view : list Z) (byteOffset : nat) (value : JS.number)
    (littleEndian : bool) : option (list Z) :=
  set_bytes view byteOffset (raw_bytes 2 (JS.ToInt16 value) littleEndian).

(** The matching getters, used to read the encoder's output back. *)
Fixpoint le_value (bytes : list Z) : Z :=
  match bytes with
  | [] => 0
  | b :: rest => b + 256 * le_value rest
  end.

Definition get_bytes (view : list Z) (byteOffset n : nat) : option (list Z) :=
  if (byteOffset + n <=? length view)%nat
  then Some (take n (drop byteOffset view))
  else None.

Definition get_unsigned (view : list Z) (byteOffset n : nat)
    (littleEndian : bool) : option Z :=
  bytes ← get_bytes view byteOffset n;
  Some (le_value (if littleEndian then bytes else rev bytes)).

Definition getUint16 (view : list Z) (byteOffset : nat) (littleEndian : bool)
  : option Z := get_unsigned view byteOffset 2 littleEndian.

Definition getUint32 (view : list Z) (byteOffset : nat) (littleEndian : bool)
  : option Z := get_unsigned view byteOffset 4 littleEndian.

Definition getInt16 (view : list Z) (byteOffset : nat) (littleEndian : bool)
  : option Z :=
  u ← get_unsigned view byteOffset 2 littleEndian;
  Some (if Z_ge_dec u (2 ^ 15) then u - 2 ^ 16 else u).

End DataView.

(** ** [AudioBuffer]: frame count, channel count, rate and the channel data *)

Module AudioBuffer.

Record t := {
  numberOfChannels : N;
  length : N;
  sampleRate : N;
  getChannelData : N -> N -> JS.number
}.

End AudioBuffer.

(** ** The WAV encoder *)

Module Wav.

Import JS DataView.

Record Blob := { bytes : list Z; type : string }.

(** A counted loop [for (let k = start; k < start + count; k++) body]. *)
Fixpoint for_range {State : Type} (count : nat) (k : N)
    (body : N -> State -> option State) (s : State) : option State :=
  match count with
  | O => Some s
  | S n =>
      match body k s with
      | Some s' => for_range n (N.succ k) body s'
      | None => None
      end
  end.

(** [writeString]: one [setUint8] per character. *)
Fixpoint writeString_from (view : list Z) (offset : nat) (chars : string)
    (i : nat) : option (list Z) :=
  match chars with
  | EmptyString => Some view
  | String c rest =>
      view' ← setUint8 view (offset + i) (of_N (N_of_ascii c));
      writeString_from view' offset rest (S i)
  end.

Definition writeString (view : list Z) (offset : nat) (string : string)
  : option (list Z) :=
  writeString_from view offset string 0.

(** The block under "Write WAV header", the same text in both variants;
    [length] is the data size in bytes.  The sums and products are those of
    the naturals, which is what the code computes on doubles as long as
    they stay below [2 ^ 53]. *)
Definition writeHeader (view : list Z) (numberOfChannels sampleRate length : N)
  : option (list Z) :=
  view ← writeString view 0 "RIFF";
  view ← setUint32 view 4 (of_N (36 + length)) true;
  view ← writeString view 8 "WAVE";
  view ← writeString view 12 "fmt ";
  view ← setUint32 view 16 (of_Z 16) true;
  view ← setUint16 view 20 (of_Z 1) true;
  view ← setUint16 view 22 (of_N numberOfChannels) true;
  view ← setUint32 view 24 (of_N sampleRate) true;
  view ← setUint32 view 28 (of_N (sampleRate * numberOfChannels * 2)) true;
  view ← setUint16 view 32 (of_N (numberOfChannels * 2)) true;
  view ← setUint16 view 34 (of_Z 16) true;
  view ← writeString view 36 "data";
  setUint32 view 40 (of_N length) true.

(** The encoder's cursor: the view and the write offset. *)
Record cursor := { view : list Z; offset : nat }.

(** [Math.max(-1, Math.min(1, sample)) * 0x7fff], the constant [int16]. *)
Definition int16_of (sample : number) : number :=
  mul (Math_max (of_Z (-1)) (Math_min (of_Z 1) sample)) (of_Z 0x7fff).

(** The innermost body: clamp, scale, store, advance. *)
Definition writeSample (buffer : AudioBuffer.t) (j channel : N) (c : cursor)
  : option cursor :=
  let sample := AudioBuffer.getChannelData buffer channel j in
  let int16 := int16_of sample in
  view' ← setInt16 (view c) (offset c) int16 true;
  Some {| view := view'; offset := (offset c + 2)%nat |}.

(** [for (channel = 0; channel < numberOfChannels; channel++)] at frame [j]. *)
Definition writeFrame (buffer : AudioBuffer.t) (j : N) (c : cursor)
  : option cursor :=
  for_range (N.to_nat (AudioBuffer.numberOfChannels buffer)) 0
    (writeSample buffer j) c.

(** *** [src/app.js]: chunks of 10000 frames, a yield between chunks *)

Module Chunked.

Definition chunkSize : N := 10000.

(** The outer loop [for (i = 0; i < buffer.length; i += chunkSize)].  The
    second component counts the [await]s taken so far. *)
Equations? chunks (buffer : AudioBuffer.t) (i : N) (c : cursor) (yields : nat)
  : option (cursor * nat) by wf (N.to_nat (AudioBuffer.length buffer - i)) lt :=
chunks buffer i c yields with decide (i < AudioBuffer.length buffer)%N => {
  | right _ => Some (c, yields)
  | left _
    with for_range
           (N.to_nat (N.min (i + chunkSize) (AudioBuffer.length buffer) - i)) i
           (writeFrame buffer) c => {
    | None => None
    | Some c' =>
        chunks buffer (i + chunkSize) c'
          (if decide (i + chunkSize < AudioBuffer.length buffer)%N
           then S yields else yields) } }.
Proof. unfold chunkSize. lia. Qed.

Definition encode (buffer : AudioBuffer.t) : option (Blob * nat) :=
  let numberOfChannels := AudioBuffer.numberOfChannels buffer in
  let sampleRate := AudioBuffer.sampleRate buffer in
  let length := (AudioBuffer.length buffer * numberOfChannels * 2)%N in
  let view := ArrayBuffer (44 + N.to_nat length) in
  view ← writeHeader view numberOfChannels sampleRate length;
  '(c, yields) ← chunks buffer 0 {| view := view; offset := 44 |} 0;
  Some ({| bytes := Wav.view c; type := "audio/wav" |}, yields).

Definition bufferToWav (buffer : AudioBuffer.t) : option Blob :=
  fst <$> encode buffer.

End Chunked.

(** *** [src/unnamed/part_000]: one pass over the frames *)

Module Straight.

Definition bufferToWav (buffer : AudioBuffer.t) : option Blob :=
  let numberOfChannels := AudioBuffer.numberOfChannels buffer in
  let sampleRate := AudioBuffer.sampleRate buffer in
  let length := (AudioBuffer.length buffer * numberOfChannels * 2)%N in
  let view := ArrayBuffer (44 + N.to_nat length) in
  view ← writeHeader view numberOfChannels sampleRate length;
  c ← for_range (N.to_nat (AudioBuffer.length buffer)) 0 (writeFrame buffer)
        {| view := view; offset := 44 |};
  Some {| bytes := Wav.view c; type := "audio/wav" |}.

End Straight.

End Wav.


(** ** The voice engine *)

Module Engine.

Local Open Scope Q_scope.

Record Config := {
  VOICE_COUNT : Z;
  PITCH_MIN : Q;
  PITCH_MAX : Q;
  STAGGER_MAX_MS : Q;
  GAIN_MIN : Q;
  GAIN_MAX : Q;
  EFFECT_DURATION_MS : Q;
  REVERB_WET_MIX : Q;
  LOOP_PROBABILITY : Q
}.

(** The values [CONFIG] is initialised with: the doubles its literals
    denote. *)
Definition CONFIG_initial : Config :=
  {| VOICE_COUNT := 40;
     PITCH_MIN := Binary.double (2 # 10);
     PITCH_MAX := Binary.double (15 # 10);
     STAGGER_MAX_MS := 800;
     GAIN_MIN := Binary.double (3 # 10);
     GAIN_MAX := 1;
     EFFECT_DURATION_MS := 15000;
     REVERB_WET_MIX := Binary.double (5 # 10);
     LOOP_PROBABILITY := Binary.double (3 # 10) |}.

(** *** Audio nodes and their graph *)

(** An [AudioBufferSourceNode].  [playbackRate] is the value its
    [AudioParam] holds, a binary32.  [startTime] and [stopTime] are the
    arguments of [start] and [stop], doubles in seconds; [finished] is set by
    the host once playback is over. *)
Record Source := {
  buffer : option AudioBuffer.t;
  playbackRate : Q;
  loop : bool;
  startTime : option Q;
  stopTime : option Q;
  finished : bool
}.

(** A reverb kernel: what [generateOfflineReverbImpulse] asked for.  Sample
    [i] of channel [c] is built from draw [firstDraw + c * length + i]. *)
Record Impulse := {
  impulseRate : N;
  impulseLength : N;
  firstDraw : nat
}.

Inductive node :=
| GainNode (gain : Q)
| ConvolverNode (kernel : option Impulse)
| BufferSourceNode (source : Source).

(** What a node can be connected to: the context's sink, the live context's
    [reverbNode] (set up once by [initAudioContext]), or a created node. *)
Inductive endpoint :=
| Destination
| Reverb
| Node (id : nat).

Record Graph := {
  nodes : list node;
  edges : list (endpoint * endpoint)
}.

Definition empty_graph : Graph := {| nodes := []; edges := [] |}.

Definition create (n : node) (g : Graph) : nat * Graph :=
  (length (nodes g), {| nodes := nodes g ++ [n]; edges := edges g |}).

Definition connect (from to : endpoint) (g : Graph) : Graph :=
  {| nodes := nodes g; edges := edges g ++ [(from, to)] |}.

Definition update (id : nat) (f : node -> node) (g : Graph) : Graph :=
  {| nodes := alter f id (nodes g); edges := edges g |}.

(** [node.gain.value = value].  An [AudioParam] holds a binary32: the
    double assigned is rounded to it.  (A double beyond the binary32 range,
    for which the setter raises, is outside the model.) *)
Definition set_gain (value : Q) (n : node) : node :=
  match n with
  | GainNode _ => GainNode (Binary.fround value)
  | other => other
  end.

Definition on_source (f : Source -> Source) (n : node) : node :=
  match n with
  | BufferSourceNode s => BufferSourceNode (f s)
  | other => other
  end.

Definition set_kernel (k : Impulse) (n : node) : node :=
  match n with
  | ConvolverNode _ => ConvolverNode (Some k)
  | other => other
  end.

Definition source_at (g : Graph) (id : nat) : option Source :=
  match nodes g !! id with
  | Some (BufferSourceNode s) => Some s
  | _ => None
  end.

Definition gain_at (g : Graph) (id : nat) : option Q :=
  match nodes g !! id with
  | Some (GainNode v) => Some v
  | _ => None
  end.

Definition fresh_source : Source :=
  {| buffer := None; playbackRate := 1; loop := false;
     startTime := None; stopTime := None; finished := false |}.

Definition with_buffer (b : option AudioBuffer.t) (s : Source) : Source :=
  {| buffer := b; playbackRate := playbackRate s; loop := loop s;
     startTime := startTime s; stopTime := stopTime s; finished := finished s |}.

(** [source.playbackRate.value = r], rounded to binary32 like a gain. *)
Definition with_playbackRate (r : Q) (s : Source) : Source :=
  {| buffer := buffer s; playbackRate := Binary.fround r; loop := loop s;
     startTime := startTime s; stopTime := stopTime s; finished := finished s |}.

Definition with_loop (l : bool) (s : Source) : Source :=
  {| buffer := buffer s; playbackRate := playbackRate s; loop := l;
     startTime := startTime s; stopTime := stopTime s; finished := finished s |}.

Definition with_startTime (t : Q) (s : Source) : Source :=
  {| buffer := buffer s; playbackRate := playbackRate s; loop := loop s;
     startTime := Some t; stopTime := stopTime s; finished := finished s |}.

Definition with_stopTime (t : Q) (s : Source) : Source :=
  {| buffer := buffer s; playbackRate := playbackRate s; loop := loop s;
     startTime := startTime s; stopTime := Some t; finished := finished s |}.

Definition with_finished (s : Source) : Source :=
  {| buffer := buffer s; playbackRate := playbackRate s; loop := loop s;
     startTime := startTime s; stopTime := stopTime s; finished := true |}.

(** *** The page's state *)

(** A pending [setTimeout] of [playGibberingEffect]: its due time on the
    clock and the two nodes its closure holds. *)
Record Timer := {
  due : Q;
  timerDryGain : nat;
  timerWetGain : nat
}.

Record Page := {
  statusText : string;
  statusInitialized : bool;
  playButtonShown : bool;
  playButtonDisabled : bool;
  stopButtonShown : bool;
  downloadButtonDisabled : bool
}.

Record World := {
  CONFIG : Config;
  recordedBuffer : option AudioBuffer.t;
  currentPlayingSources : list nat;
  audio : Graph;                    (* the nodes made on [audioContext] *)
  contextRate : N;                  (* [audioContext.sampleRate] *)
  clock : Q;                        (* milliseconds on the audio clock *)
  timers : list Timer;
  draws : nat;                      (* calls of [Math.random] so far *)
  page : Page;
  downloads : list (string * Wav.Blob)
}.

Definition set_currentPlayingSources (l : list nat) (w : World) : World :=
  {| CONFIG := CONFIG w; recordedBuffer := recordedBuffer w;
     currentPlayingSources := l; audio := audio w;
     contextRate := contextRate w; clock := clock w; timers := timers w;
     draws := draws w; page := page w; downloads := downloads w |}.

Definition set_audio (g : Graph) (w : World) : World :=
  {| CONFIG := CONFIG w; recordedBuffer := recordedBuffer w;
     currentPlayingSources := currentPlayingSources w; audio := g;
     contextRate := contextRate w; clock := clock w; timers := timers w;
     draws := draws w; page := page w; downloads := downloads w |}.

Definition set_clock (t : Q) (w : World) : World :=
  {| CONFIG := CONFIG w; recordedBuffer := recordedBuffer w;
     currentPlayingSources := currentPlayingSources w; audio := audio w;
     contextRate := contextRate w; clock := t; timers := timers w;
     draws := draws w; page := page w; downloads := downloads w |}.

Definition set_timers (l : list Timer) (w : World) : World :=
  {| CONFIG := CONFIG w; recordedBuffer := recordedBuffer w;
     currentPlayingSources := currentPlayingSources w; audio := audio w;
     contextRate := contextRate w; clock := clock w; timers := l;
     draws := draws w; page := page w; downloads := downloads w |}.

Definition set_draws (n : nat) (w : World) : World :=
  {| CONFIG := CONFIG w; recordedBuffer := recordedBuffer w;
     currentPlayingSources := currentPlayingSources w; audio := audio w;
     contextRate := contextRate w; clock := clock w; timers := timers w;
     draws := n; page := page w; downloads := downloads w |}.

Definition set_page (p : Page) (w : World) : World :=
  {| CONFIG := CONFIG w; recordedBuffer := recordedBuffer w;
     currentPlayingSources := currentPlayingSources w; audio := audio w;
     contextRate := contextRate w; clock := clock w; timers := timers w;
     draws := draws w; page := p; downloads := downloads w |}.

Definition set_downloads (l : list (string * Wav.Blob)) (w : World) : World :=
  {| CONFIG := CONFIG w; recordedBuffer := recordedBuffer w;
     currentPlayingSources := currentPlayingSources w; audio := audio w;
     contextRate := contextRate w; clock := clock w; timers := timers w;
     draws := draws w; page := page w; downloads := l |}.

(** The setters unfold once the world they update is known. *)
Arguments set_currentPlayingSources l !w /.
Arguments set_audio g !w /.
Arguments set_clock t !w /.
Arguments set_timers l !w /.
Arguments set_draws n !w /.
Arguments set_page p !w /.
Arguments set_downloads l !w /.

(** *** Statements: state passing with exceptions *)

Inductive outcome (A : Type) :=
| Return (a : A) (w : World)
| Throw (error : string) (w : World).
Arguments Return {A} a w.
Arguments Throw {A} error w.

Definition M (A : Type) : Type := World -> outcome A.

Definition ret {A} (a : A) : M A := fun w => Return a w.

Definition bind {A B} (m : M A) (k : A -> M B) : M B :=
  fun w =>
    match m w with
    | Return a w' => k a w'
    | Throw e w' => Throw e w'
    end.

Definition throw {A} (error : string) : M A := fun w => Throw error w.

Definition try_catch {A} (body : M A) (handler : string -> M A) : M A :=
  fun w =>
    match body w with
    | Return a w' => Return a w'
    | Throw e w' => handler e w'
    end.

Definition try_finally {A} (body : M A) (finalizer : M unit) : M A :=
  fun w =>
    match body w with
    | Return a w' =>
        match finalizer w' with
        | Return _ w'' => Return a w''
        | Throw e w'' => Throw e w''
        end
    | Throw e w' =>
        match finalizer w' with
        | Return _ w'' => Throw e w''
        | Throw e' w'' => Throw e' w''
        end
    end.

Definition get {A} (f : World -> A) : M A := fun w => Return (f w) w.
Definition modify (f : World -> World) : M unit := fun w => Return tt (f w).

Definition world_of {A} (o : outcome A) : World :=
  match o with
  | Return _ w => w
  | Throw _ w => w
  end.

#[global] Instance M_ret : MRet M := @ret.
#[global] Instance M_bind : MBind M := fun A B k m => bind m k.

(** [array.forEach(callback)]. *)
Fixpoint forEach {A} (l : list A) (callback : A -> M unit) : M unit :=
  match l with
  | [] => ret tt
  | x :: rest => (callback x : M unit) ;; forEach rest callback
  end.

(** [for (let i = 0; i < n; i++) body]. *)
Fixpoint repeatM (n : nat) (body : M unit) : M unit :=
  match n with
  | O => ret tt
  | S k => body ;; repeatM k body
  end.

(** *** The host's side of the Web Audio calls *)

(** [source.start(when)]. *)
Definition source_start (id : nat) (when : Q) (g : Graph) : string + Graph :=
  match source_at g id with
  | None => inl "TypeError"%string
  | Some s =>
      match startTime s with
      | Some _ => inl "InvalidStateError"%string
      | None =>
          if Qlt_le_dec when 0 then inl "RangeError"%string
          else inr (update id (on_source (with_startTime when)) g)
      end
  end.

(** [source.stop(when)].  Every host refuses a source that was never
    started; a [legacy] host also refuses one whose playback is over. *)
Definition source_stop (legacy : bool) (id : nat) (when : Q) (g : Graph)
  : string + Graph :=
  match source_at g id with
  | None => inl "TypeError"%string
  | Some s =>
      match startTime s with
      | None => inl "InvalidStateError"%string
      | Some _ =>
          if legacy && finished s then inl "InvalidStateError"%string
          else if Qlt_le_dec when 0 then inl "RangeError"%string
          else inr (update id (on_source (with_stopTime when)) g)
      end
  end.

(** An [OfflineAudioContext] under construction. *)
Record OfflineContext := {
  channelCount : N;
  frameCount : N;
  renderRate : N;
  graph : Graph
}.

Definition on_graph (f : Graph -> Graph) (c : OfflineContext) : OfflineContext :=
  {| channelCount := channelCount c; frameCount := frameCount c;
     renderRate := renderRate c; graph := f (graph c) |}.

Definition with_status (message : string) (isInitialized : bool) (p : Page) : Page :=
  {| statusText := message; statusInitialized := isInitialized;
     playButtonShown := playButtonShown p;
     playButtonDisabled := playButtonDisabled p;
     stopButtonShown := stopButtonShown p;
     downloadButtonDisabled := downloadButtonDisabled p |}.

Definition with_playButtonShown (b : bool) (p : Page) : Page :=
  {| statusText := statusText p; statusInitialized := statusInitialized p;
     playButtonShown := b;
     playButtonDisabled := playButtonDisabled p;
     stopButtonShown := stopButtonShown p;
     downloadButtonDisabled := downloadButtonDisabled p |}.

Definition with_playButtonDisabled (b : bool) (p : Page) : Page :=
  {| statusText := statusText p; statusInitialized := statusInitialized p;
     playButtonShown := playButtonShown p;
     playButtonDisabled := b;
     stopButtonShown := stopButtonShown p;
     downloadButtonDisabled := downloadButtonDisabled p |}.

Definition with_stopButtonShown (b : bool) (p : Page) : Page :=
  {| statusText := statusText p; statusInitialized := statusInitialized p;
     playButtonShown := playButtonShown p;
     playButtonDisabled := playButtonDisabled p;
     stopButtonShown := b;
     downloadButtonDisabled := downloadButtonDisabled p |}.

Definition with_downloadButtonDisabled (b : bool) (p : Page) : Page :=
  {| statusText := statusText p; statusInitialized := statusInitialized p;
     playButtonShown := playButtonShown p;
     playButtonDisabled := playButtonDisabled p;
     stopButtonShown := stopButtonShown p;
     downloadButtonDisabled := b |}.

Definition on_page (f : Page -> Page) : M unit :=
  modify (fun w => set_page (f (page w)) w).

Definition on_audio (f : Graph -> Graph) : M unit :=
  modify (fun w => set_audio (f (audio w)) w).

(** A host call on the live graph that may raise. *)
Definition call_audio (f : Graph -> string + Graph) : M unit :=
  fun w =>
    match f (audio w) with
    | inl e => Throw e w
    | inr g => Return tt (set_audio g w)
    end.

Definition createNode (n : node) : M nat :=
  fun w => let '(id, g) := create n (audio w) in Return id (set_audio g w).

(** [audioContext.currentTime]: the clock in seconds, a double. *)
Definition currentTime : M Q := get (fun w => Binary.double (clock w / 1000)).

(** [setTimeout(() => createVoice(dryGain, wetGain, true), ms)].  The delay
    is taken as it is: a host converts it to whole milliseconds in its own
    way. *)
Definition setTimeout (dryGain wetGain : nat) (ms : Q) : M unit :=
  modify (fun w =>
    set_timers
      (timers w ++ [{| due := clock w + ms;
                       timerDryGain := dryGain; timerWetGain := wetGain |}]) w).

(** [Array.prototype.indexOf]. *)
Definition indexOf (l : list nat) (x : nat) : option nat :=
  fst <$> list_find (fun y => y = x) l.

(** *** The functions of [src/app.js] *)

Section Host.

(** The [n]-th value [Math.random] returns. *)
Variable random : nat -> Q.
(** Whether the host's [stop] refuses a finished source. *)
Variable legacy : bool.
(** [offlineContext.startRendering()]: the rendered channel data, if any. *)
Variable startRendering : OfflineContext -> option (N -> N -> JS.number).

Definition Math_random : M Q :=
  fun w => Return (random (draws w)) (set_draws (S (draws w)) w).

Definition updateStatus (message : string) (isInitialized : bool) : M unit :=
  on_page (with_status message isInitialized).

Definition stopAllSources : M unit :=
  sources ← get currentPlayingSources;
  forEach sources (fun source =>
    try_catch (call_audio (source_stop legacy source 0))
              (fun _ => ret tt (* Source may already be stopped *)));;
  modify (set_currentPlayingSources []).

Definition createVoice (dryGain wetGain : nat) (continuous : bool) : M unit :=
  source ← createNode (BufferSourceNode fresh_source);
  recorded ← get recordedBuffer;
  on_audio (update source (on_source (with_buffer recorded)));;
  (* Random pitch *)
  cfg ← get CONFIG;
  u ← Math_random;
  on_audio (update source (on_source
    (with_playbackRate
       (Number.add (PITCH_MIN cfg)
          (Number.mul u (Number.sub (PITCH_MAX cfg) (PITCH_MIN cfg)))))));;
  (* For continuous playback, always loop. For timed playback, use probability *)
  (if continuous
   then on_audio (update source (on_source (with_loop true)))
   else
     u ← Math_random;
     if Qlt_le_dec u (LOOP_PROBABILITY cfg)
     then on_audio (update source (on_source (with_loop true)))
     else ret tt);;
  (* Random gain *)
  gainNode ← createNode (GainNode 1);
  u ← Math_random;
  let gainValue :=
    Number.add (GAIN_MIN cfg)
      (Number.mul u (Number.sub (GAIN_MAX cfg) (GAIN_MIN cfg))) in
  on_audio (update gainNode (set_gain gainValue));;
  (* Connect to both dry and wet paths *)
  on_audio (connect (Node source) (Node gainNode));;
  on_audio (connect (Node gainNode) (Node dryGain));;
  on_audio (connect (Node gainNode) (Node wetGain));;
  (* Start playing *)
  now ← currentTime;
  call_audio (source_start source now);;
  (* Only schedule stop for non-continuous playback *)
  (if negb continuous
   then
     now ← currentTime;
     call_audio (source_stop legacy source
                   (Number.add now (Number.div (EFFECT_DURATION_MS cfg) 1000)))
   else ret tt);;
  sources ← get currentPlayingSources;
  modify (set_currentPlayingSources (sources ++ [source])).

(** The [onended] handler [createVoice] installs on its source. *)
Definition onended (source : nat) : M unit :=
  sources ← get currentPlayingSources;
  match indexOf sources source with
  | Some index => modify (set_currentPlayingSources (delete index sources))
  | None => ret tt
  end.

Definition playGibberingEffect : M unit :=
  recorded ← get recordedBuffer;
  match recorded with
  | None => ret tt
  | Some _ =>
      (* Stop any currently playing sources *)
      stopAllSources;;
      updateStatus "Playing gibbering effect..." false;;
      on_page (with_playButtonShown false);;
      on_page (with_stopButtonShown true);;
      (* Create dry/wet mix for reverb *)
      dryGain ← createNode (GainNode 1);
      wetGain ← createNode (GainNode 1);
      cfg ← get CONFIG;
      on_audio (update dryGain (set_gain (Number.sub 1 (REVERB_WET_MIX cfg))));;
      on_audio (update wetGain (set_gain (REVERB_WET_MIX cfg)));;
      on_audio (connect (Node dryGain) Destination);;
      on_audio (connect (Node wetGain) Reverb);;
      on_audio (connect Reverb Destination);;
      (* Spawn multiple voices - all loop for continuous playback *)
      repeatM (Z.to_nat (VOICE_COUNT cfg))
        (u ← Math_random;
         let delay := u * STAGGER_MAX_MS cfg / 1000 in
         setTimeout dryGain wetGain (delay * 1000));;
      on_page (with_downloadButtonDisabled false)
  end.

(** A host call on a graph held in a local variable. *)
Definition call {A} (r : string + A) : M A :=
  match r with
  | inl e => throw e
  | inr a => ret a
  end.

Definition createOfflineVoice (context : OfflineContext) (dryGain wetGain : nat)
    (delay : Q) : M OfflineContext :=
  let '(source, g) := create (BufferSourceNode fresh_source) (graph context) in
  recorded ← get recordedBuffer;
  let g := update source (on_source (with_buffer recorded)) g in
  (* Random pitch *)
  cfg ← get CONFIG;
  u ← Math_random;
  let g := update source (on_source
    (with_playbackRate
       (Number.add (PITCH_MIN cfg)
          (Number.mul u (Number.sub (PITCH_MAX cfg) (PITCH_MIN cfg)))))) g in
  (* Random looping *)
  u ← Math_random;
  let g := if Qlt_le_dec u (LOOP_PROBABILITY cfg)
           then update source (on_source (with_loop true)) g else g in
  (* Random gain *)
  let '(gainNode, g) := create (GainNode 1) g in
  u ← Math_random;
  let gainValue :=
    Number.add (GAIN_MIN cfg)
      (Number.mul u (Number.sub (GAIN_MAX cfg) (GAIN_MIN cfg))) in
  let g := update gainNode (set_gain gainValue) g in
  (* Connect to both dry and wet paths *)
  let g := connect (Node source) (Node gainNode) g in
  let g := connect (Node gainNode) (Node dryGain) g in
  let g := connect (Node gainNode) (Node wetGain) g in
  (* Start with delay *)
  g ← call (source_start source delay g);
  g ← call (source_stop legacy source
              (Number.add delay (Number.div (EFFECT_DURATION_MS cfg) 1000)) g);
  ret (on_graph (fun _ => g) context).

(** [new OfflineAudioContext(numberOfChannels, length, sampleRate)]: the
    length is converted to an unsigned long and must not be zero. *)
Definition new_OfflineAudioContext (numberOfChannels : N) (length : Q)
    (sampleRate : N) : M OfflineContext :=
  let frames := Z.to_N (JS.ToUint32 (JS.Finite length)) in
  if decide (frames = 0%N) then throw "NotSupportedError"
  else ret {| channelCount := numberOfChannels; frameCount := frames;
              renderRate := sampleRate; graph := empty_graph |}.

(** The kernel of the offline reverb: two channels of [2 * sampleRate]
    draws each. *)
Definition generateOfflineReverbImpulse (context : OfflineContext) : M Impulse :=
  let sampleRate := renderRate context in
  let length := (sampleRate * 2)%N in
  first ← get draws;
  modify (set_draws (first + 2 * N.to_nat length)%nat);;
  ret {| impulseRate := sampleRate; impulseLength := length; firstDraw := first |}.

(** [for (let i = 0; i < n; i++)] around a body that updates a local. *)
Fixpoint iterateM {A} (n : nat) (body : A -> M A) (a : A) : M A :=
  match n with
  | O => ret a
  | S k => a' ← body a; iterateM k body a'
  end.

Definition downloadEffect : M unit :=
  recorded ← get recordedBuffer;
  match recorded with
  | None => ret tt
  | Some _ =>
      updateStatus "Generating effect for download..." false;;
      on_page (with_downloadButtonDisabled true);;
      try_finally
        (try_catch
           ((* Create offline context for rendering *)
            rate ← get contextRate;
            cfg ← get CONFIG;
            offlineContext ← new_OfflineAudioContext 2
              (inject_Z (Z.of_N rate) * EFFECT_DURATION_MS cfg / 1000) rate;
            (* Create reverb for offline context *)
            let '(offlineReverb, g) := create (ConvolverNode None) (graph offlineContext) in
            impulse ← generateOfflineReverbImpulse offlineContext;
            let g := update offlineReverb (set_kernel impulse) g in
            (* Create dry/wet mix *)
            let '(dryGain, g) := create (GainNode 1) g in
            let '(wetGain, g) := create (GainNode 1) g in
            let g := update dryGain (set_gain (Number.sub 1 (REVERB_WET_MIX cfg))) g in
            let g := update wetGain (set_gain (REVERB_WET_MIX cfg)) g in
            let g := connect (Node dryGain) Destination g in
            let g := connect (Node wetGain) (Node offlineReverb) g in
            let g := connect (Node offlineReverb) Destination g in
            (* Create all voices with same random parameters *)
            offlineContext ← iterateM (Z.to_nat (VOICE_COUNT cfg))
              (fun context =>
                 u ← Math_random;
                 let delay := Number.div (Number.mul u (STAGGER_MAX_MS cfg)) 1000 in
                 createOfflineVoice context dryGain wetGain delay)
              (on_graph (fun _ => g) offlineContext);
            (* Render the audio *)
            updateStatus "Rendering audio..." false;;
            match startRendering offlineContext with
            | None => throw "RenderFailure"
            | Some data =>
                let renderedBuffer :=
                  {| AudioBuffer.numberOfChannels := channelCount offlineContext;
                     AudioBuffer.length := frameCount offlineContext;
                     AudioBuffer.sampleRate := renderRate offlineContext;
                     AudioBuffer.getChannelData := data |} in
                (* Convert to WAV and download *)
                updateStatus "Encoding WAV file..." false;;
                match Wav.Chunked.bufferToWav renderedBuffer with
                | None => throw "RangeError"
                | Some wavBlob =>
                    modify (fun w =>
                      set_downloads
                        (downloads w ++ [("gibbering_mouther.wav"%string, wavBlob)]) w);;
                    updateStatus "Effect downloaded successfully!" false
                end
            end)
           (fun error => updateStatus "Error generating download" false))
        (on_page (with_downloadButtonDisabled false))
  end.

(** The click handler of the stop button. *)
Definition stopButton_click : M unit :=
  stopAllSources;;
  on_page (with_stopButtonShown false);;
  on_page (with_playButtonShown true);;
  on_page (with_playButtonDisabled false);;
  on_page (with_downloadButtonDisabled false);;
  updateStatus "Playback stopped. Ready to play again!" false.

(** *** The event loop *)

Inductive event :=
| ClickPlay
| ClickStop
| ClickDownload
| Elapse (ms : Q)                 (* time passes, due timers run *)
| PlaybackFinished (source : nat) (* the host is done playing a source *)
| Ended (source : nat).           (* the host dispatches [onended] *)

(** The pending timer that is due first; among equals, the one set first. *)
Fixpoint earliest (l : list Timer) : option (nat * Timer) :=
  match l with
  | [] => None
  | t :: rest =>
      match earliest rest with
      | Some (i, t') =>
          if Qle_bool (due t) (due t') then Some (O, t) else Some (S i, t')
      | None => Some (O, t)
      end
  end.

(** Run the timers due by [until], each at its own time, in order. *)
Fixpoint run_due (fuel : nat) (until : Q) (w : World) : World :=
  match fuel with
  | O => w
  | S n =>
      match earliest (timers w) with
      | Some (i, t) =>
          if Qle_bool (due t) until then
            let w1 := set_timers (delete i (timers w))
                        (set_clock (Qmax (clock w) (due t)) w) in
            run_due n until
              (world_of (createVoice (timerDryGain t) (timerWetGain t) true w1))
          else w
      | None => w
      end
  end.

Definition elapse (ms : Q) (w : World) : World :=
  set_clock (clock w + ms) (run_due (length (timers w)) (clock w + ms) w).

Definition playback_finished (source : nat) (w : World) : World :=
  set_audio (update source (on_source with_finished) (audio w)) w.

(** An event can only happen when the page and the host allow it. *)
Definition enabled (e : event) (w : World) : bool :=
  match e with
  | ClickPlay => playButtonShown (page w) && negb (playButtonDisabled (page w))
  | ClickStop => stopButtonShown (page w)
  | ClickDownload => negb (downloadButtonDisabled (page w))
  | Elapse ms => Qle_bool 0 ms
  | PlaybackFinished source =>
      match source_at (audio w) source with
      | Some s => bool_decide (is_Some (startTime s)) && negb (finished s)
      | None => false
      end
  | Ended source =>
      match source_at (audio w) source with
      | Some s => finished s
      | None => false
      end
  end.

Definition handle (e : event) (w : World) : World :=
  match e with
  | ClickPlay => world_of (playGibberingEffect w)
  | ClickStop => world_of (stopButton_click w)
  | ClickDownload => world_of (downloadEffect w)
  | Elapse ms => elapse ms w
  | PlaybackFinished source => playback_finished source w
  | Ended source => world_of (onended source w)
  end.

Definition step (e : event) (w : World) : option World :=
  if enabled e w then Some (handle e w) else None.

Fixpoint run (events : list event) (w : World) : option World :=
  match events with
  | [] => Some w
  | e :: rest => w' ← step e w; run rest w'
  end.

End Host.

End Engine.

(** ** The byte layout the encoder is checked against *)

Module Layout.

Import JS DataView.

Definition ascii_bytes (s : string) : list Z :=
  map (fun c => Z.of_N (N_of_ascii c)) (list_ascii_of_string s).

Definition u16 (n : N) : list Z := le_bytes 2 (Z.of_N n mod 2 ^ 16).
Definition u32 (n : N) : list Z := le_bytes 4 (Z.of_N n mod 2 ^ 32).

(** The 44 bytes of a canonical PCM header; [dataSize] is in bytes. *)
Definition header_bytes (numberOfChannels sampleRate dataSize : N) : list Z :=
  ascii_bytes "RIFF" ++ u32 (36 + dataSize) ++ ascii_bytes "WAVE"
  ++ ascii_bytes "fmt " ++ u32 16 ++ u16 1 ++ u16 numberOfChannels
  ++ u32 sampleRate ++ u32 (sampleRate * numberOfChannels * 2)
  ++ u16 (numberOfChannels * 2) ++ u16 16
  ++ ascii_bytes "data" ++ u32 dataSize.

(** The bytes of [f k], [f (k+1)], ..., [count] of them. *)
Fixpoint range_bytes (count : nat) (k : N) (f : N -> list Z) : list Z :=
  match count with
  | O => []
  | S n => f k ++ range_bytes n (N.succ k) f
  end.

Definition sample_bytes (sample : number) : list Z :=
  le_bytes 2 (ToInt16 (Wav.int16_of sample)).

Definition frame_bytes (buffer : AudioBuffer.t) (j : N) : list Z :=
  range_bytes (N.to_nat (AudioBuffer.numberOfChannels buffer)) 0
    (fun channel => sample_bytes (AudioBuffer.getChannelData buffer channel j)).

Definition data_bytes (buffer : AudioBuffer.t) : list Z :=
  range_bytes (N.to_nat (AudioBuffer.length buffer)) 0 (frame_bytes buffer).

Definition dataSize (buffer : AudioBuffer.t) : N :=
  (AudioBuffer.length buffer * AudioBuffer.numberOfChannels buffer * 2)%N.

Definition wav_bytes (buffer : AudioBuffer.t) : list Z :=
  header_bytes (AudioBuffer.numberOfChannels buffer)
    (AudioBuffer.sampleRate buffer) (dataSize buffer)
  ++ data_bytes buffer.

(** Where the sample of frame [j], channel [channel] sits in the stream. *)
Definition sample_offset (buffer : AudioBuffer.t) (j channel : N) : nat :=
  (44 + 2 * (N.to_nat j * N.to_nat (AudioBuffer.numberOfChannels buffer)
             + N.to_nat channel))%nat.

(** A reader of the header: frame count, channel count and rate, recovered
    from the data size, the block align, the channel count and the rate. *)
Definition decode_header (stream : list Z) : option (Z * Z * Z) :=
  channels ← getUint16 stream 22 true;
  rate ← getUint32 stream 24 true;
  blockAlign ← getUint16 stream 32 true;
  size ← getUint32 stream 40 true;
  if decide (blockAlign = 0) then None
  else Some (size / blockAlign, channels, rate).

(** The sizes a header can hold: 32 bits for the chunk sizes, the rate and
    the byte rate, 16 bits for the block align. *)
Definition fits_header (buffer : AudioBuffer.t) : Prop :=
  (36 + dataSize buffer < 2 ^ 32)%N
  /\ (AudioBuffer.numberOfChannels buffer * 2 < 2 ^ 16)%N
  /\ (AudioBuffer.sampleRate buffer < 2 ^ 32)%N
  /\ (AudioBuffer.sampleRate buffer * AudioBuffer.numberOfChannels buffer * 2
      < 2 ^ 32)%N.

(** The fields of the canonical 44-byte PCM header, read little-endian. *)
Record canonical_header (stream : list Z) (frames channels rate : Z) : Prop := {
  riff_tag : get_bytes stream 0 4 = Some (ascii_bytes "RIFF");
  riff_size : getUint32 stream 4 true = Some (36 + frames * channels * 2);
  wave_tag : get_bytes stream 8 4 = Some (ascii_bytes "WAVE");
  fmt_tag : get_bytes stream 12 4 = Some (ascii_bytes "fmt ");
  fmt_size : getUint32 stream 16 true = Some 16;
  format_tag : getUint16 stream 20 true = Some 1;
  channel_count : getUint16 stream 22 true = Some channels;
  sample_rate : getUint32 stream 24 true = Some rate;
  byte_rate : getUint32 stream 28 true = Some (rate * channels * 2);
  block_align : getUint16 stream 32 true = Some (channels * 2);
  bits_per_sample : getUint16 stream 34 true = Some 16;
  data_tag : get_bytes stream 36 4 = Some (ascii_bytes "data");
  data_size : getUint32 stream 40 true = Some (frames * channels * 2)
}.

(** The value the code stores for a sample, in closed form: clamp to
    [-1, 1], scale by 32767, drop the fraction (toward zero). *)
Definition truncated (sample : number) : Z :=
  match sample with
  | Finite q => truncate (Qmax (-1) (Qmin 1 q) * 32767)
  | PosInfinity => 32767
  | NegInfinity => -32767
  | NaN => 0
  end.

(** The formula of the specification, [round(clamp(sample,-1,1) * 32767)],
    with [Math.round] (to nearest, halves up) as the rounding; kept apart
    from the code's own [truncated] to compare the two. *)
Definition rounded (sample : number) : Z :=
  match sample with
  | Finite q => Qfloor (Qmax (-1) (Qmin 1 q) * 32767 + (1 # 2))
  | PosInfinity => 32767
  | NegInfinity => -32767
  | NaN => 0
  end.

(** Sample inputs. *)
Definition ramp : AudioBuffer.t :=
  {| AudioBuffer.numberOfChannels := 2;
     AudioBuffer.length := 3;
     AudioBuffer.sampleRate := 44100;
     AudioBuffer.getChannelData := fun channel j =>
       Finite (inject_Z (Z.of_N j) / 2 - inject_Z (Z.of_N channel)) |}.

Definition constant (frames channels : N) (sample : number) : AudioBuffer.t :=
  {| AudioBuffer.numberOfChannels := channels;
     AudioBuffer.length := frames;
     AudioBuffer.sampleRate := 44100;
     AudioBuffer.getChannelData := fun _ _ => sample |}.

(** Four GiB of stereo silence: [2 ^ 30] frames. *)
Definition four_gib : AudioBuffer.t := constant (2 ^ 30) 2 (Finite 0).

End Layout.

(** ** Sessions of the voice engine, and sample inputs *)

Module Sessions.

Import Engine.
Local Open Scope Q_scope.

(** What a voice of the continuous player looks like at any time: looping,
    started, and without a stop time other than the immediate [stop()] of
    [stopAllSources]. *)
Definition continuous_voice (s : Source) : Prop :=
  loop s = true
  /\ is_Some (startTime s)
  /\ (stopTime s = None \/ stopTime s = Some 0).

Definition only_continuous_voices (g : Graph) : Prop :=
  forall id s, source_at g id = Some s -> continuous_voice s.

(** What the event loop keeps true of the live context. *)
Definition live_invariant (w : World) : Prop :=
  0 <= clock w /\ only_continuous_voices (audio w).

(** A statement that leaves the live graph and the clock alone, however it
    ends. *)
Definition leaves_audio {A} (m : M A) : Prop :=
  forall w, audio (world_of (m w)) = audio w
            /\ clock (world_of (m w)) = clock w.

#[global] Instance endpoint_eq_dec : EqDecision endpoint.
Proof. solve_decision. Defined.

(** What [from] has been connected to. *)
Definition successors (g : Graph) (from : endpoint) : list endpoint :=
  snd <$> filter (fun e => fst e = from) (edges g).

(** The dry bus a voice plays into: the node its gain stage feeds that is
    itself wired straight to the sink.  Every play builds its own. *)
Definition dry_buses (g : Graph) (source : nat) : list nat :=
  gainNode ← successors g (Node source);
  bus ← successors g gainNode;
  match bus with
  | Node d => if bool_decide (Destination ∈ successors g (Node d)) then [d] else []
  | _ => []
  end.

(** The dry buses of the voices in the active set, each listed once: one
    entry per play that has a voice there. *)
Definition active_sessions (w : World) : list nat :=
  remove_dups (currentPlayingSources w ≫= dry_buses (audio w)).

(** [stop()] on one source, with whatever it raises swallowed. *)
Definition stopped (legacy : bool) (g : Graph) (source : nat) : Graph :=
  match source_stop legacy source 0 g with
  | inl _ => g
  | inr g' => g'
  end.

(** A graph with one more voice: a started source, its gain stage, and the
    three connections. *)
Definition with_voice (g : Graph) (s : Source) (gainValue : Q)
    (dryGain wetGain : nat) : Graph :=
  let source := length (nodes g) in
  let gainNode := S source in
  {| nodes := nodes g ++ [BufferSourceNode s; GainNode gainValue];
     edges := edges g ++ [(Node source, Node gainNode);
                          (Node gainNode, Node dryGain);
                          (Node gainNode, Node wetGain)] |}.

(** The doubles a voice assigns to its playback rate and to its gain, and
    the stop time of a timed voice that starts at [start]. *)
Definition pitch_of (cfg : Config) (u : Q) : Q :=
  Number.add (PITCH_MIN cfg)
    (Number.mul u (Number.sub (PITCH_MAX cfg) (PITCH_MIN cfg))).

Definition gain_of (cfg : Config) (u : Q) : Q :=
  Number.add (GAIN_MIN cfg)
    (Number.mul u (Number.sub (GAIN_MAX cfg) (GAIN_MIN cfg))).

Definition stop_of (cfg : Config) (start : Q) : Q :=
  Number.add start (Number.div (EFFECT_DURATION_MS cfg) 1000).


Definition loops (cfg : Config) (u : Q) : bool :=
  if Qlt_le_dec u (LOOP_PROBABILITY cfg) then true else false.

(** The timers one play sets: one per voice, each after its own draw. *)
Definition spawn_timers (random : nat -> Q) (cfg : Config) (now : Q)
    (firstDraw : nat) (dryGain wetGain : nat) (count : nat) : list Timer :=
  (fun k =>
     {| due := now + random (firstDraw + k)%nat * STAGGER_MAX_MS cfg / 1000 * 1000;
        timerDryGain := dryGain; timerWetGain := wetGain |})
  <$> seq 0 count.

(** The page once a recording has been decoded, with the initial
    configuration. *)
Definition page_after_recording : Page :=
  {| statusText := "Recording complete! Ready to play gibbering effect";
     statusInitialized := false;
     playButtonShown := true;
     playButtonDisabled := false;
     stopButtonShown := false;
     downloadButtonDisabled := true |}.

Definition after_recording (recorded : option AudioBuffer.t) (cfg : Config)
  : World :=
  {| CONFIG := cfg;
     recordedBuffer := recorded;
     currentPlayingSources := [];
     audio := empty_graph;
     contextRate := 44100;
     clock := 0;
     timers := [];
     draws := 0;
     page := page_after_recording;
     downloads := [] |}.

(** A configuration whose rates and gains an [AudioParam] takes.  Beyond
    the binary32 range (here, for short, beyond [2 ^ 127]) its setter
    raises, which is outside the model. *)
Definition params_in_range (cfg : Config) : Prop :=
  - 2 ^ 127 <= PITCH_MIN cfg <= 2 ^ 127
  /\ - 2 ^ 127 <= PITCH_MAX cfg <= 2 ^ 127
  /\ - 2 ^ 127 <= GAIN_MIN cfg <= 2 ^ 127
  /\ - 2 ^ 127 <= GAIN_MAX cfg <= 2 ^ 127
  /\ - 2 ^ 127 <= REVERB_WET_MIX cfg <= 2 ^ 127.

(** The initial configuration with a reverb mix of 0.1, and with both pitch
    bounds at 0.7. *)
Definition one_tenth_wet : Config :=
  {| VOICE_COUNT := 40;
     PITCH_MIN := Binary.double (2 # 10);
     PITCH_MAX := Binary.double (15 # 10);
     STAGGER_MAX_MS := 800;
     GAIN_MIN := Binary.double (3 # 10);
     GAIN_MAX := 1;
     EFFECT_DURATION_MS := 15000;
     REVERB_WET_MIX := Binary.double (1 # 10);
     LOOP_PROBABILITY := Binary.double (3 # 10) |}.

Definition pitch_fixed_at_seven_tenths : Config :=
  {| VOICE_COUNT := 40;
     PITCH_MIN := Binary.double (7 # 10);
     PITCH_MAX := Binary.double (7 # 10);
     STAGGER_MAX_MS := 800;
     GAIN_MIN := Binary.double (3 # 10);
     GAIN_MAX := 1;
     EFFECT_DURATION_MS := 15000;
     REVERB_WET_MIX := Binary.double (5 # 10);
     LOOP_PROBABILITY := Binary.double (3 # 10) |}.

(** A world with one voice in the active set whose playback is over. *)
Definition ended_voice_in_the_set : World :=
  {| CONFIG := CONFIG_initial;
     recordedBuffer := None;
     currentPlayingSources := [0%nat];
     audio := {| nodes := [BufferSourceNode
                             {| buffer := None; playbackRate := 1; loop := false;
                                startTime := Some 0; stopTime := None;
                                finished := true |}];
                 edges := [] |};
     contextRate := 44100;
     clock := 0;
     timers := [];
     draws := 0;
     page := page_after_recording;
     downloads := [] |}.

(** One second of mono silence at 44100 Hz. *)
Definition one_second : AudioBuffer.t := Layout.constant 44100 1 (JS.Finite 0).

(** A [Math.random] that always returns one half, a host whose renderer
    fails, and one whose renderer returns silence. *)
Definition always_half : nat -> Q := fun _ => 1 # 2.
Definition no_render : OfflineContext -> option (N -> N -> JS.number) :=
  fun _ => None.
Definition silent_render : OfflineContext -> option (N -> N -> JS.number) :=
  fun _ => Some (fun _ _ => JS.Finite 0).

(** Play, stop after 100 ms, play again 100 ms later, then wait. *)
Definition replay_within_stagger : list event :=
  [ClickPlay; Elapse 100; ClickStop; Elapse 100; ClickPlay; Elapse 200; Elapse 200].

End Sessions.

(** ** The rounding against the primitive floats

    The primitive floats are binary64, and [SpecFloat] rounds to any format.
    [agree] compares the four operators of [Number] and [Binary.fround]
    with them on a pair of doubles, wherever their result is finite. *)

Module Binary64.

Import SpecFloat.

#[local] Set Warnings "-inexact-float".

(** The rational a float is; 0 for the values that are not finite. *)
Definition of_spec (f : spec_float) : Q :=
  match f with
  | S754_finite s m e =>
      ((if s then inject_Z (Z.neg m) else inject_Z (Z.pos m)) * 2 ^ e)%Q
  | _ => 0%Q
  end.

Definition to_Q (f : float) : Q := of_spec (Prim2SF f).

(** Whether a result that is finite is the rational [q]. *)
Definition same (f : spec_float) (q : Q) : bool :=
  match f with
  | S754_finite _ _ _ | S754_zero _ => Qeq_bool (of_spec f) q
  | _ => true
  end.

Definition agree (a b : float) : bool :=
  same (Prim2SF (a + b)) (Number.add (to_Q a) (to_Q b))
  && same (Prim2SF (a - b)) (Number.sub (to_Q a) (to_Q b))
  && same (Prim2SF (a * b)) (Number.mul (to_Q a) (to_Q b))
  && (PrimFloat.eqb b 0 || same (Prim2SF (a / b)) (Number.div (to_Q a) (to_Q b)))
  && match Prim2SF a with
     | S754_finite s m e =>
         same (binary_normalize 24 128 (if s then Z.neg m else Z.pos m) e s)
            (Binary.fround (to_Q a))
     | _ => true
     end.

(** The largest double below 1. *)
Definition largest_draw : float := (1 - Z.ldexp 1 (-53)%Z)%float.

Definition samples : list float :=
  [0; 0.1; 0.2; 0.3; 0.4; 0.5; 0.6; 0.7; 0.8; 0.9; 1; 1.5; 15; 800; 1000;
   15000; 44100; 0.0008; -0.7; 1e-310; 3e-320; 1e-40; 2.5e-45; 1e30;
   largest_draw]%float.

End Binary64.

(** ** What the statements of the engine keep *)

Module Invariants.

Import Engine.

(** A statement that leaves [f] of the world as it was, however it ends. *)
Definition keeps {A B} (f : World -> B) (m : M A) : Prop :=
  forall w, f (world_of (m w)) = f w.

(** The live player: everything but the page, the draws and the downloads. *)
Definition playback (w : World)
  : Config * option AudioBuffer.t * list nat * Graph * N * Q * list Timer :=
  (CONFIG w, recordedBuffer w, currentPlayingSources w, audio w,
   contextRate w, clock w, timers w).

(** The three properties of the page that belong to the player. *)
Definition player_buttons (w : World) : bool * bool * bool :=
  (playButtonShown (page w), playButtonDisabled (page w),
   stopButtonShown (page w)).

(** What a render to file has no business with. *)
Definition outside_download (w : World) := (playback w, player_buttons w).

(** Exactly one of the play and stop buttons is shown. *)
Definition one_button_shown (p : Page) : Prop :=
  playButtonShown p = negb (stopButtonShown p).

(** Every member of the active set is a started source of the live context,
    listed once. *)
Definition active_set_started (w : World) : Prop :=
  NoDup (currentPlayingSources w)
  /\ forall id, id ∈ currentPlayingSources w ->
       exists s, source_at (audio w) id = Some s /\ is_Some (startTime s).


(** The world once the pending timer [t], at place [i], has run and its
    voice [s] has been created with gain [gainValue]. *)
Definition fired (w : World) (i : nat) (t : Timer) (s : Source) (gainValue : Q)
  : World :=
  {| CONFIG := CONFIG w;
     recordedBuffer := recordedBuffer w;
     currentPlayingSources :=
       currentPlayingSources w ++ [length (nodes (audio w))];
     audio := Sessions.with_voice (audio w) s gainValue
                (timerDryGain t) (timerWetGain t);
     contextRate := contextRate w;
     clock := Qmax (clock w) (due t);
     timers := delete i (timers w);
     draws := S (S (draws w));
     page := page w;
     downloads := downloads w |}.





End Invariants.

(** ** How the live graph is wired *)

Module Wiring.

Import Engine Sessions.

(** An endpoint that exists in the graph: the sink, the reverb, or a node
    that has been created. *)
Definition known (g : Graph) (e : endpoint) : Prop :=
  match e with
  | Node id => (id < length (nodes g))%nat
  | _ => True
  end.

(** Every connection joins endpoints that exist, and every pending timer
    holds nodes that exist. *)
Definition well_wired (w : World) : Prop :=
  (forall a b, (a, b) ∈ edges (audio w) ->
     known (audio w) a /\ known (audio w) b)
  /\ (forall t, t ∈ timers w ->
        known (audio w) (Node (timerDryGain t))
        /\ known (audio w) (Node (timerWetGain t))).

(** One session, on the buses [dryGain] and [dryGain + 1]: the dry bus feeds
    the sink only, the wet bus the reverb only, every pending timer holds
    these two buses, and every voice of the active set plays into this dry
    bus and no other. *)
Definition one_session (dryGain : nat) (w : World) : Prop :=
  (S dryGain < length (nodes (audio w)))%nat
  /\ successors (audio w) (Node dryGain) = [Destination]
  /\ successors (audio w) (Node (S dryGain)) = [Reverb]
  /\ (forall t, t ∈ timers w ->
        timerDryGain t = dryGain /\ timerWetGain t = S dryGain)
  /\ (forall id, id ∈ currentPlayingSources w ->
        dry_buses (audio w) id = [dryGain]).

End Wiring.

(** * Properties of the rounding *)

Module BinaryFacts.
Import Binary.
Local Open Scope Q_scope.

Lemma pow2_pos k : 0 < 2 ^ k.
Proof. by apply Qpower_0_lt. Qed.

Lemma pow2_plus a b : 2 ^ (a + b) == 2 ^ a * 2 ^ b.
Proof. by apply Qpower_plus. Qed.

Lemma pow2_succ a : 2 ^ (a + 1) == 2 * 2 ^ a.
Proof. rewrite pow2_plus. change (2 ^ 1) with 2. ring. Qed.

Lemma pow2_le a b : (a <= b)%Z -> 2 ^ a <= 2 ^ b.
Proof. intros H. by apply Qpower_le_compat_l. Qed.

Lemma pow2_lt a b : (a < b)%Z -> 2 ^ a < 2 ^ b.
Proof. intros H. by apply Qpower_lt_compat_l. Qed.

Lemma pow2_lt_inv a b : 2 ^ a < 2 ^ b -> (a < b)%Z.
Proof. intros H. by apply (Qpower_lt_compat_l_inv 2). Qed.

Lemma pow2_inject k : (0 <= k)%Z -> 2 ^ k == inject_Z (2 ^ k).
Proof. intros H. symmetry. by apply (Zpower_Qpower 2). Qed.

Lemma inject_Z_minus a b : inject_Z (a - b) == inject_Z a - inject_Z b.
Proof. unfold Z.sub. by rewrite inject_Z_plus, inject_Z_opp. Qed.

(** Dividing by a power of two and multiplying back. *)
Lemma scale_back x k : x / 2 ^ k * 2 ^ k == x.
Proof. field. pose proof (pow2_pos k). lra. Qed.

Lemma ilog2_spec x : 0 < x -> 2 ^ ilog2 x <= x /\ x < 2 ^ (ilog2 x + 1).
Proof.
  intros Hx. unfold ilog2.
  destruct x as [n d]. cbn [Qnum Qden]. cbv zeta.
  assert (Hn : (0 < n)%Z) by (unfold Qlt in Hx; cbn in Hx; lia).
  set (a := Z.log2 n). set (b := Z.log2 (Z.pos d)).
  pose proof (Z.log2_nonneg n) as Ha0. pose proof (Z.log2_nonneg (Z.pos d)) as Hb0.
  destruct (Z.log2_spec n Hn) as [Ha1 Ha2].
  destruct (Z.log2_spec (Z.pos d) ltac:(lia)) as [Hb1 Hb2].
  fold a in Ha0, Ha1, Ha2. fold b in Hb0, Hb1, Hb2.
  assert (HD : inject_Z n == (n # d) * inject_Z (Z.pos d)).
  { unfold Qeq, Qmult, inject_Z. cbn. lia. }
  assert (HP : 2 ^ a <= inject_Z n /\ inject_Z n < 2 * 2 ^ a).
  { rewrite (pow2_inject a) by done. split.
    - by rewrite <- Zle_Qle.
    - change 2 with (inject_Z 2) at 1. rewrite <- inject_Z_mult, <- Zlt_Qlt.
      replace (2 * 2 ^ a)%Z with (2 ^ Z.succ a)%Z; [done |].
      rewrite Z.pow_succ_r by done. lia. }
  assert (HR : 2 ^ b <= inject_Z (Z.pos d) /\ inject_Z (Z.pos d) < 2 * 2 ^ b).
  { rewrite (pow2_inject b) by done. split.
    - by rewrite <- Zle_Qle.
    - change 2 with (inject_Z 2) at 1. rewrite <- inject_Z_mult, <- Zlt_Qlt.
      replace (2 * 2 ^ b)%Z with (2 ^ Z.succ b)%Z; [done |].
      rewrite Z.pow_succ_r by done. lia. }
  assert (HE : 2 ^ a == 2 ^ (a - b) * 2 ^ b).
  { rewrite <- pow2_plus. by replace (a - b + b)%Z with a by lia. }
  pose proof (pow2_pos (a - b)) as HE0. pose proof (pow2_pos b) as HR0.
  pose proof (pow2_pos a) as HP0.
  assert (E2 : 2 ^ (a - b) == 2 * 2 ^ (a - b - 1)).
  { rewrite <- pow2_succ. by replace (a - b - 1 + 1)%Z with (a - b)%Z by lia. }
  pose proof (pow2_pos (a - b - 1)) as HF0.
  destruct (Qle_bool (2 ^ (a - b)) (n # d)) eqn:Eb;
    [rewrite pow2_succ | replace (a - b - 1 + 1)%Z with (a - b)%Z by lia];
    set (F := 2 ^ (a - b - 1)) in *; set (E := 2 ^ (a - b)) in *;
    set (P := 2 ^ a) in *; set (R := 2 ^ b) in *;
    set (D := inject_Z (Z.pos d)) in *; set (N := inject_Z n) in *;
    set (x := n # d) in *; clearbody F E P R D N x.
  - apply Qle_bool_iff in Eb. split; [done |].
    destruct (Qlt_le_dec x (2 * E)) as [? | Hge]; [done | exfalso].
    assert (2 * E * R <= x * D).
    { apply Qmult_le_compat_nonneg; split; lra. }
    lra.
  - assert (Hlt : x < E).
    { apply Qnot_le_lt. intros H. apply Qle_bool_iff in H. congruence. }
    split; [| done].
    destruct (Qlt_le_dec x F) as [Hl | ?]; [exfalso | done].
    assert (x * D < F * D) by (apply Qmult_lt_compat_r; lra).
    assert (F * D <= F * (2 * R)) by (apply Qmult_le_l; lra).
    assert (E * R == 2 * (F * R)) by (rewrite E2; ring).
    lra.
Qed.

Lemma ilog2_unique x e : 0 < x -> 2 ^ e <= x -> x < 2 ^ (e + 1) -> ilog2 x = e.
Proof.
  intros Hx H1 H2. destruct (ilog2_spec x Hx) as [H3 H4].
  assert (ilog2 x < e + 1)%Z by (apply pow2_lt_inv; lra).
  assert (e < ilog2 x + 1)%Z by (apply pow2_lt_inv; lra).
  lia.
Qed.

Lemma ilog2_comp x y : 0 < x -> x == y -> ilog2 x = ilog2 y.
Proof.
  intros Hx E. symmetry. destruct (ilog2_spec x Hx).
  apply ilog2_unique; lra.
Qed.

Lemma ilog2_mono x y : 0 < x -> x <= y -> (ilog2 x <= ilog2 y)%Z.
Proof.
  intros Hx Hxy. destruct (ilog2_spec x Hx), (ilog2_spec y ltac:(lra)).
  assert (ilog2 x < ilog2 y + 1)%Z by (apply pow2_lt_inv; lra).
  lia.
Qed.


(** *** The nearest integer *)

Lemma nearest_even_cases t :
  nearest_even t = Qfloor t \/ nearest_even t = (Qfloor t + 1)%Z.
Proof.
  unfold nearest_even.
  destruct (Qcompare _ _); [destruct (Z.even _) | |]; auto.
Qed.

Lemma floor_bounds t : inject_Z (Qfloor t) <= t /\ t < inject_Z (Qfloor t) + 1.
Proof.
  split; [apply Qfloor_le |].
  pose proof (Qlt_floor t) as H. rewrite inject_Z_plus in H. exact H.
Qed.

Lemma nearest_even_spec t :
  inject_Z (nearest_even t) - (1 # 2) <= t /\ t <= inject_Z (nearest_even t) + (1 # 2).
Proof.
  unfold nearest_even. destruct (floor_bounds t) as [H1 H2].
  destruct (Qcompare_spec (t - inject_Z (Qfloor t)) (1 # 2)) as [E | E | E];
    [destruct (Z.even _) | |];
    rewrite ?inject_Z_plus; change (inject_Z 1) with 1; lra.
Qed.

Lemma nearest_even_inject n : nearest_even (inject_Z n) = n.
Proof.
  unfold nearest_even. rewrite Qfloor_Z.
  destruct (Qcompare_spec (inject_Z n - inject_Z n) (1 # 2)) as [E | E | E];
    [lra | done | lra].
Qed.

Lemma nearest_even_comp s t : s == t -> nearest_even s = nearest_even t.
Proof.
  intros E. unfold nearest_even. rewrite (Qfloor_comp _ _ E).
  assert (E' : s - inject_Z (Qfloor t) == t - inject_Z (Qfloor t)) by (rewrite E; reflexivity).
  by rewrite (Qcompare_comp _ _ E' (1 # 2) (1 # 2) ltac:(reflexivity)).
Qed.

Lemma nearest_even_mono s t : s <= t -> (nearest_even s <= nearest_even t)%Z.
Proof.
  intros Hst.
  pose proof (Qfloor_resp_le _ _ Hst) as Hfl.
  destruct (Z.eq_dec (Qfloor s) (Qfloor t)) as [E | Hne].
  - unfold nearest_even. rewrite E.
    destruct (Qcompare_spec (s - inject_Z (Qfloor t)) (1 # 2));
      destruct (Qcompare_spec (t - inject_Z (Qfloor t)) (1 # 2));
      try destruct (Z.even _); try lia; lra.
  - destruct (nearest_even_cases s) as [-> | ->];
      destruct (nearest_even_cases t) as [-> | ->]; lia.
Qed.

(** Below the midpoint under [n], the nearest integer is under [n]. *)
Lemma nearest_even_below t n :
  t < inject_Z n - (1 # 2) -> (nearest_even t <= n - 1)%Z.
Proof.
  intros H. destruct (nearest_even_spec t) as [H1 _].
  assert (inject_Z (nearest_even t) < inject_Z n) by lra.
  rewrite <- Zlt_Qlt in *. lia.
Qed.

(** *** Rounding a positive number *)

Section Format.

Variables prec emin : Z.
Hypothesis prec_positive : (0 < prec)%Z.

Local Abbreviation ulp_exponent := (ulp_exponent prec emin).
Local Abbreviation round_positive := (round_positive prec emin).
Local Abbreviation round := (round prec emin).

Lemma ulp_exponent_comp x y : 0 < x -> x == y -> ulp_exponent x = ulp_exponent y.
Proof. intros Hx E. unfold Binary.ulp_exponent. by rewrite (ilog2_comp x y). Qed.

Lemma round_positive_comp x y :
  0 < x -> x == y -> round_positive x == round_positive y.
Proof.
  intros Hx E. unfold Binary.round_positive.
  rewrite <- (ulp_exponent_comp x y Hx E).
  rewrite (nearest_even_comp (x / 2 ^ ulp_exponent x) (y / 2 ^ ulp_exponent x));
    [reflexivity | by apply Qdiv_comp].
Qed.

Lemma scaled_nonneg x k : 0 <= x -> 0 <= x / 2 ^ k.
Proof.
  intros H. apply Qle_shift_div_l; [apply pow2_pos | lra].
Qed.

Lemma scaled_le x y k : x <= y -> x / 2 ^ k <= y / 2 ^ k.
Proof.
  intros H. apply Qmult_le_compat_r; [done |].
  apply Qinv_le_0_compat, Qlt_le_weak, pow2_pos.
Qed.

Lemma scaled_pow2 e k : 2 ^ e / 2 ^ k == 2 ^ (e - k).
Proof. by rewrite Qpower_minus. Qed.

Lemma round_positive_nonneg x : 0 < x -> 0 <= round_positive x.
Proof.
  intros Hx. unfold Binary.round_positive.
  apply Qmult_le_0_compat; [| apply Qlt_le_weak, pow2_pos].
  change 0 with (inject_Z 0). rewrite <- Zle_Qle.
  rewrite <- (nearest_even_inject 0). apply nearest_even_mono.
  apply scaled_nonneg. lra.
Qed.

(** A multiple of the unit that bounds [x] bounds what [x] is rounded to. *)
Lemma round_positive_le x n :
  x <= inject_Z n * 2 ^ ulp_exponent x ->
  round_positive x <= inject_Z n * 2 ^ ulp_exponent x.
Proof.
  intros H. unfold Binary.round_positive.
  apply Qmult_le_compat_r; [| apply Qlt_le_weak, pow2_pos].
  rewrite <- Zle_Qle. rewrite <- (nearest_even_inject n).
  apply nearest_even_mono.
  apply Qle_shift_div_r; [apply pow2_pos | done].
Qed.

Lemma round_positive_ge x n :
  inject_Z n * 2 ^ ulp_exponent x <= x ->
  inject_Z n * 2 ^ ulp_exponent x <= round_positive x.
Proof.
  intros H. unfold Binary.round_positive.
  apply Qmult_le_compat_r; [| apply Qlt_le_weak, pow2_pos].
  rewrite <- Zle_Qle. rewrite <- (nearest_even_inject n) at 1.
  apply nearest_even_mono.
  apply Qle_shift_div_l; [apply pow2_pos | done].
Qed.

(** A power of two that is a multiple of the unit, as such a multiple. *)
Lemma pow2_multiple e k : (k <= e)%Z -> 2 ^ e == inject_Z (2 ^ (e - k)) * 2 ^ k.
Proof.
  intros H. rewrite <- pow2_inject by lia. rewrite <- pow2_plus.
  by replace (e - k + k)%Z with e by lia.
Qed.

Lemma ulp_exponent_mono x y :
  0 < x -> x <= y -> (ulp_exponent x <= ulp_exponent y)%Z.
Proof.
  intros Hx Hxy. unfold Binary.ulp_exponent.
  pose proof (ilog2_mono x y Hx Hxy). lia.
Qed.

Lemma round_positive_mono x y :
  0 < x -> x <= y -> round_positive x <= round_positive y.
Proof.
  intros Hx Hxy.
  pose proof (ulp_exponent_mono x y Hx Hxy) as Hk.
  destruct (Z.eq_dec (ulp_exponent x) (ulp_exponent y)) as [E | Hne].
  - unfold Binary.round_positive. rewrite E.
    apply Qmult_le_compat_r; [| apply Qlt_le_weak, pow2_pos].
    rewrite <- Zle_Qle. apply nearest_even_mono. by apply scaled_le.
  - destruct (ilog2_spec x Hx) as [_ Hx2].
    destruct (ilog2_spec y ltac:(lra)) as [Hy1 _].
    assert (Hky : ulp_exponent y = (ilog2 y - prec + 1)%Z).
    { unfold Binary.ulp_exponent in *. lia. }
    assert (Hkx : (ilog2 x - prec + 1 <= ulp_exponent x)%Z).
    { unfold Binary.ulp_exponent. lia. }
    apply Qle_trans with (2 ^ ilog2 y).
    + rewrite (pow2_multiple (ilog2 y) (ulp_exponent x)) by lia.
      apply round_positive_le.
      rewrite <- pow2_multiple by lia.
      apply Qlt_le_weak, Qlt_le_trans with (2 ^ (ilog2 x + 1)); [done |].
      apply pow2_le. lia.
    + rewrite (pow2_multiple (ilog2 y) (ulp_exponent y)) by lia.
      apply round_positive_ge.
      by rewrite <- pow2_multiple by lia.
Qed.

(** Rounding moves by at most half a unit. *)
Lemma round_positive_error x :
  let half := 2 ^ (ulp_exponent x - 1) in
  x - half <= round_positive x /\ round_positive x <= x + half.
Proof.
  cbn zeta. unfold Binary.round_positive.
  set (k := ulp_exponent x).
  destruct (nearest_even_spec (x / 2 ^ k)) as [H1 H2].
  pose proof (pow2_pos k) as Hk. pose proof (scale_back x k) as Hs.
  assert (Hh : 2 ^ k == 2 * 2 ^ (k - 1)).
  { rewrite <- pow2_succ. by replace (k - 1 + 1)%Z with k by lia. }
  set (n := inject_Z (nearest_even (x / 2 ^ k))) in *.
  assert (H3 : (n - (1 # 2)) * 2 ^ k <= x / 2 ^ k * 2 ^ k)
    by (apply Qmult_le_compat_r; lra).
  assert (H4 : x / 2 ^ k * 2 ^ k <= (n + (1 # 2)) * 2 ^ k)
    by (apply Qmult_le_compat_r; lra).
  rewrite Hs in H3, H4.
  assert (E3 : (n - (1 # 2)) * 2 ^ k == n * 2 ^ k - 2 ^ (k - 1)) by (rewrite Hh; ring).
  assert (E4 : (n + (1 # 2)) * 2 ^ k == n * 2 ^ k + 2 ^ (k - 1)) by (rewrite Hh; ring).
  rewrite E3 in H3. rewrite E4 in H4.
  set (h := 2 ^ (k - 1)) in *. set (r := n * 2 ^ k) in *. clearbody h r.
  lra.
Qed.

(** A value with [prec] significant bits above the least exponent stays. *)
Lemma round_positive_fixed m j :
  (0 < m < 2 ^ prec)%Z -> (emin <= j)%Z ->
  round_positive (inject_Z m * 2 ^ j) == inject_Z m * 2 ^ j.
Proof.
  intros Hm Hj. set (x := inject_Z m * 2 ^ j).
  assert (Hx : 0 < x).
  { apply Qmult_lt_0_compat; [| apply pow2_pos].
    change 0 with (inject_Z 0). rewrite <- Zlt_Qlt. lia. }
  assert (Hk : (ulp_exponent x <= j)%Z).
  { unfold Binary.ulp_exponent.
    destruct (ilog2_spec x Hx) as [H1 _].
    assert (x < 2 ^ (prec + j)).
    { unfold x. rewrite pow2_plus. apply Qmult_lt_compat_r; [apply pow2_pos |].
      rewrite pow2_inject by lia. rewrite <- Zlt_Qlt. lia. }
    assert (ilog2 x < prec + j)%Z by (apply pow2_lt_inv; lra).
    lia. }
  unfold Binary.round_positive. fold x.
  assert (E : x / 2 ^ ulp_exponent x == inject_Z (m * 2 ^ (j - ulp_exponent x))).
  { rewrite inject_Z_mult, <- (pow2_inject (j - ulp_exponent x)) by lia.
    rewrite <- scaled_pow2. unfold x. field.
    pose proof (pow2_pos (ulp_exponent x)) as H. unfold x in H. lra. }
  rewrite (nearest_even_comp _ _ E), nearest_even_inject.
  rewrite <- E. apply scale_back.
Qed.

(** What a positive number is rounded to: at most [2 ^ prec] units. *)
Lemma round_positive_form x :
  0 < x ->
  exists m,
    round_positive x == inject_Z m * 2 ^ ulp_exponent x
    /\ (0 <= m <= 2 ^ prec)%Z.
Proof.
  intros Hx. exists (nearest_even (x / 2 ^ ulp_exponent x)).
  split; [reflexivity |]. split.
  - rewrite <- (nearest_even_inject 0). apply nearest_even_mono.
    apply scaled_nonneg. lra.
  - rewrite <- (nearest_even_inject (2 ^ prec)). apply nearest_even_mono.
    rewrite <- pow2_inject by lia.
    destruct (ilog2_spec x Hx) as [_ H2].
    apply Qle_shift_div_r; [apply pow2_pos |].
    rewrite <- pow2_plus. apply Qlt_le_weak, Qlt_le_trans with (2 ^ (ilog2 x + 1)); [done |].
    apply pow2_le. unfold Binary.ulp_exponent. lia.
Qed.

Lemma ulp_exponent_min x : (emin <= ulp_exponent x)%Z.
Proof. unfold Binary.ulp_exponent. lia. Qed.

(** *** Rounding *)

Lemma round_zero x : x == 0 -> round x = 0.
Proof.
  unfold Qeq, Binary.round. cbn. intros H.
  destruct (Qnum x); [done | lia | lia].
Qed.

Lemma round_pos x : 0 < x -> round x = round_positive x.
Proof.
  unfold Qlt, Binary.round. cbn. intros H.
  destruct (Qnum x); [lia | done | lia].
Qed.

Lemma round_neg x : x < 0 -> round x = - round_positive (- x).
Proof.
  unfold Qlt, Binary.round. cbn. intros H.
  destruct (Qnum x); [lia | lia | done].
Qed.

Lemma round_cases x :
  (x < 0 /\ round x = - round_positive (- x))
  \/ (x == 0 /\ round x = 0)
  \/ (0 < x /\ round x = round_positive x).
Proof.
  destruct (Q_dec x 0) as [[H | H] | H].
  - left. split; [done | by apply round_neg].
  - right. right. split; [done | by apply round_pos].
  - right. left. split; [done | by apply round_zero].
Qed.

Lemma round_comp x y : x == y -> round x == round y.
Proof.
  intros E.
  destruct (round_cases x) as [[Hx ->] | [[Hx ->] | [Hx ->]]].
  - rewrite (round_neg y) by lra.
    apply Qopp_comp, round_positive_comp; [lra | by rewrite E].
  - rewrite (round_zero y) by lra. reflexivity.
  - rewrite (round_pos y) by lra. by apply round_positive_comp.
Qed.

Lemma round_opp x : round (- x) == - round x.
Proof.
  destruct (round_cases x) as [[Hx ->] | [[Hx ->] | [Hx ->]]].
  - rewrite (round_pos (- x)) by lra. ring.
  - rewrite (round_zero (- x)) by lra. reflexivity.
  - rewrite (round_neg (- x)) by lra.
    apply Qopp_comp, round_positive_comp; [lra | ring].
Qed.

Lemma round_nonneg x : 0 <= x -> 0 <= round x.
Proof.
  intros H. destruct (round_cases x) as [[Hx ->] | [[Hx ->] | [Hx ->]]];
    [lra | lra | by apply round_positive_nonneg].
Qed.

Lemma round_nonpos x : x <= 0 -> round x <= 0.
Proof.
  intros H. destruct (round_cases x) as [[Hx ->] | [[Hx ->] | [Hx ->]]];
    [| lra | lra].
  pose proof (round_positive_nonneg (- x) ltac:(lra)). lra.
Qed.

Lemma round_mono x y : x <= y -> round x <= round y.
Proof.
  intros H.
  destruct (Qlt_le_dec 0 x) as [Hx | Hx].
  - rewrite (round_pos x), (round_pos y) by lra. by apply round_positive_mono.
  - destruct (Qlt_le_dec y 0) as [Hy | Hy].
    + rewrite (round_neg x), (round_neg y) by lra.
      apply Qopp_le_compat, round_positive_mono; lra.
    + apply Qle_trans with 0; [by apply round_nonpos | by apply round_nonneg].
Qed.

(** A number with at most [prec] significant bits and an exponent that is
    not below the least one is left as it is. *)
Lemma round_fixed m j :
  (Z.abs m < 2 ^ prec)%Z -> (emin <= j)%Z ->
  round (inject_Z m * 2 ^ j) == inject_Z m * 2 ^ j.
Proof.
  intros Hm Hj. pose proof (pow2_pos j) as Hp.
  destruct (Z.lt_trichotomy m 0) as [H | [-> | H]].
  - assert (Hx : inject_Z m * 2 ^ j < 0).
    { assert (inject_Z m < 0) by (change 0 with (inject_Z 0); rewrite <- Zlt_Qlt; lia).
      assert (0 < - inject_Z m * 2 ^ j) by (apply Qmult_lt_0_compat; lra).
      assert (- inject_Z m * 2 ^ j == - (inject_Z m * 2 ^ j)) by ring. lra. }
    rewrite (round_neg _ Hx).
    assert (E : - (inject_Z m * 2 ^ j) == inject_Z (- m) * 2 ^ j)
      by (rewrite inject_Z_opp; ring).
    assert (Hpos : 0 < - (inject_Z m * 2 ^ j)) by lra.
    rewrite (round_positive_comp _ _ Hpos E).
    rewrite round_positive_fixed by lia. rewrite inject_Z_opp. ring.
  - rewrite round_zero; [| ring]. ring.
  - assert (Hx : 0 < inject_Z m * 2 ^ j).
    { apply Qmult_lt_0_compat; [| done].
      change 0 with (inject_Z 0). rewrite <- Zlt_Qlt. lia. }
    rewrite (round_pos _ Hx). apply round_positive_fixed; lia.
Qed.

(** What a number is rounded to has at most [prec] significant bits. *)
Lemma round_form x :
  exists m j,
    round x == inject_Z m * 2 ^ j /\ (Z.abs m < 2 ^ prec)%Z /\ (emin <= j)%Z.
Proof.
  assert (Hpos : forall y, 0 < y ->
    exists m j, round_positive y == inject_Z m * 2 ^ j
                /\ (0 <= m < 2 ^ prec)%Z /\ (emin <= j)%Z).
  { intros y Hy. destruct (round_positive_form y Hy) as (m & E & Hm).
    pose proof (ulp_exponent_min y) as Hk.
    destruct (Z.eq_dec m (2 ^ prec)%Z) as [-> | Hne].
    - exists (2 ^ (prec - 1))%Z, (ulp_exponent y + 1)%Z.
      split; [| split; [| lia]].
      + rewrite E, <- !pow2_inject, <- !pow2_plus by lia.
        by replace (prec - 1 + (ulp_exponent y + 1))%Z
          with (prec + ulp_exponent y)%Z by lia.
      + split; [lia |]. apply Z.pow_lt_mono_r; lia.
    - exists m, (ulp_exponent y). split; [done |]. split; [lia | done]. }
  destruct (round_cases x) as [[Hx ->] | [[Hx ->] | [Hx ->]]].
  - destruct (Hpos (- x) ltac:(lra)) as (m & j & E & Hm & Hj).
    exists (- m)%Z, j. split; [| split; [lia | done]].
    rewrite E, inject_Z_opp. ring.
  - exists 0%Z, emin. split; [ring |]. split; [| lia].
    cbn. apply Z.pow_pos_nonneg; lia.
  - destruct (Hpos x Hx) as (m & j & E & Hm & Hj).
    exists m, j. split; [done |]. split; [lia | done].
Qed.

(** A number is representable when rounding leaves it as it is. *)
Lemma round_idempotent x : round (round x) == round x.
Proof.
  destruct (round_form x) as (m & j & E & Hm & Hj).
  rewrite (round_comp _ _ E), E. by apply round_fixed.
Qed.

Lemma round_0 : round 0 = 0.
Proof. by apply round_zero. Qed.

Lemma round_1 : (emin <= 0)%Z -> round 1 == 1.
Proof.
  intros H. assert (E : 1 == inject_Z 1 * 2 ^ 0) by reflexivity.
  rewrite (round_comp _ _ E), round_fixed; [by symmetry | | done].
  cbn. apply (Z.pow_lt_mono_r 2 0 prec); lia.
Qed.

(** Rounding keeps a number between representable bounds. *)
Lemma round_between lo hi x :
  round lo == lo -> round hi == hi -> lo <= x <= hi -> lo <= round x <= hi.
Proof.
  intros Hlo Hhi [H1 H2]. rewrite <- Hlo, <- Hhi.
  split; by apply round_mono.
Qed.

(** The error of rounding within the unit interval. *)
Lemma round_error_unit x :
  (emin <= - prec)%Z -> 0 <= x <= 1 ->
  x - 2 ^ (- prec - 1) <= round x /\ round x <= x + 2 ^ (- prec - 1).
Proof.
  intros Hmin [H0 H1]. pose proof (pow2_pos (- prec - 1)) as Hp.
  destruct (Qlt_le_dec x 1) as [Hlt | Hge].
  - destruct (Qlt_le_dec 0 x) as [Hx | Hx].
    + rewrite (round_pos x Hx).
      destruct (round_positive_error x) as [E1 E2].
      destruct (ilog2_spec x Hx) as [L1 _].
      assert (ilog2 x < 0)%Z by (apply pow2_lt_inv; change (2 ^ 0) with 1; lra).
      assert (2 ^ (ulp_exponent x - 1) <= 2 ^ (- prec - 1)).
      { apply pow2_le. unfold Binary.ulp_exponent. lia. }
      lra.
    + rewrite (round_zero x) by lra. lra.
  - assert (E : x == 1) by lra.
    rewrite (round_comp _ _ E), round_1 by lia. lra.
Qed.

(** The relative error of rounding, away from the subnormal range. *)
Lemma round_error_relative x :
  2 ^ (emin + prec - 1) <= x ->
  x - x * 2 ^ (- prec) <= round x /\ round x <= x + x * 2 ^ (- prec).
Proof.
  intros Hn. pose proof (pow2_pos (emin + prec - 1)) as Hp.
  assert (Hx : 0 < x) by lra.
  rewrite (round_pos x Hx).
  destruct (round_positive_error x) as [E1 E2].
  destruct (ilog2_spec x Hx) as [L1 L2].
  assert (emin + prec - 1 < ilog2 x + 1)%Z by (apply pow2_lt_inv; lra).
  assert (Hk : ulp_exponent x = (ilog2 x - prec + 1)%Z)
    by (unfold Binary.ulp_exponent; lia).
  rewrite Hk in E1, E2.
  assert (E : 2 ^ (ilog2 x - prec + 1 - 1) == 2 ^ ilog2 x * 2 ^ (- prec)).
  { rewrite <- pow2_plus. by replace (ilog2 x - prec + 1 - 1)%Z
      with (ilog2 x + - prec)%Z by lia. }
  rewrite E in E1, E2.
  assert (2 ^ ilog2 x * 2 ^ (- prec) <= x * 2 ^ (- prec)).
  { apply Qmult_le_compat_r; [done | apply Qlt_le_weak, pow2_pos]. }
  lra.
Qed.

(** A representable number is a whole number of least units. *)
Lemma representable_multiple x :
  round x == x -> exists n, x == inject_Z n * 2 ^ emin.
Proof.
  intros E. destruct (round_form x) as (m & j & F & _ & Hj).
  exists (m * 2 ^ (j - emin))%Z.
  rewrite <- E, F, inject_Z_mult, <- (pow2_inject (j - emin)) by lia.
  rewrite <- Qmult_assoc, <- pow2_plus.
  by replace (j - emin + emin)%Z with j by lia.
Qed.

(** A representable number below 1 is at most the last one below 1. *)
Lemma representable_below_one u :
  (emin <= - prec)%Z -> round u == u -> u < 1 -> u <= 1 - 2 ^ (- prec).
Proof.
  intros Hmin E Hu.
  assert (Hhalf : 2 ^ (- prec) <= 1 # 2).
  { change (1 # 2) with (2 ^ (-1)). apply pow2_le. lia. }
  destruct (Qlt_le_dec 0 u) as [H0 | H0]; [| lra].
  destruct (ilog2_spec u H0) as [L1 L2].
  assert (He : (ilog2 u < 0)%Z) by (apply pow2_lt_inv; change (2 ^ 0) with 1; lra).
  destruct (Z.eq_dec (ilog2 u) (-1)%Z) as [E1 | Hne].
  - destruct (round_positive_form u H0) as (m & F & Hm).
    rewrite <- (round_pos u H0), E in F.
    assert (Hk : ulp_exponent u = (- prec)%Z)
      by (unfold Binary.ulp_exponent; lia).
    rewrite Hk in F.
    assert (H1 : 1 == inject_Z (2 ^ prec) * 2 ^ (- prec)).
    { rewrite <- pow2_inject, <- pow2_plus by lia.
      by replace (prec + - prec)%Z with 0%Z by lia. }
    assert (Hlt : (m < 2 ^ prec)%Z).
    { rewrite Zlt_Qlt. apply Qmult_lt_r with (2 ^ (- prec)); [apply pow2_pos |].
      rewrite <- F, <- H1. done. }
    assert (Hle : inject_Z m <= inject_Z (2 ^ prec) - 1).
    { change 1 with (inject_Z 1). rewrite <- inject_Z_minus, <- Zle_Qle. lia. }
    assert (inject_Z m * 2 ^ (- prec)
            <= (inject_Z (2 ^ prec) - 1) * 2 ^ (- prec)).
    { apply Qmult_le_compat_r; [done | apply Qlt_le_weak, pow2_pos]. }
    assert ((inject_Z (2 ^ prec) - 1) * 2 ^ (- prec)
            == inject_Z (2 ^ prec) * 2 ^ (- prec) - 2 ^ (- prec)) by ring.
    lra.
  - assert (2 ^ (ilog2 u + 1) <= 1 # 2).
    { change (1 # 2) with (2 ^ (-1)). apply pow2_le. lia. }
    lra.
Qed.

(** *** [a + u * (b - a)], each operation rounded *)

(** The rounded product of a draw with the rounded width stays within the
    exact width. *)
Lemma scaled_width_within a b u :
  round a == a -> round b == b -> a <= b ->
  0 <= u <= 1 - 2 ^ (- prec) ->
  0 <= round (u * round (b - a)) <= b - a.
Proof.
  intros Ea Eb Hab [Hu0 Hu1].
  pose proof (pow2_pos (- prec)) as Hp.
  assert (Hd0 : 0 <= round (b - a)) by (apply round_nonneg; lra).
  assert (Hy0 : 0 <= u * round (b - a)) by by apply Qmult_le_0_compat.
  split; [by apply round_nonneg |].
  assert (Hyd : u * round (b - a) <= round (b - a)).
  { rewrite <- (Qmult_1_l (round (b - a))) at 2.
    apply Qmult_le_compat_r; [lra | done]. }
  destruct (Qlt_le_dec (b - a) (round (b - a))) as [Hup | Hdown].
  2:{ apply Qle_trans with (round (b - a)); [| done].
      apply Qle_trans with (round (round (b - a))); [by apply round_mono |].
      apply Qle_lteq. right. apply round_idempotent. }
  assert (Hx : 0 < b - a).
  { destruct (Qlt_le_dec 0 (b - a)) as [? | H]; [done |].
    rewrite (round_zero (b - a)) in Hup by lra. lra. }
  rewrite (round_pos _ Hx) in *.
  set (x := b - a) in *. set (k := ulp_exponent x).
  set (m := nearest_even (x / 2 ^ k)).
  assert (Hd : round_positive x = inject_Z m * 2 ^ k) by reflexivity.
  rewrite Hd in *.
  pose proof (pow2_pos k) as Hk0.
  pose proof (scale_back x k) as Hs.
  (* the unit is above the least one: otherwise [x] is a whole number of units *)
  assert (Hk : k = (ilog2 x - prec + 1)%Z).
  { destruct (Z.eq_dec k emin) as [Hk | Hk];
      [exfalso | unfold k, Binary.ulp_exponent in *; lia].
    destruct (representable_multiple a Ea) as [na Ha].
    destruct (representable_multiple b Eb) as [nb Hb].
    assert (E : x / 2 ^ k == inject_Z (nb - na)).
    { unfold x. rewrite Ha, Hb, Hk, inject_Z_minus. field.
      pose proof (pow2_pos emin). lra. }
    assert (Hm : m = (nb - na)%Z).
    { unfold m. by rewrite (nearest_even_comp _ _ E), nearest_even_inject. }
    rewrite Hm, <- E, Hs in Hup. lra. }
  destruct (ilog2_spec x Hx) as [L1 L2].
  assert (Ee : 2 ^ ilog2 x == inject_Z (2 ^ (prec - 1)) * 2 ^ k).
  { rewrite (pow2_multiple (ilog2 x) k) by lia.
    by replace (ilog2 x - k)%Z with (prec - 1)%Z by lia. }
  assert (Ee' : 2 ^ (ilog2 x + 1) == inject_Z (2 ^ prec) * 2 ^ k).
  { rewrite (pow2_multiple (ilog2 x + 1) k) by lia.
    by replace (ilog2 x + 1 - k)%Z with prec by lia. }
  (* [m] is above [2 ^ (prec - 1)] *)
  assert (Hm : (2 ^ (prec - 1) + 1 <= m)%Z).
  { assert (inject_Z (2 ^ (prec - 1)) < inject_Z m).
    { apply Qmult_lt_r with (2 ^ k); [done |]. rewrite <- Ee. lra. }
    rewrite <- Zlt_Qlt in *. lia. }
  assert (Hm' : (m <= 2 ^ prec)%Z).
  { destruct (round_positive_form x Hx) as (m' & F & Hm').
    unfold Binary.round_positive in F. fold k m in F.
    assert (inject_Z m == inject_Z m').
    { apply Qmult_inj_r with (2 ^ k); [lra | done]. }
    assert (m = m') by (by apply inject_Z_injective). lia. }
  (* [x] is not below the midpoint under [m] *)
  assert (Hmid : (inject_Z m - (1 # 2)) * 2 ^ k <= x).
  { destruct (nearest_even_spec (x / 2 ^ k)) as [S1 _]. fold m in S1.
    rewrite <- Hs. apply Qmult_le_compat_r; lra. }
  (* the product is below that midpoint *)
  assert (Hy : u * (inject_Z m * 2 ^ k) < (inject_Z m - (1 # 2)) * 2 ^ k).
  { assert (H1 : u * (inject_Z m * 2 ^ k)
                 <= (1 - 2 ^ (- prec)) * (inject_Z m * 2 ^ k)).
    { apply Qmult_le_compat_r; [done |]. apply Qmult_le_0_compat; [| lra].
      change 0 with (inject_Z 0). rewrite <- Zle_Qle.
      assert (0 < 2 ^ (prec - 1))%Z by (apply Z.pow_pos_nonneg; lia). lia. }
    assert (H2 : (1 # 2) + 2 ^ (- prec) <= inject_Z m * 2 ^ (- prec)).
    { assert (E1 : 1 # 2 == inject_Z (2 ^ (prec - 1)) * 2 ^ (- prec)).
      { rewrite <- pow2_inject, <- pow2_plus by lia.
        by replace (prec - 1 + - prec)%Z with (-1)%Z by lia. }
      assert (Hm1 : inject_Z (2 ^ (prec - 1)) + 1 <= inject_Z m).
      { change 1 with (inject_Z 1). by rewrite <- inject_Z_plus, <- Zle_Qle. }
      assert ((inject_Z (2 ^ (prec - 1)) + 1) * 2 ^ (- prec)
              <= inject_Z m * 2 ^ (- prec))
        by (apply Qmult_le_compat_r; lra).
      assert ((inject_Z (2 ^ (prec - 1)) + 1) * 2 ^ (- prec)
              == inject_Z (2 ^ (prec - 1)) * 2 ^ (- prec) + 2 ^ (- prec)) by ring.
      lra. }
    assert (H3 : ((1 # 2) + 2 ^ (- prec)) * 2 ^ k
                 <= inject_Z m * 2 ^ (- prec) * 2 ^ k).
    { apply Qmult_le_compat_r; lra. }
    assert (H4 : 0 < 2 ^ (- prec) * 2 ^ k) by (apply Qmult_lt_0_compat; lra).
    set (P := 2 ^ (- prec)) in *. set (K := 2 ^ k) in *.
    set (mq := inject_Z m) in *.
    assert (E5 : (1 - P) * (mq * K) == mq * K - mq * P * K) by ring.
    assert (E6 : (mq - (1 # 2)) * K == mq * K - (1 # 2) * K) by ring.
    assert (E7 : ((1 # 2) + P) * K == (1 # 2) * K + P * K) by ring.
    rewrite E5 in H1. rewrite E6. rewrite E7 in H3.
    clearbody P K mq. lra. }
  set (y := u * (inject_Z m * 2 ^ k)) in *.
  assert (Hfix : round (inject_Z (m - 1) * 2 ^ k) == inject_Z (m - 1) * 2 ^ k).
  { apply round_fixed; [| unfold k; apply ulp_exponent_min].
    assert (0 < 2 ^ (prec - 1))%Z by (apply Z.pow_pos_nonneg; lia). lia. }
  assert (Hbelow : inject_Z (m - 1) * 2 ^ k <= x).
  { apply Qle_trans with ((inject_Z m - (1 # 2)) * 2 ^ k); [| done].
    apply Qmult_le_compat_r; [| lra].
    rewrite inject_Z_minus. change (inject_Z 1) with 1. lra. }
  apply Qle_trans with (inject_Z (m - 1) * 2 ^ k); [| done].
  destruct (Qlt_le_dec (inject_Z (m - 1) * 2 ^ k) y) as [Hhigh | Hlow].
  2:{ rewrite <- Hfix. by apply round_mono. }
  assert (Hy1 : 2 ^ ilog2 x <= y).
  { rewrite Ee. apply Qlt_le_weak, Qle_lt_trans with (inject_Z (m - 1) * 2 ^ k); [| done].
    apply Qmult_le_compat_r; [| lra]. rewrite <- Zle_Qle. lia. }
  assert (Hypos : 0 < y) by (pose proof (pow2_pos (ilog2 x)); lra).
  assert (Hey : ilog2 y = ilog2 x) by (apply ilog2_unique; lra).
  rewrite (round_pos y Hypos). unfold Binary.round_positive.
  assert (Hky : ulp_exponent y = k).
  { unfold k, Binary.ulp_exponent. by rewrite Hey. }
  rewrite Hky. apply Qmult_le_compat_r; [| lra].
  rewrite <- Zle_Qle. apply nearest_even_below.
  apply Qlt_shift_div_r; [done | done].
Qed.

(** The value stays between the bounds. *)
Lemma interpolation_within a b u :
  round a == a -> round b == b -> a <= b ->
  0 <= u <= 1 - 2 ^ (- prec) ->
  a <= round (a + round (u * round (b - a))) <= b.
Proof.
  intros Ea Eb Hab Hu.
  destruct (scaled_width_within a b u Ea Eb Hab Hu) as [H0 H1].
  apply round_between; [done | done | lra].
Qed.

(** With equal bounds the value is the common bound. *)
Lemma interpolation_equal_bounds a b u :
  round a == a -> a == b ->
  round (a + round (u * round (b - a))) == a.
Proof.
  intros Ea Eab.
  rewrite (round_zero (b - a)) by lra.
  rewrite (round_zero (u * 0)) by ring.
  rewrite <- Ea at 2. apply round_comp. ring.
Qed.

End Format.

(** *** binary64, binary32 and the operators *)

Lemma double_comp x y : x == y -> double x == double y.
Proof. apply round_comp. Qed.

Lemma fround_comp x y : x == y -> fround x == fround y.
Proof. apply round_comp. Qed.

#[global] Instance double_proper : Proper (Qeq ==> Qeq) double.
Proof. intros x y. apply double_comp. Qed.

#[global] Instance fround_proper : Proper (Qeq ==> Qeq) fround.
Proof. intros x y. apply fround_comp. Qed.

Lemma double_mono x y : x <= y -> double x <= double y.
Proof. by apply round_mono. Qed.

Lemma fround_mono x y : x <= y -> fround x <= fround y.
Proof. by apply round_mono. Qed.

Lemma double_nonneg x : 0 <= x -> 0 <= double x.
Proof. by apply round_nonneg. Qed.

Lemma fround_nonneg x : 0 <= x -> 0 <= fround x.
Proof. by apply round_nonneg. Qed.

Lemma double_idempotent x : double (double x) == double x.
Proof. by apply round_idempotent. Qed.

Lemma double_between lo hi x :
  double lo == lo -> double hi == hi -> lo <= x <= hi -> lo <= double x <= hi.
Proof. by apply round_between. Qed.

(** In the unit interval a double is off by at most [2 ^ -54] and a
    binary32 by at most [2 ^ -25]. *)
Lemma double_error_unit x :
  0 <= x <= 1 -> x - 2 ^ (-54) <= double x /\ double x <= x + 2 ^ (-54).
Proof. by apply (round_error_unit 53 (-1074)). Qed.

Lemma fround_error_unit x :
  0 <= x <= 1 -> x - 2 ^ (-25) <= fround x /\ fround x <= x + 2 ^ (-25).
Proof. by apply (round_error_unit 24 (-149)). Qed.

(** From the least normal double on, a double is off by at most one part
    in [2 ^ 53]. *)
Lemma double_error_relative x :
  2 ^ (-1022) <= x ->
  x - x * 2 ^ (-53) <= double x /\ double x <= x + x * 2 ^ (-53).
Proof. by apply (round_error_relative 53 (-1074)). Qed.

Lemma double_below_one u : double u == u -> u < 1 -> u <= 1 - 2 ^ (-53).
Proof. by apply (representable_below_one 53 (-1074)). Qed.

(** A binary32 is a double. *)
Lemma fround_is_double x : fround x == x -> double x == x.
Proof.
  intros E. destruct (round_form 24 (-149) eq_refl x) as (m & j & F & Hm & Hj).
  fold (fround x) in F. rewrite E in F.
  rewrite (double_comp _ _ F), F. apply round_fixed; [done | lia | lia].
Qed.

Lemma add_nonneg x y : 0 <= x -> 0 <= y -> 0 <= Number.add x y.
Proof. intros Hx Hy. apply double_nonneg. lra. Qed.


Lemma div_nonneg x y : 0 <= x -> 0 < y -> 0 <= Number.div x y.
Proof. intros Hx Hy. apply double_nonneg. by apply Qle_shift_div_l; [| lra]. Qed.

(** [lo + u * (hi - lo)] on doubles, for doubles [lo <= hi] and a double
    [u] in [0, 1): between the bounds. *)
Lemma interpolation_on_doubles lo hi u :
  double lo == lo -> double hi == hi -> lo <= hi ->
  double u == u -> 0 <= u < 1 ->
  lo <= Number.add lo (Number.mul u (Number.sub hi lo)) <= hi.
Proof.
  intros Hlo Hhi Hle Hu [Hu0 Hu1].
  apply (interpolation_within 53 (-1074)); [done .. |].
  split; [done | by apply double_below_one].
Qed.

Lemma interpolation_on_equal_doubles lo hi u :
  double lo == lo -> lo == hi ->
  Number.add lo (Number.mul u (Number.sub hi lo)) == lo.
Proof. intros Hlo E. by apply (interpolation_equal_bounds 53 (-1074)). Qed.

End BinaryFacts.

(** * Properties of the encoder *)

Module WavFacts.
Import JS DataView Wav Layout.

Lemma truncate_inject_Z z : truncate (inject_Z z) = z.
Proof. unfold truncate. simpl. apply Z.quot_1_r. Qed.

Lemma to_int_of_N n : to_int (of_N n) = Z.of_N n.
Proof. apply truncate_inject_Z. Qed.

Lemma length_le_bytes n v : length (le_bytes n v) = n.
Proof. revert v. induction n; intros; simpl; [done | by rewrite IHn]. Qed.

(** Storing over a field in the middle of a view. *)
Lemma set_bytes_middle (pre old new post : list Z) :
  length old = length new ->
  set_bytes (pre ++ old ++ post) (length pre) new = Some (pre ++ new ++ post).
Proof.
  intros Hlen. unfold set_bytes.
  rewrite !length_app, Hlen.
  destruct (Nat.leb_spec (length pre + length new)
              (length pre + (length new + length post))) as [_ | H]; [| lia].
  f_equal.
  rewrite <- (Nat.add_0_r (length pre)), list_inserts_app_r.
  by rewrite list_inserts_0_r.
Qed.

Lemma setUint8_middle pre b post (n : N) :
  (n < 256)%N ->
  setUint8 (pre ++ [b] ++ post) (length pre) (of_N n)
  = Some (pre ++ [Z.of_N n] ++ post).
Proof.
  intros Hn. unfold setUint8, raw_bytes, ToUint8. rewrite to_int_of_N.
  rewrite (set_bytes_middle pre [b]); [| done].
  cbn [le_bytes]. change (2 ^ 8) with 256.
  rewrite Z.mod_mod by lia. rewrite Z.mod_small by lia. done.
Qed.

Lemma writeString_from_middle (s : string) : forall pre done_ old post,
  length old = String.length s ->
  writeString_from ((pre ++ done_) ++ old ++ post) (length pre) s (length done_)
  = Some ((pre ++ done_) ++ ascii_bytes s ++ post).
Proof.
  induction s as [| c s IH]; intros pre done_ old post Hlen.
  - destruct old; [done | discriminate].
  - destruct old as [| b old]; [discriminate |]. simpl in Hlen.
    cbn [writeString_from].
    rewrite <- length_app.
    change ((b :: old) ++ post) with ([b] ++ (old ++ post)).
    rewrite setUint8_middle by (pose proof (N_ascii_bounded c); lia).
    cbn [mbind option_bind].
    replace (S (length done_)) with (length (done_ ++ [Z.of_N (N_of_ascii c)]))
      by (rewrite length_app; simpl; lia).
    replace ((pre ++ done_) ++ [Z.of_N (N_of_ascii c)] ++ old ++ post)
      with ((pre ++ (done_ ++ [Z.of_N (N_of_ascii c)])) ++ old ++ post)
      by (by rewrite <- !app_assoc).
    rewrite IH by lia.
    f_equal. unfold ascii_bytes. simpl. by rewrite <- !app_assoc.
Qed.

Lemma writeString_middle pre old post s :
  length old = String.length s ->
  writeString (pre ++ old ++ post) (length pre) s
  = Some (pre ++ ascii_bytes s ++ post).
Proof.
  intros H. unfold writeString.
  pose proof (writeString_from_middle s pre [] old post H) as E.
  rewrite !app_nil_r in E. exact E.
Qed.

Lemma setUint32_middle pre old post n :
  length old = 4%nat ->
  setUint32 (pre ++ old ++ post) (length pre) (of_N n) true
  = Some (pre ++ u32 n ++ post).
Proof.
  intros H. unfold setUint32, raw_bytes, ToUint32. rewrite to_int_of_N.
  apply set_bytes_middle. rewrite H. symmetry. apply length_le_bytes.
Qed.

Lemma setUint16_middle pre old post n :
  length old = 2%nat ->
  setUint16 (pre ++ old ++ post) (length pre) (of_N n) true
  = Some (pre ++ u16 n ++ post).
Proof.
  intros H. unfold setUint16, raw_bytes, ToUint16. rewrite to_int_of_N.
  apply set_bytes_middle. rewrite H. symmetry. apply length_le_bytes.
Qed.

Lemma to_int_of_Z z : to_int (of_Z z) = z.
Proof. apply truncate_inject_Z. Qed.

Lemma ToUint8_char c : ToUint8 (of_N (N_of_ascii c)) = Z.of_N (N_of_ascii c).
Proof.
  unfold ToUint8. rewrite to_int_of_N. change (2 ^ 8) with 256.
  pose proof (N_ascii_bounded c). apply Z.mod_small. lia.
Qed.

(** The header block fills the first 44 bytes and leaves the rest alone. *)
Lemma writeHeader_layout tail numberOfChannels sampleRate size :
  writeHeader (ArrayBuffer 44 ++ tail) numberOfChannels sampleRate size
  = Some (header_bytes numberOfChannels sampleRate size ++ tail).
Proof.
  unfold writeHeader, header_bytes, writeString, setUint32, setUint16,
    setUint8, u32, u16, raw_bytes, ToUint32, ToUint16, ascii_bytes.
  cbn [writeString_from list_ascii_of_string map].
  unfold setUint8, raw_bytes.
  rewrite !ToUint8_char, !to_int_of_N, !to_int_of_Z.
  generalize (Z.of_N (36 + size) mod 2 ^ 32); intros riff.
  generalize (Z.of_N numberOfChannels mod 2 ^ 16); intros channels.
  generalize (Z.of_N sampleRate mod 2 ^ 32); intros rate.
  generalize (Z.of_N (sampleRate * numberOfChannels * 2) mod 2 ^ 32); intros byteRate.
  generalize (Z.of_N (numberOfChannels * 2) mod 2 ^ 16); intros blockAlign.
  generalize (Z.of_N size mod 2 ^ 32); intros data.
  cbn -[Z.modulo Z.div]. reflexivity.
Qed.

(** *** Counted loops *)

Lemma for_range_app {St} (body : N -> St -> option St) a : forall b k s,
  for_range (a + b) k body s
  = for_range a k body s ≫= for_range b (k + N.of_nat a) body.
Proof.
  induction a as [| a IH]; intros b k s.
  - simpl. by rewrite N.add_0_r.
  - cbn [for_range Nat.add]. destruct (body k s) as [s' |]; [| done].
    rewrite IH. by replace (N.succ k + N.of_nat a)%N with (k + N.of_nat (S a))%N by lia.
Qed.

Lemma length_range_bytes f m count : forall k,
  (forall i, length (f i) = m) ->
  length (range_bytes count k f) = (count * m)%nat.
Proof.
  induction count as [| n IH]; intros k Hf; [done |].
  cbn [range_bytes]. rewrite length_app, Hf, IH by done. lia.
Qed.

Section Writes.

(** A loop body that overwrites the next [m] bytes with [f k]. *)
Variable body : N -> cursor -> option cursor.
Variable f : N -> list Z.
Variable m : nat.

Hypothesis body_writes : forall k pre old post,
  length old = m ->
  body k {| view := pre ++ old ++ post; offset := length pre |}
  = Some {| view := pre ++ f k ++ post; offset := (length pre + m)%nat |}.
Hypothesis f_length : forall k, length (f k) = m.

Lemma for_range_writes count : forall k pre old post,
  length old = (count * m)%nat ->
  for_range count k body {| view := pre ++ old ++ post; offset := length pre |}
  = Some {| view := pre ++ range_bytes count k f ++ post;
            offset := (length pre + count * m)%nat |}.
Proof.
  induction count as [| n IH]; intros k pre old post Hlen.
  - destruct old; [| discriminate]. cbn. by rewrite Nat.add_0_r.
  - cbn [for_range range_bytes].
    rewrite <- (take_drop m old), <- app_assoc.
    rewrite body_writes by (rewrite length_take; lia).
    replace (length pre + m)%nat with (length (pre ++ f k))
      by (by rewrite length_app, f_length).
    rewrite (app_assoc pre (f k)).
    rewrite IH by (rewrite length_drop; lia).
    rewrite length_app, f_length, <- !app_assoc.
    f_equal. f_equal. lia.
Qed.

End Writes.

Lemma writeSample_writes buffer j channel pre old post :
  length old = 2%nat ->
  writeSample buffer j channel {| view := pre ++ old ++ post; offset := length pre |}
  = Some {| view := pre ++ sample_bytes (AudioBuffer.getChannelData buffer channel j) ++ post;
            offset := (length pre + 2)%nat |}.
Proof.
  intros H. unfold writeSample, setInt16, raw_bytes. cbn [view offset].
  rewrite set_bytes_middle by (by rewrite H, length_le_bytes). done.
Qed.

Lemma writeFrame_writes buffer j pre old post :
  length old = (N.to_nat (AudioBuffer.numberOfChannels buffer) * 2)%nat ->
  writeFrame buffer j {| view := pre ++ old ++ post; offset := length pre |}
  = Some {| view := pre ++ frame_bytes buffer j ++ post;
            offset := (length pre + N.to_nat (AudioBuffer.numberOfChannels buffer) * 2)%nat |}.
Proof.
  intros H. unfold writeFrame, frame_bytes.
  apply (for_range_writes (writeSample buffer j)
           (fun channel => sample_bytes (AudioBuffer.getChannelData buffer channel j)) 2);
    [| intros; apply length_le_bytes | done].
  intros. by apply writeSample_writes.
Qed.

Lemma length_frame_bytes buffer j :
  length (frame_bytes buffer j)
  = (N.to_nat (AudioBuffer.numberOfChannels buffer) * 2)%nat.
Proof. apply length_range_bytes. intros. apply length_le_bytes. Qed.

Lemma length_data_bytes buffer :
  length (data_bytes buffer) = N.to_nat (dataSize buffer).
Proof.
  unfold data_bytes.
  rewrite (length_range_bytes _ _ _ _ (length_frame_bytes buffer)).
  unfold dataSize. lia.
Qed.

(** The straight-line encoder writes the canonical layout. *)
Lemma straight_layout buffer :
  Straight.bufferToWav buffer
  = Some {| bytes := wav_bytes buffer; type := "audio/wav" |}.
Proof.
  unfold Straight.bufferToWav, wav_bytes. fold (dataSize buffer).
  unfold ArrayBuffer at 1. rewrite replicate_add.
  rewrite writeHeader_layout. cbn [mbind option_bind].
  set (h := header_bytes _ _ _).
  assert (Hh : length h = 44%nat) by done.
  rewrite <- Hh, <- (app_nil_r (replicate _ 0)).
  rewrite (for_range_writes (writeFrame buffer) (frame_bytes buffer)
             (N.to_nat (AudioBuffer.numberOfChannels buffer) * 2)).
  - cbn. by rewrite app_nil_r.
  - intros. by apply writeFrame_writes.
  - apply length_frame_bytes.
  - rewrite length_replicate. unfold dataSize. lia.
Qed.

(** *** The chunked loop is the straight loop *)

Lemma split_count buffer i :
  (i < AudioBuffer.length buffer)%N ->
  N.to_nat (AudioBuffer.length buffer - i)
  = (N.to_nat ((i + Chunked.chunkSize) `min` AudioBuffer.length buffer - i)
     + N.to_nat (AudioBuffer.length buffer - (i + Chunked.chunkSize)))%nat.
Proof. unfold Chunked.chunkSize. lia. Qed.

Lemma chunks_for_range buffer i c yields :
  fst <$> Chunked.chunks buffer i c yields
  = for_range (N.to_nat (AudioBuffer.length buffer - i)) i (writeFrame buffer) c.
Proof.
  funelim (Chunked.chunks buffer i c yields).
  - replace (N.to_nat (AudioBuffer.length buffer - i)) with O by lia. done.
  - rewrite H. clear H Heqcall Heq0.
    rewrite (split_count buffer i) by done.
    rewrite for_range_app, Heq. cbn [mbind option_bind].
    destruct (decide (i + Chunked.chunkSize <= AudioBuffer.length buffer)%N).
    + by replace (i + N.of_nat (N.to_nat
        ((i + Chunked.chunkSize) `min` AudioBuffer.length buffer - i)))%N
        with (i + Chunked.chunkSize)%N by lia.
    + by replace (N.to_nat (AudioBuffer.length buffer - (i + Chunked.chunkSize)))
        with O by lia.
  - rewrite (split_count buffer i) by done.
    rewrite for_range_app, Heq. done.
Qed.

(** The chunked encoder of [src/app.js] returns what the straight-line one
    of the earlier variant returns. *)
Lemma chunked_is_straight buffer :
  Chunked.bufferToWav buffer = Straight.bufferToWav buffer.
Proof.
  unfold Chunked.bufferToWav, Chunked.encode, Straight.bufferToWav.
  destruct (writeHeader _ _ _ _) as [v |]; [| done]. cbn [mbind option_bind].
  pose proof (chunks_for_range buffer 0 {| view := v; offset := 44 |} 0) as E.
  rewrite N.sub_0_r in E. rewrite <- E.
  destruct (Chunked.chunks _ _ _ _) as [[c y] |]; done.
Qed.

Lemma chunked_layout buffer :
  Chunked.bufferToWav buffer
  = Some {| bytes := wav_bytes buffer; type := "audio/wav" |}.
Proof. rewrite chunked_is_straight. apply straight_layout. Qed.

(** *** Reading the stream back *)

Lemma le_value_2 v :
  0 <= v < 2 ^ 16 -> le_value (le_bytes 2 v) = v.
Proof.
  intros H. cbn [le_value le_bytes]. change (2 ^ 16) with 65536 in H.
  Z.to_euclidean_division_equations. lia.
Qed.

Lemma le_value_4 v :
  0 <= v < 2 ^ 32 -> le_value (le_bytes 4 v) = v.
Proof.
  intros H. cbn [le_value le_bytes]. change (2 ^ 32) with 4294967296 in H.
  Z.to_euclidean_division_equations. lia.
Qed.

Lemma get_bytes_middle pre field post n :
  n = length field ->
  get_bytes (pre ++ field ++ post) (length pre) n = Some field.
Proof.
  intros ->. unfold get_bytes. rewrite !length_app.
  destruct (Nat.leb_spec (length pre + length field)
              (length pre + (length field + length post))) as [_ | H]; [| lia].
  by rewrite drop_app_length, take_app_length.
Qed.

Lemma get_unsigned_middle pre field post n :
  n = length field ->
  get_unsigned (pre ++ field ++ post) (length pre) n true = Some (le_value field).
Proof. intros H. unfold get_unsigned. by rewrite get_bytes_middle. Qed.

Lemma u16_range n : 0 <= Z.of_N n mod 2 ^ 16 < 2 ^ 16.
Proof. apply Z.mod_pos_bound. lia. Qed.

Lemma u32_range n : 0 <= Z.of_N n mod 2 ^ 32 < 2 ^ 32.
Proof. apply Z.mod_pos_bound. lia. Qed.

Section Header.

Variables (numberOfChannels sampleRate size : N) (rest : list Z).

Local Abbreviation stream :=
  (header_bytes numberOfChannels sampleRate size ++ rest).

(** Evaluate a getter on the 44 explicit cells of the header. *)
Ltac read_cells :=
  unfold header_bytes, getUint32, getUint16, get_unsigned, get_bytes,
    u32, u16, ascii_bytes;
  cbn -[Z.modulo Z.div Z.of_N Z.pow N.mul N.add Z.add Z.mul];
  try reflexivity.

Lemma read_riff_tag : get_bytes stream 0 4 = Some (ascii_bytes "RIFF").
Proof. read_cells. Qed.

Lemma read_riff_size :
  getUint32 stream 4 true = Some (Z.of_N (36 + size) mod 2 ^ 32).
Proof. read_cells. f_equal. apply (le_value_4 _ (u32_range _)). Qed.

Lemma read_wave_tag : get_bytes stream 8 4 = Some (ascii_bytes "WAVE").
Proof. read_cells. Qed.

Lemma read_fmt_tag : get_bytes stream 12 4 = Some (ascii_bytes "fmt ").
Proof. read_cells. Qed.

Lemma read_fmt_size : getUint32 stream 16 true = Some 16.
Proof. read_cells. Qed.

Lemma read_format_tag : getUint16 stream 20 true = Some 1.
Proof. read_cells. Qed.

Lemma read_channel_count :
  getUint16 stream 22 true = Some (Z.of_N numberOfChannels mod 2 ^ 16).
Proof. read_cells. f_equal. apply (le_value_2 _ (u16_range _)). Qed.

Lemma read_sample_rate :
  getUint32 stream 24 true = Some (Z.of_N sampleRate mod 2 ^ 32).
Proof. read_cells. f_equal. apply (le_value_4 _ (u32_range _)). Qed.

Lemma read_byte_rate :
  getUint32 stream 28 true
  = Some (Z.of_N (sampleRate * numberOfChannels * 2) mod 2 ^ 32).
Proof. read_cells. f_equal. apply (le_value_4 _ (u32_range _)). Qed.

Lemma read_block_align :
  getUint16 stream 32 true = Some (Z.of_N (numberOfChannels * 2) mod 2 ^ 16).
Proof. read_cells. f_equal. apply (le_value_2 _ (u16_range _)). Qed.

Lemma read_bits_per_sample : getUint16 stream 34 true = Some 16.
Proof. read_cells. Qed.

Lemma read_data_tag : get_bytes stream 36 4 = Some (ascii_bytes "data").
Proof. read_cells. Qed.

Lemma read_data_size :
  getUint32 stream 40 true = Some (Z.of_N size mod 2 ^ 32).
Proof. read_cells. f_equal. apply (le_value_4 _ (u32_range _)). Qed.

End Header.

(** *** Where a sample ends up *)

Lemma range_bytes_chunk f m (Hf : forall i, length (f i) = m) count :
  forall k i, (i < count)%nat ->
  take m (drop (i * m) (range_bytes count k f)) = f (k + N.of_nat i)%N.
Proof.
  induction count as [| n IH]; intros k i Hi; [lia |].
  cbn [range_bytes]. destruct i as [| i].
  - rewrite Nat.mul_0_l, drop_0. rewrite take_app_length' by (by rewrite Hf).
    by rewrite N.add_0_r.
  - replace (S i * m)%nat with (length (f k) + i * m)%nat by (rewrite Hf; lia).
    rewrite drop_app_add, IH by lia. f_equal. lia.
Qed.

Lemma take_drop_within {A} (l : list A) n i m :
  (i + n <= m)%nat -> take n (drop i (take m l)) = take n (drop i l).
Proof.
  intros H. rewrite !take_drop_commute, take_take. f_equal. f_equal. lia.
Qed.

Lemma sample_at buffer j channel :
  (j < AudioBuffer.length buffer)%N ->
  (channel < AudioBuffer.numberOfChannels buffer)%N ->
  get_bytes (wav_bytes buffer) (sample_offset buffer j channel) 2
  = Some (sample_bytes (AudioBuffer.getChannelData buffer channel j)).
Proof.
  intros Hj Hc. unfold get_bytes, wav_bytes, sample_offset.
  set (h := header_bytes _ _ _).
  set (C := N.to_nat (AudioBuffer.numberOfChannels buffer)).
  assert (Hh : length h = 44%nat) by done.
  rewrite length_app, Hh, length_data_bytes.
  destruct (Nat.leb_spec (44 + 2 * (N.to_nat j * C + N.to_nat channel) + 2)
              (44 + N.to_nat (dataSize buffer))) as [_ | H];
    [| unfold dataSize in H; subst C; nia].
  f_equal.
  rewrite <- Hh, drop_app_add.
  replace (2 * (N.to_nat j * C + N.to_nat channel))%nat
    with (N.to_nat j * (C * 2) + N.to_nat channel * 2)%nat by lia.
  rewrite <- drop_drop.
  rewrite <- (take_drop_within _ 2 _ (C * 2)) by (subst C; lia).
  unfold data_bytes.
  rewrite (range_bytes_chunk _ _ (length_frame_bytes buffer)) by lia.
  unfold frame_bytes. fold C.
  rewrite (range_bytes_chunk _ 2); [| intros; apply length_le_bytes | subst C; lia].
  rewrite !N.add_0_l, !N2Nat.id. done.
Qed.

(** *** The stored value *)

Lemma truncate_Qeq p q : p == q -> truncate p = truncate q.
Proof.
  unfold Qeq, truncate. destruct p as [a b], q as [c d]. cbn [Qnum Qden]. intros H.
  rewrite <- (Z.quot_mul_cancel_r a (Z.pos b) (Z.pos d)) by lia.
  rewrite H, (Z.mul_comm (Z.pos b)). apply Z.quot_mul_cancel_r; lia.
Qed.

Lemma truncate_bounds q n :
  0 <= n -> (inject_Z (- n) <= q <= inject_Z n)%Q -> - n <= truncate q <= n.
Proof.
  unfold Qle, truncate. destruct q as [a b]. cbn [Qnum Qden inject_Z].
  intros Hn [H1 H2]. rewrite !Z.mul_1_r in *.
  split.
  - apply Z.quot_le_lower_bound; lia.
  - apply Z.quot_le_upper_bound; lia.
Qed.

Lemma clamp_bounds q : (-1 <= Qmax (-1) (Qmin 1 q) <= 1)%Q.
Proof.
  split; [apply Q.le_max_l |].
  apply Q.max_lub; [done | apply Q.le_min_l].
Qed.

Lemma Qle_bool_false p q : Qle_bool p q = false -> (q < p)%Q.
Proof.
  intros H. apply Qnot_le_lt. intros Hle. apply Qle_bool_iff in Hle. congruence.
Qed.

Lemma clamp_eq c q :
  ((1 <= q /\ c == 1) \/ (-1 <= q <= 1 /\ c == q) \/ (q <= -1 /\ c == -1))%Q ->
  (c == Qmax (-1) (Qmin 1 q))%Q.
Proof.
  intros H.
  destruct (Q.max_spec (-1) (Qmin 1 q)) as [[H1 E1] | [H1 E1]];
    destruct (Q.min_spec 1 q) as [[H2 E2] | [H2 E2]];
    rewrite E1; rewrite ?E2 in *; lra.
Qed.

(** What [Math.max(-1, Math.min(1, sample))] is on a finite sample. *)
Lemma clamp_finite q :
  exists c, Math_max (of_Z (-1)) (Math_min (of_Z 1) (Finite q)) = Finite c
            /\ (c == Qmax (-1) (Qmin 1 q))%Q.
Proof.
  unfold Math_min, Math_max, of_Z.
  destruct (Qle_bool (inject_Z 1) q) eqn:H1.
  - apply Qle_bool_iff in H1. exists (inject_Z 1). split; [done |].
    apply clamp_eq. left. split; [exact H1 | reflexivity].
  - apply Qle_bool_false in H1.
    destruct (Qle_bool (inject_Z (-1)) q) eqn:H2.
    + apply Qle_bool_iff in H2. exists q. split; [done |].
      apply clamp_eq. right. left.
      change (inject_Z 1) with 1%Q in H1. change (inject_Z (-1)) with (-1)%Q in H2.
      split; [lra | reflexivity].
    + apply Qle_bool_false in H2. exists (inject_Z (-1)). split; [done |].
      apply clamp_eq. right. right.
      change (inject_Z (-1)) with (-1)%Q in *.
      split; [lra | reflexivity].
Qed.

Lemma to_int_int16_of sample : to_int (int16_of sample) = truncated sample.
Proof.
  destruct sample as [q | | |]; try reflexivity.
  unfold int16_of. destruct (clamp_finite q) as (c & -> & Hc).
  cbn [mul of_Z to_int truncated]. apply truncate_Qeq. by rewrite Hc.
Qed.

Lemma truncated_range sample : -32767 <= truncated sample <= 32767.
Proof.
  destruct sample as [q | | |]; cbn [truncated]; try lia.
  apply (truncate_bounds _ 32767); [lia |].
  destruct (clamp_bounds q) as [Hlo Hhi].
  revert Hlo Hhi. generalize (Qmax (-1) (Qmin 1 q)). intros c Hlo Hhi.
  unfold inject_Z. change (- (32767))%Z with (-32767)%Z. split; lra.
Qed.

Lemma int16_wrap z :
  - 2 ^ 15 <= z < 2 ^ 15 ->
  (if Z_ge_dec (z mod 2 ^ 16) (2 ^ 15) then z mod 2 ^ 16 - 2 ^ 16 else z mod 2 ^ 16) = z.
Proof.
  change (2 ^ 15) with 32768. change (2 ^ 16) with 65536. intros H.
  destruct (Z_ge_dec _ _); Z.to_euclidean_division_equations; lia.
Qed.

Lemma ToInt16_int16_of sample : ToInt16 (int16_of sample) = truncated sample.
Proof.
  unfold ToInt16. rewrite to_int_int16_of.
  pose proof (truncated_range sample). apply int16_wrap.
  change (2 ^ 15) with 32768. lia.
Qed.

Lemma le_value_2_mod v : le_value (le_bytes 2 v) = v mod 2 ^ 16.
Proof.
  cbn [le_value le_bytes]. change (2 ^ 16) with 65536.
  Z.to_euclidean_division_equations. lia.
Qed.

(** The 16-bit value read back at a sample's place. *)
Lemma emitted_sample buffer j channel :
  (j < AudioBuffer.length buffer)%N ->
  (channel < AudioBuffer.numberOfChannels buffer)%N ->
  getInt16 (wav_bytes buffer) (sample_offset buffer j channel) true
  = Some (truncated (AudioBuffer.getChannelData buffer channel j)).
Proof.
  intros Hj Hc. unfold getInt16, get_unsigned.
  rewrite sample_at by done. cbn [mbind option_bind]. unfold sample_bytes.
  rewrite le_value_2_mod, ToInt16_int16_of. f_equal.
  pose proof (truncated_range (AudioBuffer.getChannelData buffer channel j)).
  apply int16_wrap. change (2 ^ 15) with 32768. lia.
Qed.

(** *** The yields of the chunked loop *)

Lemma chunks_yields buffer i c yields c' yields' :
  Chunked.chunks buffer i c yields = Some (c', yields') ->
  yields' = (yields + N.to_nat ((AudioBuffer.length buffer - 1 - i)
                                / Chunked.chunkSize))%nat.
Proof.
  funelim (Chunked.chunks buffer i c yields); intros E.
  - injection E as _ <-.
    replace (AudioBuffer.length buffer - 1 - i)%N with 0%N by lia.
    change (0 / Chunked.chunkSize)%N with 0%N. lia.
  - apply H in E. rewrite E. clear H Heqcall Heq Heq0 E.
    unfold Chunked.chunkSize in *.
    destruct (decide (i + 10000 < AudioBuffer.length buffer)%N) as [Hlt | Hge].
    + replace (AudioBuffer.length buffer - 1 - i)%N
        with ((AudioBuffer.length buffer - 1 - (i + 10000)) + 1 * 10000)%N by lia.
      rewrite N.div_add by lia. lia.
    + replace (AudioBuffer.length buffer - 1 - (i + 10000))%N with 0%N by lia.
      rewrite (N.div_small (AudioBuffer.length buffer - 1 - i)) by lia.
      change (0 / 10000)%N with 0%N. lia.
  - discriminate E.
Qed.

(** *** The claims about the encoder *)

(** C1, as the code has it.  For a buffer of [L] frames, [C] channels and
    rate [R] whose sizes fit the header fields ([36 + L*C*2 < 2^32],
    [C*2 < 2^16], [R < 2^32], [R*C*2 < 2^32]), [bufferToWav] returns a blob
    of exactly [44 + L*C*2] bytes whose first 44 bytes are the canonical PCM
    header: RIFF chunk size [36 + L*C*2], format tag 1, [C] channels, rate
    [R], byte rate [R*C*2], block align [C*2], 16 bits per sample, data size
    [L*C*2]; with at least one channel the header decodes back to
    [(L, C, R)]. *)
Theorem wav_header_within_field_widths (buffer : AudioBuffer.t) :
  let L := Z.of_N (AudioBuffer.length buffer) in
  let C := Z.of_N (AudioBuffer.numberOfChannels buffer) in
  let R := Z.of_N (AudioBuffer.sampleRate buffer) in
  fits_header buffer ->
  exists blob,
    Chunked.bufferToWav buffer = Some blob
    /\ type blob = "audio/wav"%string
    /\ Z.of_nat (length (bytes blob)) = 44 + L * C * 2
    /\ canonical_header (bytes blob) L C R
    /\ (0 < C -> decode_header (bytes blob) = Some (L, C, R)).
Proof.
  intros L C R (Hsize & Halign & Hrate & Hbyte).
  exists {| bytes := wav_bytes buffer; type := "audio/wav" |}.
  unfold dataSize in Hsize.
  assert (E32 : forall n : N, (n < 2 ^ 32)%N -> Z.of_N n mod 2 ^ 32 = Z.of_N n).
  { intros n Hn. apply Z.mod_small. change (2 ^ 32)%N with 4294967296%N in Hn.
    change (2 ^ 32) with 4294967296. lia. }
  assert (E16 : forall n : N, (n < 2 ^ 16)%N -> Z.of_N n mod 2 ^ 16 = Z.of_N n).
  { intros n Hn. apply Z.mod_small. change (2 ^ 16)%N with 65536%N in Hn.
    change (2 ^ 16) with 65536. lia. }
  change (2 ^ 32)%N with 4294967296%N in *. change (2 ^ 16)%N with 65536%N in *.
  assert (Hfields : canonical_header (wav_bytes buffer) L C R).
  { unfold wav_bytes, dataSize. subst L C R. split.
    - apply read_riff_tag.
    - rewrite read_riff_size, E32 by (change (2 ^ 32)%N with 4294967296%N; lia).
      f_equal. lia.
    - apply read_wave_tag.
    - apply read_fmt_tag.
    - apply read_fmt_size.
    - apply read_format_tag.
    - rewrite read_channel_count, E16 by (change (2 ^ 16)%N with 65536%N; lia).
      done.
    - rewrite read_sample_rate, E32 by (change (2 ^ 32)%N with 4294967296%N; lia).
      done.
    - rewrite read_byte_rate, E32 by (change (2 ^ 32)%N with 4294967296%N; lia).
      f_equal. lia.
    - rewrite read_block_align, E16 by (change (2 ^ 16)%N with 65536%N; lia).
      f_equal. lia.
    - apply read_bits_per_sample.
    - apply read_data_tag.
    - rewrite read_data_size, E32 by (change (2 ^ 32)%N with 4294967296%N; lia).
      f_equal. lia. }
  split; [apply chunked_layout |]. split; [done |]. cbn [bytes].
  split.
  { unfold wav_bytes. rewrite length_app, length_data_bytes.
    change (length (header_bytes _ _ _)) with 44%nat.
    unfold dataSize. subst L C R. lia. }
  split; [exact Hfields |].
  intros HC. unfold decode_header.
  rewrite (channel_count _ _ _ _ Hfields), (sample_rate _ _ _ _ Hfields),
    (block_align _ _ _ _ Hfields), (data_size _ _ _ _ Hfields).
  cbn [mbind option_bind].
  destruct (decide (C * 2 = 0)) as [E | _]; [lia |].
  f_equal. f_equal. f_equal.
  rewrite <- Z.mul_assoc. apply Z.div_mul. lia.
Qed.

Lemma wav_header_within_field_widths_witness :
  fits_header ramp
  /\ exists blob,
       Chunked.bufferToWav ramp = Some blob
       /\ type blob = "audio/wav"%string
       /\ Z.of_nat (length (bytes blob)) = 44 + 3 * 2 * 2
       /\ canonical_header (bytes blob) 3 2 44100
       /\ (0 < 2 -> decode_header (bytes blob) = Some (3, 2, 44100)).
Proof.
  assert (H : fits_header ramp) by (repeat split; reflexivity).
  split; [exact H |].
  exact (wav_header_within_field_widths ramp H).
Defined.

(** C1 as stated fails on four GiB of audio: the stream is produced, but
    its RIFF chunk size reads 36 and its data size reads 0, where the claim
    has [36 + 2^32] and [2^32]. *)
Lemma header_wraps_at_four_gib :
  Z.of_N (dataSize four_gib) = 2 ^ 32
  /\ exists blob,
       Chunked.bufferToWav four_gib = Some blob
       /\ getUint32 (bytes blob) 4 true = Some 36
       /\ getUint32 (bytes blob) 40 true = Some 0
       /\ ~ canonical_header (bytes blob) (2 ^ 30) 2 44100.
Proof.
  split; [reflexivity |].
  exists {| bytes := wav_bytes four_gib; type := "audio/wav" |}.
  split; [apply chunked_layout |]. cbn [bytes]. unfold wav_bytes.
  generalize (data_bytes four_gib). intros data.
  assert (H4 : getUint32 (header_bytes 2 44100 (2 ^ 32) ++ data) 4 true = Some 36)
    by (rewrite read_riff_size; reflexivity).
  split; [exact H4 |].
  split; [rewrite read_data_size; reflexivity |].
  intros Hfields. pose proof (riff_size _ _ _ _ Hfields) as H.
  change (AudioBuffer.numberOfChannels four_gib) with 2%N in H.
  change (AudioBuffer.sampleRate four_gib) with 44100%N in H.
  change (dataSize four_gib) with (2 ^ 32)%N in H.
  rewrite H4 in H. discriminate H.
Qed.

(** C2, as the code has it.  The sample of frame [j] and channel [channel]
    is stored at its place in the interleaved data as the little-endian
    16-bit signed value of [clamp(x,-1,1) * 32767] with the fraction dropped
    (truncation toward zero, which is what [setInt16] does), not rounded.
    In particular 1.5 is stored as 1.0 is, namely 32767, and -2.0 as -1.0
    is, namely -32767. *)
Theorem samples_are_clamped_scaled_truncated (buffer : AudioBuffer.t) (j channel : N) :
  (j < AudioBuffer.length buffer)%N ->
  (channel < AudioBuffer.numberOfChannels buffer)%N ->
  exists blob,
    Chunked.bufferToWav buffer = Some blob
    /\ getInt16 (bytes blob) (sample_offset buffer j channel) true
       = Some (truncated (AudioBuffer.getChannelData buffer channel j))
    /\ truncated (Finite (3 # 2)) = 32767
    /\ truncated (Finite 1) = 32767
    /\ truncated (Finite (-2)) = -32767
    /\ truncated (Finite (-1)) = -32767.
Proof.
  intros Hj Hc. exists {| bytes := wav_bytes buffer; type := "audio/wav" |}.
  split; [apply chunked_layout |].
  split; [by apply emitted_sample |].
  repeat split; reflexivity.
Qed.

Lemma samples_are_clamped_scaled_truncated_witness :
  exists blob,
    Chunked.bufferToWav ramp = Some blob
    /\ getInt16 (bytes blob) (sample_offset ramp 1 0) true
       = Some (truncated (AudioBuffer.getChannelData ramp 0 1))
    /\ truncated (Finite (3 # 2)) = 32767
    /\ truncated (Finite 1) = 32767
    /\ truncated (Finite (-2)) = -32767
    /\ truncated (Finite (-1)) = -32767.
Proof.
  apply (samples_are_clamped_scaled_truncated ramp 1 0); reflexivity.
Defined.

(** C2 as stated fails: one mono frame holding 0.375 is stored as 12287,
    the truncation of 12287.625, where rounding gives 12288. *)
Lemma three_eighths_is_not_rounded :
  exists blob,
    Chunked.bufferToWav (constant 1 1 (Finite (3 # 8))) = Some blob
    /\ getInt16 (bytes blob) 44 true = Some 12287
    /\ rounded (Finite (3 # 8)) = 12288.
Proof. eexists. split; [vm_compute; reflexivity |]. split; reflexivity. Qed.

(** C3.  On every buffer the chunked encoder of [src/app.js] returns the
    blob the straight-line encoder of the earlier variant returns, byte for
    byte; it yields once after each chunk of 10000 frames but the last. *)
Theorem chunking_preserves_the_bytes (buffer : AudioBuffer.t) :
  exists blob yields,
    Chunked.encode buffer = Some (blob, yields)
    /\ yields = N.to_nat ((AudioBuffer.length buffer - 1) / Chunked.chunkSize)
    /\ Chunked.bufferToWav buffer = Some blob
    /\ Straight.bufferToWav buffer = Some blob.
Proof.
  pose proof (chunked_layout buffer) as Hc.
  pose proof (straight_layout buffer) as Hs.
  unfold Chunked.bufferToWav in *.
  destruct (Chunked.encode buffer) as [[blob yields] |] eqn:E; [| discriminate Hc].
  exists blob, yields. cbn in Hc. injection Hc as ->.
  split; [done |]. split; [| done].
  unfold Chunked.encode in E.
  destruct (writeHeader _ _ _ _) as [v |]; [| discriminate E].
  cbn [mbind option_bind] in E.
  destruct (Chunked.chunks _ _ _ _) as [[c y] |] eqn:Ec; [| discriminate E].
  injection E as _ <-. apply chunks_yields in Ec.
  rewrite N.sub_0_r in Ec. exact Ec.
Qed.

(** C10.  Every 16-bit value the encoder stores lies in [-32767, 32767];
    -32768 is never stored, and a sample of exactly -1.0 is stored as
    -32767. *)
Theorem samples_lie_in_symmetric_range (buffer : AudioBuffer.t) (j channel : N) :
  (j < AudioBuffer.length buffer)%N ->
  (channel < AudioBuffer.numberOfChannels buffer)%N ->
  exists blob v,
    Chunked.bufferToWav buffer = Some blob
    /\ getInt16 (bytes blob) (sample_offset buffer j channel) true = Some v
    /\ -32767 <= v <= 32767
    /\ v <> -32768
    /\ (forall q, AudioBuffer.getChannelData buffer channel j = Finite q ->
                  (q == -1)%Q -> v = -32767).
Proof.
  intros Hj Hc.
  exists {| bytes := wav_bytes buffer; type := "audio/wav" |},
         (truncated (AudioBuffer.getChannelData buffer channel j)).
  pose proof (truncated_range (AudioBuffer.getChannelData buffer channel j)).
  split; [apply chunked_layout |].
  split; [by apply emitted_sample |].
  split; [done |]. split; [lia |].
  intros q -> Hq. cbn [truncated].
  change (-32767) with (truncate ((-1) * 32767)%Q).
  apply truncate_Qeq.
  rewrite <- (clamp_eq q q); [by rewrite Hq |].
  right. left. split; [lra | reflexivity].
Qed.

Lemma samples_lie_in_symmetric_range_witness :
  exists blob v,
    Chunked.bufferToWav ramp = Some blob
    /\ getInt16 (bytes blob) (sample_offset ramp 0 1) true = Some v
    /\ -32767 <= v <= 32767
    /\ v <> -32768
    /\ (forall q, AudioBuffer.getChannelData ramp 1 0 = Finite q ->
                  (q == -1)%Q -> v = -32767).
Proof.
  apply (samples_lie_in_symmetric_range ramp 0 1); reflexivity.
Defined.

End WavFacts.

(** * Properties of the voice engine *)

Module EngineFacts.
Import Engine Sessions.
Local Open Scope Q_scope.

Lemma set_audio_id w : set_audio (audio w) w = w.
Proof. by destruct w. Qed.

Lemma try_stop legacy source w :
  try_catch (call_audio (source_stop legacy source 0)) (fun _ => ret tt) w
  = Return tt (set_audio (stopped legacy (audio w) source) w).
Proof.
  unfold try_catch, call_audio, stopped.
  destruct (source_stop legacy source 0 (audio w)); [| done].
  cbn. by rewrite set_audio_id.
Qed.

Lemma forEach_stop legacy sources : forall w,
  forEach sources (fun source =>
    try_catch (call_audio (source_stop legacy source 0)) (fun _ => ret tt)) w
  = Return tt (set_audio (foldl (stopped legacy) (audio w) sources) w).
Proof.
  induction sources as [| source rest IH]; intros w.
  - cbn. by rewrite set_audio_id.
  - cbn [forEach foldl]. unfold mbind, M_bind, bind at 1.
    rewrite try_stop, IH. by destruct w.
Qed.

Lemma stopAllSources_returns legacy w :
  stopAllSources legacy w
  = Return tt (set_currentPlayingSources []
                 (set_audio (foldl (stopped legacy) (audio w)
                               (currentPlayingSources w)) w)).
Proof.
  unfold stopAllSources, mbind, M_bind, bind, get.
  rewrite forEach_stop. done.
Qed.

Lemma stopped_cases legacy g source :
  stopped legacy g source = g
  \/ stopped legacy g source = update source (on_source (with_stopTime 0)) g.
Proof.
  unfold stopped, source_stop.
  destruct (source_at g source) as [s |]; [| by left].
  destruct (startTime s); [| by left].
  destruct (legacy && finished s); [by left |].
  destruct (Qlt_le_dec 0 0); [by left | by right].
Qed.

Lemma stopped_length legacy g source :
  length (nodes (stopped legacy g source)) = length (nodes g).
Proof.
  destruct (stopped_cases legacy g source) as [-> | ->]; [done |].
  apply length_alter.
Qed.

Lemma stopped_edges legacy g source :
  edges (stopped legacy g source) = edges g.
Proof. by destruct (stopped_cases legacy g source) as [-> | ->]. Qed.

(** A legacy host refuses to stop a finished source: it stays as it is. *)
Lemma stopped_finished g source id s :
  source_at g id = Some s -> finished s = true ->
  source_at (stopped true g source) id = Some s.
Proof.
  intros Hs Hf. unfold stopped, source_stop.
  destruct (source_at g source) as [s' |] eqn:Hs'; [| done].
  destruct (startTime s'); [| done].
  destruct (decide (source = id)) as [-> | Hne].
  - rewrite Hs in Hs'. injection Hs' as <-. rewrite Hf. done.
  - destruct (true && finished s'); [done |].
    destruct (Qlt_le_dec 0 0); [done |].
    unfold source_at, update in *. cbn [nodes].
    by rewrite list_lookup_alter_ne.
Qed.

Lemma foldl_stopped_length legacy sources : forall g,
  length (nodes (foldl (stopped legacy) g sources)) = length (nodes g).
Proof.
  induction sources as [| x rest IH]; intros g; [done |].
  cbn [foldl]. by rewrite IH, stopped_length.
Qed.

Lemma foldl_stopped_edges legacy sources : forall g,
  edges (foldl (stopped legacy) g sources) = edges g.
Proof.
  induction sources as [| x rest IH]; intros g; [done |].
  cbn [foldl]. by rewrite IH, stopped_edges.
Qed.

Lemma foldl_stopped_finished sources id s : forall g,
  source_at g id = Some s -> finished s = true ->
  source_at (foldl (stopped true) g sources) id = Some s.
Proof.
  induction sources as [| x rest IH]; intros g Hs Hf; [done |].
  cbn [foldl]. apply IH; [| done]. by apply stopped_finished.
Qed.

(** C6.  [stopAllSources] returns normally from every state, on every
    host, and leaves the active set empty; called again, or called on an
    empty set, it returns normally and changes nothing.  On a host whose
    [stop] raises for a source that has already ended, that exception is
    swallowed and the source is left as it was. *)
Theorem stop_never_raises (legacy : bool) (w : World) :
  exists w1,
    stopAllSources legacy w = Return tt w1
    /\ currentPlayingSources w1 = []
    /\ stopAllSources legacy w1 = Return tt w1
    /\ (currentPlayingSources w = [] -> w1 = w)
    /\ (forall id s,
          source_at (audio w) id = Some s ->
          is_Some (startTime s) -> finished s = true -> legacy = true ->
          (exists error, call_audio (source_stop legacy id 0) w = Throw error w)
          /\ source_at (audio w1) id = Some s).
Proof.
  eexists. split; [apply stopAllSources_returns |].
  split; [done |].
  split; [by rewrite stopAllSources_returns |].
  split.
  - intros E. destruct w. cbn in *. by subst.
  - intros id s Hs [t Ht] Hf ->. split.
    + exists "InvalidStateError"%string.
      unfold call_audio, source_stop. by rewrite Hs, Ht, Hf.
    + cbn [audio set_currentPlayingSources set_audio].
      by apply foldl_stopped_finished.
Qed.

(** The same on a legacy host with an ended voice still in the set: its
    [stop] raises, the active set is emptied all the same, and the voice is
    left as it was. *)
Example stop_with_an_ended_voice :
  let w := ended_voice_in_the_set in
  call_audio (source_stop true 0%nat 0) w = Throw "InvalidStateError" w
  /\ stopAllSources true w = Return tt (set_currentPlayingSources [] w).
Proof. split; reflexivity. Qed.

(** C9.  Without a recording, play and render-to-file return at once and
    leave the whole state as it was: no node, no timer, no draw, no
    download, no change of the page. *)
Theorem no_recording_no_effect (random : nat -> Q) (legacy : bool)
    (startRendering : OfflineContext -> option (N -> N -> JS.number))
    (w : World) :
  recordedBuffer w = None ->
  playGibberingEffect random legacy w = Return tt w
  /\ downloadEffect random legacy startRendering w = Return tt w.
Proof.
  intros H. unfold playGibberingEffect, downloadEffect, mbind, M_bind, bind, get.
  rewrite H. done.
Qed.

Lemma no_recording_no_effect_witness :
  recordedBuffer (after_recording None CONFIG_initial) = None
  /\ playGibberingEffect always_half false (after_recording None CONFIG_initial)
     = Return tt (after_recording None CONFIG_initial)
  /\ downloadEffect always_half false silent_render
       (after_recording None CONFIG_initial)
     = Return tt (after_recording None CONFIG_initial).
Proof.
  split; [reflexivity |].
  exact (no_recording_no_effect always_half false silent_render
           (after_recording None CONFIG_initial) eq_refl).
Defined.

(** *** Nodes at the end of the graph *)

Lemma alter_last {A} (f : A -> A) l x :
  alter f (length l) (l ++ [x]) = l ++ [f x].
Proof. rewrite <- (Nat.add_0_r (length l)). by rewrite alter_app_r. Qed.

Lemma alter_before_last {A} (f : A -> A) l x y :
  alter f (length l) ((l ++ [x]) ++ [y]) = (l ++ [f x]) ++ [y].
Proof.
  rewrite alter_app_l by (rewrite length_app; simpl; lia).
  by rewrite alter_last.
Qed.

Lemma lookup_last {A} (l : list A) x : (l ++ [x]) !! length l = Some x.
Proof. by rewrite list_lookup_middle. Qed.

Lemma lookup_before_last {A} (l : list A) x y :
  ((l ++ [x]) ++ [y]) !! length l = Some x.
Proof.
  rewrite lookup_app_l by (rewrite length_app; simpl; lia).
  apply lookup_last.
Qed.

Lemma lookup_after_last {A} (l : list A) x y :
  ((l ++ [x]) ++ [y]) !! S (length l) = Some y.
Proof.
  replace (S (length l)) with (length (l ++ [x])) by (rewrite length_app; simpl; lia).
  apply lookup_last.
Qed.

Lemma length_snoc {A} (l : list A) x : length (l ++ [x]) = S (length l).
Proof. rewrite length_app. simpl. lia. Qed.

Ltac graph_simpl :=
  repeat first
    [ rewrite alter_last
    | rewrite alter_before_last
    | rewrite length_snoc
    | rewrite lookup_before_last
    | rewrite lookup_after_last
    | rewrite lookup_last ].

Lemma Qdiv_1000_nonneg q : 0 <= q -> 0 <= q / 1000.
Proof. intros H. apply Qle_shift_div_l; [done | lra]. Qed.

Lemma alter_after_last {A} (f : A -> A) l x y :
  alter f (S (length l)) ((l ++ [x]) ++ [y]) = (l ++ [x]) ++ [f y].
Proof. rewrite <- (length_snoc l x). apply alter_last. Qed.

Ltac engine_unfold :=
  unfold mbind, M_bind, bind, get, createNode, on_audio, modify,
    Math_random, currentTime, call_audio, call, throw, mret, M_ret, ret,
    source_start, source_stop, source_at, update, connect, create.

Ltac engine_step :=
  cbn -[Qplus Qmult Qminus Qdiv Qlt_le_dec];
  repeat first
    [ rewrite alter_last
    | rewrite alter_before_last
    | rewrite alter_after_last
    | rewrite length_snoc
    | rewrite lookup_before_last
    | rewrite lookup_after_last
    | rewrite lookup_last ].

Lemma stop_of_nonneg cfg start :
  0 <= EFFECT_DURATION_MS cfg -> 0 <= start -> 0 <= stop_of cfg start.
Proof.
  intros Hd Hs. apply BinaryFacts.add_nonneg; [done |].
  by apply BinaryFacts.div_nonneg.
Qed.

Lemma createVoice_continuous random legacy dry wet w :
  0 <= clock w ->
  createVoice random legacy dry wet true w
  = Return tt
      (set_currentPlayingSources
         (currentPlayingSources w ++ [length (nodes (audio w))])
         (set_draws (S (S (draws w)))
            (set_audio
               (with_voice (audio w)
                  {| buffer := recordedBuffer w;
                     playbackRate :=
                       Binary.fround (pitch_of (CONFIG w) (random (draws w)));
                     loop := true;
                     startTime := Some (Binary.double (clock w / 1000));
                     stopTime := None;
                     finished := false |}
                  (Binary.fround (gain_of (CONFIG w) (random (S (draws w)))))
                  dry wet)
               w))).
Proof.
  intros Hclk.
  destruct w as [cfg rb cps [ns es] rate clk tms d pg dl]. cbn in Hclk.
  unfold createVoice. engine_unfold. do 3 engine_step.
  destruct (Qlt_le_dec (Binary.double (clk / 1000)) 0) as [Hneg | _];
    [pose proof (BinaryFacts.double_nonneg _ (Qdiv_1000_nonneg clk Hclk)); lra |].
  do 3 engine_step.
  unfold with_voice, pitch_of, gain_of, stop_of. cbn [nodes edges].
  by rewrite <- !app_assoc.
Qed.

Lemma createVoice_timed random legacy dry wet w :
  0 <= clock w -> 0 <= EFFECT_DURATION_MS (CONFIG w) ->
  createVoice random legacy dry wet false w
  = Return tt
      (set_currentPlayingSources
         (currentPlayingSources w ++ [length (nodes (audio w))])
         (set_draws (S (S (S (draws w))))
            (set_audio
               (with_voice (audio w)
                  {| buffer := recordedBuffer w;
                     playbackRate :=
                       Binary.fround (pitch_of (CONFIG w) (random (draws w)));
                     loop := loops (CONFIG w) (random (S (draws w)));
                     startTime := Some (Binary.double (clock w / 1000));
                     stopTime :=
                       Some (stop_of (CONFIG w) (Binary.double (clock w / 1000)));
                     finished := false |}
                  (Binary.fround (gain_of (CONFIG w) (random (S (S (draws w))))))
                  dry wet)
               w))).
Proof.
  intros Hclk Hdur.
  destruct w as [cfg rb cps [ns es] rate clk tms d pg dl]. cbn in Hclk, Hdur.
  pose proof (BinaryFacts.double_nonneg _ (Qdiv_1000_nonneg _ Hclk)) as Hc.
  pose proof (stop_of_nonneg cfg _ Hdur Hc) as Hd. unfold stop_of in Hd.
  cbn [EFFECT_DURATION_MS] in Hd.
  unfold createVoice, loops. engine_unfold. do 2 engine_step.
  destruct (Qlt_le_dec (random (S d)) (LOOP_PROBABILITY cfg)).
  - do 3 engine_step.
    destruct (Qlt_le_dec (Binary.double (clk / 1000)) 0) as [Hneg | _]; [lra |].
    do 3 engine_step. rewrite andb_false_r.
    destruct (Qlt_le_dec _ 0) as [Hneg | _]; [lra |].
    do 3 engine_step.
    unfold with_voice, pitch_of, gain_of, stop_of. cbn [nodes edges].
    by rewrite <- !app_assoc.
  - do 3 engine_step.
    destruct (Qlt_le_dec (Binary.double (clk / 1000)) 0) as [Hneg | _]; [lra |].
    do 3 engine_step. rewrite andb_false_r.
    destruct (Qlt_le_dec _ 0) as [Hneg | _]; [lra |].
    do 3 engine_step.
    unfold with_voice, pitch_of, gain_of, stop_of. cbn [nodes edges].
    by rewrite <- !app_assoc.
Qed.

Lemma createOfflineVoice_returns random legacy context dry wet delay w :
  0 <= delay -> 0 <= EFFECT_DURATION_MS (CONFIG w) ->
  createOfflineVoice random legacy context dry wet delay w
  = Return
      (on_graph (fun _ =>
         with_voice (graph context)
           {| buffer := recordedBuffer w;
              playbackRate :=
                Binary.fround (pitch_of (CONFIG w) (random (draws w)));
              loop := loops (CONFIG w) (random (S (draws w)));
              startTime := Some delay;
              stopTime := Some (stop_of (CONFIG w) delay);
              finished := false |}
           (Binary.fround (gain_of (CONFIG w) (random (S (S (draws w))))))
           dry wet) context)
      (set_draws (S (S (S (draws w)))) w).
Proof.
  intros Hdelay Hdur.
  destruct w as [cfg rb cps g rate clk tms d pg dl]. cbn in Hdur.
  destruct context as [cc fc rr [ns es]].
  pose proof (stop_of_nonneg cfg _ Hdur Hdelay) as Hd. unfold stop_of in Hd.
  cbn [EFFECT_DURATION_MS] in Hd.
  unfold createOfflineVoice, loops. engine_unfold. do 2 engine_step.
  destruct (Qlt_le_dec (random (S d)) (LOOP_PROBABILITY cfg)).
  - do 3 engine_step.
    destruct (Qlt_le_dec delay 0) as [Hneg | _]; [lra |].
    do 3 engine_step. rewrite andb_false_r.
    destruct (Qlt_le_dec _ 0) as [Hneg | _]; [lra |].
    do 3 engine_step.
    unfold on_graph, with_voice, pitch_of, gain_of, stop_of. cbn [nodes edges graph].
    by rewrite <- !app_assoc.
  - do 3 engine_step.
    destruct (Qlt_le_dec delay 0) as [Hneg | _]; [lra |].
    do 3 engine_step. rewrite andb_false_r.
    destruct (Qlt_le_dec _ 0) as [Hneg | _]; [lra |].
    do 3 engine_step.
    unfold on_graph, with_voice, pitch_of, gain_of, stop_of. cbn [nodes edges graph].
    by rewrite <- !app_assoc.
Qed.

Lemma spawn_loop random dry wet cfg count : forall w,
  repeatM count
    (u ← Math_random random;
     setTimeout dry wet (u * STAGGER_MAX_MS cfg / 1000 * 1000)) w
  = Return tt
      (set_timers
         (timers w ++ spawn_timers random cfg (clock w) (draws w) dry wet count)
         (set_draws (draws w + count) w)).
Proof.
  induction count as [| n IH]; intros w.
  - cbn. unfold spawn_timers. cbn. rewrite app_nil_r, Nat.add_0_r. by destruct w.
  - cbn [repeatM]. unfold mbind at 1, M_bind at 1, bind at 1.
    unfold mbind at 1, M_bind at 1, bind at 1, Math_random, setTimeout, modify.
    rewrite IH. destruct w as [cfg' rb cps g rate clk tms d pg dl].
    unfold set_timers, set_draws.
    cbn [timers draws clock CONFIG recordedBuffer
         currentPlayingSources audio contextRate page downloads].
    f_equal. f_equal; [| lia].
    rewrite <- app_assoc. f_equal. unfold spawn_timers.
    cbn [seq fmap list_fmap app]. rewrite Nat.add_0_r. f_equal.
    rewrite <- fmap_S_seq, <- list_fmap_compose.
    apply list_fmap_ext. intros i k _. cbn. by rewrite Nat.add_succ_r.
Qed.

Lemma playGibberingEffect_returns random legacy w recorded :
  recordedBuffer w = Some recorded ->
  let g := foldl (stopped legacy) (audio w) (currentPlayingSources w) in
  let dryGain := length (nodes (audio w)) in
  let wetGain := S dryGain in
  let count := Z.to_nat (VOICE_COUNT (CONFIG w)) in
  playGibberingEffect random legacy w
  = Return tt
      {| CONFIG := CONFIG w;
         recordedBuffer := recordedBuffer w;
         currentPlayingSources := [];
         audio :=
           {| nodes :=
                nodes g
                ++ [GainNode (Binary.fround (Number.sub 1 (REVERB_WET_MIX (CONFIG w))));
                    GainNode (Binary.fround (REVERB_WET_MIX (CONFIG w)))];
              edges := edges (audio w) ++ [(Node dryGain, Destination);
                                           (Node wetGain, Reverb);
                                           (Reverb, Destination)] |};
         contextRate := contextRate w;
         clock := clock w;
         timers := timers w
                   ++ spawn_timers random (CONFIG w) (clock w) (draws w)
                        dryGain wetGain count;
         draws := draws w + count;
         page := with_downloadButtonDisabled false
                   (with_stopButtonShown true
                      (with_playButtonShown false
                         (with_status "Playing gibbering effect..." false (page w))));
         downloads := downloads w |}.
Proof.
  intros Hrec g dryGain wetGain count.
  unfold playGibberingEffect.
  unfold mbind at 1, M_bind at 1, bind at 1, get at 1. rewrite Hrec.
  unfold mbind at 1, M_bind at 1, bind at 1. rewrite stopAllSources_returns.
  fold g.
  assert (Hlen : length (nodes g) = dryGain) by apply foldl_stopped_length.
  assert (Hedges : edges g = edges (audio w)) by apply foldl_stopped_edges.
  destruct w as [cfg rb cps g0 rate clk tms d pg dl].
  cbn [CONFIG recordedBuffer currentPlayingSources audio contextRate clock
       timers draws page downloads] in *.
  destruct g as [ns es]. cbn [nodes edges] in Hlen, Hedges. subst es.
  pose proof (spawn_loop random) as Hloop.
  unfold updateStatus, on_page, setTimeout in *. engine_unfold.
  unfold mbind, M_bind, bind, Math_random, modify in Hloop.
  cbn -[Qplus Qmult Qminus Qdiv Qlt_le_dec repeatM].
  rewrite Hloop. clear Hloop.
  cbn -[Qplus Qmult Qminus Qdiv Qlt_le_dec].
  subst dryGain wetGain count. rewrite !length_snoc, <- !Hlen.
  repeat first [rewrite alter_before_last | rewrite alter_after_last].
  cbn -[Qplus Qmult Qminus Qdiv Qlt_le_dec].
  subst rb. by rewrite <- !app_assoc.
Qed.

Lemma source_at_with_voice g s gainValue dry wet :
  source_at (with_voice g s gainValue dry wet) (length (nodes g)) = Some s.
Proof.
  unfold source_at, with_voice. cbn [nodes].
  by rewrite list_lookup_middle.
Qed.

(** The two constants of the error bounds, as fractions. *)
Lemma pow2_minus_54 : 2 ^ (-54) == 1 # 18014398509481984.
Proof. reflexivity. Qed.

Lemma pow2_minus_25 : 2 ^ (-25) == 1 # 33554432.
Proof. reflexivity. Qed.

Lemma pow2_minus_53 : 2 ^ (-53) == 1 # 9007199254740992.
Proof. reflexivity. Qed.

(** What the two buses of a mix in [0, 1] hold adds up to 1 within
    [2 ^ -23]. *)
Lemma mix_gains_error mix :
  0 <= mix <= 1 ->
  let dry := Binary.fround (Number.sub 1 mix) in
  let wet := Binary.fround mix in
  1 - (1 # 8388608) <= dry + wet <= 1 + (1 # 8388608).
Proof.
  intros Hmix. cbn zeta. unfold Number.sub.
  assert (Hd : 0 <= 1 - mix <= 1) by lra.
  destruct (BinaryFacts.double_error_unit _ Hd) as [D1 D2].
  assert (Hr : 0 <= Binary.double (1 - mix) <= 1).
  { apply BinaryFacts.double_between; [reflexivity | | done].
    apply (BinaryFacts.round_1 53 (-1074)); done. }
  destruct (BinaryFacts.fround_error_unit _ Hr) as [F1 F2].
  destruct (BinaryFacts.fround_error_unit _ Hmix) as [W1 W2].
  rewrite pow2_minus_54 in D1, D2. rewrite pow2_minus_25 in F1, F2, W1, W2.
  lra.
Qed.

(** The doubles the two buses are given add up to 1 within [2 ^ -54]. *)
Lemma mix_doubles_error mix :
  0 <= mix <= 1 ->
  1 - (1 # 18014398509481984) <= Number.sub 1 mix + mix
  <= 1 + (1 # 18014398509481984).
Proof.
  intros Hmix. unfold Number.sub.
  assert (Hd : 0 <= 1 - mix <= 1) by lra.
  destruct (BinaryFacts.double_error_unit _ Hd) as [D1 D2].
  rewrite pow2_minus_54 in D1, D2. lra.
Qed.

(** When the mix and its complement are binary32 values, the buses hold
    them as they are. *)
Lemma mix_gains_exact mix :
  Binary.fround mix == mix -> Binary.fround (1 - mix) == 1 - mix ->
  Binary.fround (Number.sub 1 mix) + Binary.fround mix == 1.
Proof.
  intros Hw Hd. unfold Number.sub.
  rewrite (BinaryFacts.fround_comp _ _ (BinaryFacts.fround_is_double _ Hd)).
  rewrite Hw, Hd. ring.
Qed.

(** C4, as the code has it.  Play sets the gain of its dry bus to
    [1 - REVERB_WET_MIX], computed on doubles, and the gain of its wet bus
    to [REVERB_WET_MIX]; each gain node holds the binary32 nearest to the
    double it is given.  For a mix in [0, 1] the two doubles given add up
    to 1 within [2 ^ -54] and the two values held within [2 ^ -23]; the
    values held add up to exactly 1 when the mix and [1 - mix] are binary32
    values.  The dry bus feeds the sink, the wet bus feeds the reverb, the
    reverb feeds the sink. *)
Theorem dry_and_wet_gains_sum_to_one_within_rounding (random : nat -> Q)
    (legacy : bool) (w : World) (recorded : AudioBuffer.t) :
  recordedBuffer w = Some recorded ->
  let mix := REVERB_WET_MIX (CONFIG w) in
  let dryGain := length (nodes (audio w)) in
  let wetGain := S dryGain in
  0 <= mix <= 1 ->
  exists w' dry wet,
    playGibberingEffect random legacy w = Return tt w'
    /\ gain_at (audio w') dryGain = Some dry
    /\ gain_at (audio w') wetGain = Some wet
    /\ dry = Binary.fround (Number.sub 1 mix)
    /\ wet = Binary.fround mix
    /\ 1 - (1 # 18014398509481984) <= Number.sub 1 mix + mix
       <= 1 + (1 # 18014398509481984)
    /\ 1 - (1 # 8388608) <= dry + wet <= 1 + (1 # 8388608)
    /\ (Binary.fround mix == mix -> Binary.fround (1 - mix) == 1 - mix ->
        dry + wet == 1)
    /\ (Node dryGain, Destination) ∈ edges (audio w')
    /\ (Node wetGain, Reverb) ∈ edges (audio w')
    /\ (Reverb, Destination) ∈ edges (audio w').
Proof.
  intros Hrec mix dryGain wetGain Hmix.
  eexists _, (Binary.fround (Number.sub 1 mix)), (Binary.fround mix).
  split; [by apply (playGibberingEffect_returns random legacy w recorded) |].
  cbn [audio nodes edges].
  pose proof (foldl_stopped_length legacy (currentPlayingSources w) (audio w)) as Hlen.
  subst mix dryGain wetGain.
  set (mix := REVERB_WET_MIX (CONFIG w)) in *.
  set (dryGain := length (nodes (audio w))) in *.
  set (wetGain := S dryGain) in *.
  set (dry := Binary.fround (Number.sub 1 mix)).
  set (wet := Binary.fround mix).
  assert (Hdry : forall l : list node, length l = dryGain ->
            (l ++ [GainNode dry; GainNode wet]) !! dryGain = Some (GainNode dry)).
  { intros l <-. by rewrite list_lookup_middle. }
  assert (Hwet : forall l : list node, length l = dryGain ->
            (l ++ [GainNode dry; GainNode wet]) !! wetGain = Some (GainNode wet)).
  { intros l <-. change [GainNode dry; GainNode wet]
      with ([GainNode dry] ++ [GainNode wet]).
    rewrite app_assoc. apply lookup_after_last. }
  unfold gain_at. cbn [nodes]. rewrite (Hdry _ Hlen), (Hwet _ Hlen).
  split; [reflexivity |]. split; [reflexivity |].
  split; [reflexivity |]. split; [reflexivity |].
  split; [by apply mix_doubles_error |].
  split; [by apply mix_gains_error |].
  split; [by apply mix_gains_exact |].
  repeat split; apply elem_of_app; right;
    repeat first [apply list_elem_of_here | apply list_elem_of_further].
Qed.

Lemma dry_and_wet_gains_sum_to_one_within_rounding_witness :
  let w := after_recording (Some one_second) CONFIG_initial in
  let mix := Binary.double (5 # 10) in
  recordedBuffer w = Some one_second
  /\ 0 <= mix <= 1
  /\ exists w' dry wet,
       playGibberingEffect always_half false w = Return tt w'
       /\ gain_at (audio w') 0%nat = Some dry
       /\ gain_at (audio w') 1%nat = Some wet
       /\ dry = Binary.fround (Number.sub 1 mix)
       /\ wet = Binary.fround mix
       /\ 1 - (1 # 18014398509481984) <= Number.sub 1 mix + mix
          <= 1 + (1 # 18014398509481984)
       /\ 1 - (1 # 8388608) <= dry + wet <= 1 + (1 # 8388608)
       /\ (Binary.fround mix == mix -> Binary.fround (1 - mix) == 1 - mix ->
           dry + wet == 1)
       /\ (Node 0%nat, Destination) ∈ edges (audio w')
       /\ (Node 1%nat, Reverb) ∈ edges (audio w')
       /\ (Reverb, Destination) ∈ edges (audio w').
Proof.
  split; [reflexivity |].
  assert (H : 0 <= Binary.double (5 # 10) <= 1) by (split; vm_compute; discriminate).
  split; [exact H |].
  exact (dry_and_wet_gains_sum_to_one_within_rounding always_half false
           (after_recording (Some one_second) CONFIG_initial) one_second eq_refl H).
Defined.

(** C4 as stated fails: with a mix of 0.1 the dry bus holds
    [7549747 / 2^23] and the wet bus [13421773 / 2^27]; they add up to
    [134217725 / 134217728], and neither bus holds what the claim says.
    The doubles the buses are given do not add up to 1 either. *)
Lemma gains_fall_short_at_one_tenth :
  let w := after_recording (Some one_second) one_tenth_wet in
  let mix := REVERB_WET_MIX (CONFIG w) in
  0 <= mix <= 1
  /\ exists w' dry wet,
       playGibberingEffect always_half false w = Return tt w'
       /\ gain_at (audio w') 0%nat = Some dry
       /\ gain_at (audio w') 1%nat = Some wet
       /\ dry == 7549747 # 8388608
       /\ wet == 13421773 # 134217728
       /\ dry + wet == 134217725 # 134217728
       /\ ~ dry + wet == 1
       /\ ~ dry == 1 - mix
       /\ ~ wet == mix
       /\ ~ Number.sub 1 mix + mix == 1.
Proof.
  cbn zeta. split; [split; vm_compute; discriminate |].
  eexists _, _, _.
  split; [by apply (playGibberingEffect_returns _ _ _ one_second) |].
  split; [reflexivity |]. split; [reflexivity |].
  repeat split; vm_compute; congruence.
Qed.

(** The double a voice assigns to its playback rate lies between the
    bounds, for bounds and a draw that are doubles. *)
Lemma pitch_of_bounds cfg u :
  Binary.double (PITCH_MIN cfg) == PITCH_MIN cfg ->
  Binary.double (PITCH_MAX cfg) == PITCH_MAX cfg ->
  Binary.double u == u ->
  0 <= u < 1 -> PITCH_MIN cfg <= PITCH_MAX cfg ->
  PITCH_MIN cfg <= pitch_of cfg u <= PITCH_MAX cfg.
Proof. intros. by apply BinaryFacts.interpolation_on_doubles. Qed.

Lemma pitch_of_equal_bounds cfg u :
  Binary.double (PITCH_MIN cfg) == PITCH_MIN cfg ->
  PITCH_MIN cfg == PITCH_MAX cfg -> pitch_of cfg u == PITCH_MIN cfg.
Proof. intros. by apply BinaryFacts.interpolation_on_equal_doubles. Qed.

(** C5, as the code has it.  For a configuration within the range of the
    audio parameters, bounds [PITCH_MIN <= PITCH_MAX] that are doubles and a
    draw that is a double in [0, 1), the double [PITCH_MIN + u * (PITCH_MAX - PITCH_MIN)] a voice
    assigns to its playback rate, live or offline, lies in
    [PITCH_MIN, PITCH_MAX], and with equal bounds it is that common value
    whatever the draw.  The node holds the binary32 nearest to that double:
    it lies between the binary32 values nearest to the bounds. *)
Theorem pitch_stays_within_rounded_bounds (random : nat -> Q) (legacy : bool)
    (w : World) (dryGain wetGain : nat) (continuous : bool)
    (context : OfflineContext) (delay : Q) :
  let lo := PITCH_MIN (CONFIG w) in
  let hi := PITCH_MAX (CONFIG w) in
  let u := random (draws w) in
  0 <= clock w -> 0 <= EFFECT_DURATION_MS (CONFIG w) -> 0 <= delay ->
  params_in_range (CONFIG w) ->
  Binary.double lo == lo -> Binary.double hi == hi -> Binary.double u == u ->
  0 <= u < 1 ->
  lo <= hi ->
  let pitch := Number.add lo (Number.mul u (Number.sub hi lo)) in
  (exists w' s,
      createVoice random legacy dryGain wetGain continuous w = Return tt w'
      /\ source_at (audio w') (length (nodes (audio w))) = Some s
      /\ playbackRate s = Binary.fround pitch)
  /\ (exists context' w' s,
        createOfflineVoice random legacy context dryGain wetGain delay w
        = Return context' w'
        /\ source_at (graph context') (length (nodes (graph context))) = Some s
        /\ playbackRate s = Binary.fround pitch)
  /\ lo <= pitch <= hi
  /\ Binary.fround lo <= Binary.fround pitch <= Binary.fround hi
  /\ (lo == hi ->
      forall u', Number.add lo (Number.mul u' (Number.sub hi lo)) == lo).
Proof.
  intros lo hi u Hclk Hdur Hdelay _ Hlo Hhi Hdraw Hu Hle pitch.
  assert (Hin : lo <= pitch <= hi) by (by apply pitch_of_bounds).
  split; [| split; [| split; [| split]]].
  - destruct continuous.
    + eexists _, _. split; [by apply createVoice_continuous |].
      cbn [audio]. split; [apply source_at_with_voice | done].
    + eexists _, _. split; [by apply createVoice_timed |].
      cbn [audio]. split; [apply source_at_with_voice | done].
  - eexists _, _, _. split; [by apply createOfflineVoice_returns |].
    unfold on_graph. cbn [graph]. split; [apply source_at_with_voice | done].
  - done.
  - split; apply BinaryFacts.fround_mono; apply Hin.
  - intros Heq u'. by apply pitch_of_equal_bounds.
Qed.

Lemma pitch_stays_within_rounded_bounds_witness :
  let w := after_recording (Some one_second) CONFIG_initial in
  let context := {| channelCount := 2; frameCount := 661500;
                    renderRate := 44100; graph := empty_graph |} in
  let lo := Binary.double (2 # 10) in
  let hi := Binary.double (15 # 10) in
  let pitch := Number.add lo (Number.mul (1 # 2) (Number.sub hi lo)) in
  (exists w' s,
      createVoice always_half false 0%nat 1%nat true w = Return tt w'
      /\ source_at (audio w') 0%nat = Some s
      /\ playbackRate s = Binary.fround pitch)
  /\ (exists context' w' s,
        createOfflineVoice always_half false context 0%nat 1%nat (4 # 10) w
        = Return context' w'
        /\ source_at (graph context') 0%nat = Some s
        /\ playbackRate s = Binary.fround pitch)
  /\ lo <= pitch <= hi
  /\ Binary.fround lo <= Binary.fround pitch <= Binary.fround hi
  /\ (lo == hi ->
      forall u', Number.add lo (Number.mul u' (Number.sub hi lo)) == lo).
Proof.
  apply (pitch_stays_within_rounded_bounds always_half false
           (after_recording (Some one_second) CONFIG_initial) 0%nat 1%nat true
           {| channelCount := 2; frameCount := 661500;
              renderRate := 44100; graph := empty_graph |} (4 # 10));
    try (vm_compute; congruence); repeat split; vm_compute; congruence.
Defined.

(** C5 as stated fails: with both bounds at 0.7 the playback rate of a
    voice is 0.699999988079071044921875, below [PITCH_MIN] and not the
    common value of the bounds. *)
Lemma pitch_falls_below_equal_bounds :
  let w := after_recording (Some one_second) pitch_fixed_at_seven_tenths in
  PITCH_MIN (CONFIG w) <= PITCH_MAX (CONFIG w)
  /\ 0 <= always_half (draws w) < 1
  /\ exists w' s,
       createVoice always_half false 0%nat 1%nat true w = Return tt w'
       /\ source_at (audio w') 0%nat = Some s
       /\ playbackRate s == 11744051 # 16777216
       /\ playbackRate s < PITCH_MIN (CONFIG w)
       /\ ~ playbackRate s == PITCH_MIN (CONFIG w).
Proof.
  cbn zeta. split; [vm_compute; discriminate |].
  split; [split; vm_compute; congruence |].
  eexists _, _. split; [apply createVoice_continuous; vm_compute; discriminate |].
  split; [apply source_at_with_voice |].
  repeat split; vm_compute; congruence.
Qed.

(** The stop time of a timed voice is the exact time
    [start + EFFECT_DURATION_MS / 1000] within one part in [2 ^ 51], for
    a duration of a millisecond or more. *)
Lemma stop_of_error cfg start :
  0 <= start -> 1 <= EFFECT_DURATION_MS cfg ->
  let exact := start + EFFECT_DURATION_MS cfg / 1000 in
  exact - exact * (1 # 2251799813685248) <= stop_of cfg start
  /\ stop_of cfg start <= exact + exact * (1 # 2251799813685248).
Proof.
  intros Hs Hd. cbn zeta. unfold stop_of, Number.add, Number.div.
  set (t := EFFECT_DURATION_MS cfg / 1000).
  assert (Ht : 1 # 1000 <= t).
  { unfold t. apply Qle_shift_div_l; lra. }
  assert (Hsmall : 2 ^ (-1022) <= 1 # 2000) by (vm_compute; discriminate).
  destruct (BinaryFacts.double_error_relative t ltac:(lra)) as [A1 A2].
  rewrite pow2_minus_53 in A1, A2.
  set (a := Binary.double t) in *.
  destruct (BinaryFacts.double_error_relative (start + a) ltac:(lra)) as [B1 B2].
  rewrite pow2_minus_53 in B1, B2.
  set (stop := Binary.double (start + a)) in *.
  clearbody stop a t. split; lra.
Qed.

(** A voice that starts at a double is not stopped before it starts. *)
Lemma stop_of_after_start cfg start :
  Binary.double start == start -> 0 <= EFFECT_DURATION_MS cfg ->
  start <= stop_of cfg start.
Proof.
  intros Hs Hd. unfold stop_of, Number.add.
  pose proof (BinaryFacts.div_nonneg _ 1000 Hd ltac:(lra)) as Ha.
  rewrite <- Hs at 1. apply BinaryFacts.double_mono. lra.
Qed.

(** C7, as the code has it.  A voice spawned in continuous mode loops and
    has no stop time.  A voice spawned in timed mode, live or offline,
    has a stop time: the double nearest to its start time plus
    [EFFECT_DURATION_MS / 1000], that quotient being a double too.  For a
    configuration within the range of the audio parameters, a duration
    between a millisecond and [2 ^ 53] ms, a clock that has not passed
    [2 ^ 53] ms and an offline delay that is a double of at most [2 ^ 53] s,
    the stop time is not before the start time, and it is
    [EFFECT_DURATION_MS] milliseconds after it within one part in [2 ^ 51]
    of the stop time.  A live voice starts at the clock's time in seconds,
    an offline one at its delay. *)
Theorem stop_time_is_the_rounded_sum (random : nat -> Q) (legacy : bool)
    (w : World) (dryGain wetGain : nat) (context : OfflineContext) (delay : Q) :
  let duration := EFFECT_DURATION_MS (CONFIG w) in
  params_in_range (CONFIG w) ->
  0 <= clock w <= 2 ^ 53 -> 1 <= duration <= 2 ^ 53 -> 0 <= delay <= 2 ^ 53 ->
  Binary.double delay == delay ->
  (exists w' s,
      createVoice random legacy dryGain wetGain true w = Return tt w'
      /\ source_at (audio w') (length (nodes (audio w))) = Some s
      /\ length (nodes (audio w)) ∈ currentPlayingSources w'
      /\ loop s = true
      /\ is_Some (startTime s)
      /\ stopTime s = None)
  /\ (exists w' s start stop,
        createVoice random legacy dryGain wetGain false w = Return tt w'
        /\ source_at (audio w') (length (nodes (audio w))) = Some s
        /\ length (nodes (audio w)) ∈ currentPlayingSources w'
        /\ startTime s = Some start
        /\ stopTime s = Some stop
        /\ start = Binary.double (clock w / 1000)
        /\ stop = Number.add start (Number.div duration 1000)
        /\ start <= stop
        /\ let exact := start + duration / 1000 in
           exact - exact * (1 # 2251799813685248) <= stop
           /\ stop <= exact + exact * (1 # 2251799813685248))
  /\ (exists context' w' s stop,
        createOfflineVoice random legacy context dryGain wetGain delay w
        = Return context' w'
        /\ source_at (graph context') (length (nodes (graph context))) = Some s
        /\ startTime s = Some delay
        /\ stopTime s = Some stop
        /\ stop = Number.add delay (Number.div duration 1000)
        /\ delay <= stop
        /\ let exact := delay + duration / 1000 in
           exact - exact * (1 # 2251799813685248) <= stop
           /\ stop <= exact + exact * (1 # 2251799813685248)).
Proof.
  intros duration _ [Hclk _] [Hdur _] [Hdelay _] Hdouble.
  assert (Hdur0 : 0 <= duration) by lra.
  pose proof (BinaryFacts.double_nonneg _ (Qdiv_1000_nonneg _ Hclk)) as Hnow.
  destruct (stop_of_error (CONFIG w) _ Hnow Hdur) as (L1 & L2).
  destruct (stop_of_error (CONFIG w) _ Hdelay Hdur) as (O1 & O2).
  split; [| split].
  - eexists _, _. split; [by apply createVoice_continuous |].
    cbn [audio currentPlayingSources set_currentPlayingSources].
    split; [apply source_at_with_voice |].
    split; [apply elem_of_app; right; apply list_elem_of_here |].
    cbn. by eauto.
  - eexists _, _, _, _. split; [by apply createVoice_timed |].
    split; [apply source_at_with_voice |].
    split; [apply elem_of_app; right; apply list_elem_of_here |].
    split; [reflexivity |]. split; [reflexivity |]. split; [reflexivity |].
    split; [reflexivity |].
    split; [apply stop_of_after_start;
            [apply BinaryFacts.double_idempotent | done] |].
    split; [exact L1 | exact L2].
  - eexists _, _, _, _. split; [by apply createOfflineVoice_returns |].
    unfold on_graph. cbn [graph].
    split; [apply source_at_with_voice |].
    split; [reflexivity |]. split; [reflexivity |]. split; [reflexivity |].
    split; [by apply stop_of_after_start |].
    split; [exact O1 | exact O2].
Qed.

Lemma stop_time_is_the_rounded_sum_witness :
  let w := after_recording (Some one_second) CONFIG_initial in
  let context := {| channelCount := 2; frameCount := 661500;
                    renderRate := 44100; graph := empty_graph |} in
  let delay := Binary.double (4 # 10) in
  (exists w' s,
      createVoice always_half false 0%nat 1%nat true w = Return tt w'
      /\ source_at (audio w') 0%nat = Some s
      /\ 0%nat ∈ currentPlayingSources w'
      /\ loop s = true
      /\ is_Some (startTime s)
      /\ stopTime s = None)
  /\ (exists w' s start stop,
        createVoice always_half false 0%nat 1%nat false w = Return tt w'
        /\ source_at (audio w') 0%nat = Some s
        /\ 0%nat ∈ currentPlayingSources w'
        /\ startTime s = Some start
        /\ stopTime s = Some stop
        /\ start = Binary.double (0 / 1000)
        /\ stop = Number.add start (Number.div 15000 1000)
        /\ start <= stop
        /\ let exact := start + 15000 / 1000 in
           exact - exact * (1 # 2251799813685248) <= stop
           /\ stop <= exact + exact * (1 # 2251799813685248))
  /\ (exists context' w' s stop,
        createOfflineVoice always_half false context 0%nat 1%nat delay w
        = Return context' w'
        /\ source_at (graph context') 0%nat = Some s
        /\ startTime s = Some delay
        /\ stopTime s = Some stop
        /\ stop = Number.add delay (Number.div 15000 1000)
        /\ delay <= stop
        /\ let exact := delay + 15000 / 1000 in
           exact - exact * (1 # 2251799813685248) <= stop
           /\ stop <= exact + exact * (1 # 2251799813685248)).
Proof.
  apply (stop_time_is_the_rounded_sum always_half false
           (after_recording (Some one_second) CONFIG_initial) 0%nat 1%nat
           {| channelCount := 2; frameCount := 661500;
              renderRate := 44100; graph := empty_graph |}
           (Binary.double (4 # 10)));
    repeat split; vm_compute; congruence.
Defined.

(** C7 as stated fails: an offline voice that starts at 0.4 s with the
    initial duration of 15000 ms is stopped at the double nearest to 15.4,
    which is not 15 s after its start; and one that starts at 0.0008 s with
    a duration of 1000 ms is stopped less than 1000 ms after its start, also
    when the difference is taken on doubles. *)
Lemma stop_time_is_not_the_duration_later :
  let w := after_recording (Some one_second) CONFIG_initial in
  let context := {| channelCount := 2; frameCount := 661500;
                    renderRate := 44100; graph := empty_graph |} in
  let delay := Binary.double (4 # 10) in
  (0 <= clock w /\ 0 < EFFECT_DURATION_MS (CONFIG w) /\ 0 <= delay)
  /\ (exists context' w' s stop,
        createOfflineVoice always_half false context 0%nat 1%nat delay w
        = Return context' w'
        /\ source_at (graph context') 0%nat = Some s
        /\ startTime s = Some delay
        /\ stopTime s = Some stop
        /\ ~ (stop - delay) * 1000 == EFFECT_DURATION_MS (CONFIG w)
        /\ (stop - delay) * 1000 - 15000 == 375 # 1125899906842624)
  /\ (let start := Binary.double (8 # 10000) in
      let stop := Number.add start (Number.div 1000 1000) in
      Number.mul (Number.sub stop start) 1000 < 1000).
Proof.
  cbn zeta. split; [repeat split; vm_compute; congruence |]. split.
  - eexists _, _, _, _.
    split; [apply createOfflineVoice_returns; vm_compute; discriminate |].
    unfold on_graph. cbn [graph].
    split; [apply source_at_with_voice |].
    split; [reflexivity |]. split; [reflexivity |].
    split; vm_compute; congruence.
  - vm_compute. reflexivity.
Qed.

(** Play leaves the active set empty: the voices come later, from timers. *)
Lemma play_clears_the_active_set random legacy w recorded :
  recordedBuffer w = Some recorded ->
  exists w', playGibberingEffect random legacy w = Return tt w'
             /\ currentPlayingSources w' = [].
Proof.
  intros H. eexists. split; [by apply (playGibberingEffect_returns _ _ _ recorded) |].
  done.
Qed.

(** *** Statements that leave the live graph alone *)

Lemma leaves_audio_ret {A} (a : A) : leaves_audio (ret a).
Proof. by intros w. Qed.

Lemma leaves_audio_throw {A} e : leaves_audio (@throw A e).
Proof. by intros w. Qed.

Lemma leaves_audio_get {A} (f : World -> A) : leaves_audio (get f).
Proof. by intros w. Qed.

Lemma leaves_audio_bind {A B} (m : M A) (k : A -> M B) :
  leaves_audio m -> (forall a, leaves_audio (k a)) -> leaves_audio (bind m k).
Proof.
  intros Hm Hk w. unfold bind. specialize (Hm w).
  destruct (m w) as [a w' | e w']; cbn [world_of] in *; [| done].
  destruct (Hk a w') as [H1 H2]. by rewrite H1, H2.
Qed.

Lemma leaves_audio_try_catch {A} (m : M A) (h : string -> M A) :
  leaves_audio m -> (forall e, leaves_audio (h e)) -> leaves_audio (try_catch m h).
Proof.
  intros Hm Hh w. unfold try_catch. specialize (Hm w).
  destruct (m w) as [a w' | e w']; cbn [world_of] in *; [done |].
  destruct (Hh e w') as [H1 H2]. by rewrite H1, H2.
Qed.

Lemma leaves_audio_try_finally {A} (m : M A) (f : M unit) :
  leaves_audio m -> leaves_audio f -> leaves_audio (try_finally m f).
Proof.
  intros Hm Hf w. unfold try_finally. specialize (Hm w).
  destruct (m w) as [a w' | e w']; cbn [world_of] in *;
    specialize (Hf w'); destruct (f w') as [[] w'' | e' w''];
    cbn [world_of] in *; destruct Hf as [H1 H2]; by rewrite H1, H2.
Qed.

Lemma leaves_audio_modify (f : World -> World) :
  (forall w, audio (f w) = audio w /\ clock (f w) = clock w) ->
  leaves_audio (modify f).
Proof. intros H w. apply H. Qed.

Lemma leaves_audio_on_page f : leaves_audio (on_page f).
Proof. apply leaves_audio_modify. intros w. by destruct w. Qed.

Lemma leaves_audio_random random : leaves_audio (Math_random random).
Proof. intros w. by destruct w. Qed.

Lemma leaves_audio_call {A} (r : string + A) : leaves_audio (call r).
Proof. destruct r; [apply leaves_audio_throw | apply leaves_audio_ret]. Qed.

Lemma leaves_audio_iterateM {A} (body : A -> M A) n :
  (forall a, leaves_audio (body a)) -> forall a, leaves_audio (iterateM n body a).
Proof.
  intros Hb. induction n as [| n IH]; intros a; cbn [iterateM].
  - apply leaves_audio_ret.
  - apply leaves_audio_bind; [apply Hb | apply IH].
Qed.

(** Walk through a statement built from the pieces above. *)
Ltac leaves :=
  repeat first
    [ apply leaves_audio_ret
    | apply leaves_audio_throw
    | apply leaves_audio_get
    | apply leaves_audio_on_page
    | apply leaves_audio_random
    | apply leaves_audio_call
    | apply leaves_audio_try_finally
    | apply leaves_audio_try_catch; [| intros]
    | apply leaves_audio_iterateM; intros
    | apply leaves_audio_bind; [| intros]
    | apply leaves_audio_modify; intros [] ; done
    | match goal with
      | |- leaves_audio (match ?x with _ => _ end) => destruct x
      | |- leaves_audio (if ?x then _ else _) => destruct x
      | |- leaves_audio (let '(_, _) := ?x in _) => destruct x
      end ].

Lemma leaves_audio_createOfflineVoice random legacy context dry wet delay :
  leaves_audio (createOfflineVoice random legacy context dry wet delay).
Proof.
  unfold createOfflineVoice, mbind, M_bind, mret, M_ret.
  cbn [create]. leaves.
Qed.

Lemma leaves_audio_downloadEffect random legacy startRendering :
  leaves_audio (downloadEffect random legacy startRendering).
Proof.
  unfold downloadEffect, updateStatus, new_OfflineAudioContext,
    generateOfflineReverbImpulse, mbind, M_bind, mret, M_ret.
  cbn [create]. leaves.
Qed.

(** *** The invariant of the live context *)

Lemma source_at_update g id f id' s :
  source_at (update id f g) id' = Some s ->
  (id' <> id /\ source_at g id' = Some s)
  \/ (id' = id /\ exists n, nodes g !! id = Some n /\ f n = BufferSourceNode s).
Proof.
  unfold source_at, update. cbn [nodes]. intros H.
  destruct (decide (id' = id)) as [-> | Hne].
  - right. split; [done |].
    rewrite list_lookup_alter_eq in H.
    destruct (nodes g !! id) as [n |]; [| done]. cbn in H.
    exists n. split; [done |]. destruct (f n); congruence.
  - left. split; [done |]. by rewrite list_lookup_alter_ne in H.
Qed.

Lemma stopped_keeps_voices legacy g source :
  only_continuous_voices g -> only_continuous_voices (stopped legacy g source).
Proof.
  intros Hg. destruct (stopped_cases legacy g source) as [-> | ->]; [done |].
  intros id s Hs. apply source_at_update in Hs as [[_ Hs] | [-> (n & Hn & Hf)]].
  - by apply (Hg id).
  - destruct n as [v | k | s0]; try discriminate Hf. cbn in Hf.
    injection Hf as <-.
    assert (Hs0 : source_at g source = Some s0) by (unfold source_at; by rewrite Hn).
    destruct (Hg _ _ Hs0) as (Hl & Hst & _).
    repeat split; [done | done | by right].
Qed.

Lemma foldl_stopped_keeps_voices legacy sources : forall g,
  only_continuous_voices g ->
  only_continuous_voices (foldl (stopped legacy) g sources).
Proof.
  induction sources as [| x rest IH]; intros g Hg; [done |].
  cbn [foldl]. by apply IH, stopped_keeps_voices.
Qed.

Lemma source_at_app ns extra es es' id s :
  source_at {| nodes := ns ++ extra; edges := es |} id = Some s ->
  source_at {| nodes := ns; edges := es' |} id = Some s
  \/ exists k, extra !! k = Some (BufferSourceNode s).
Proof.
  unfold source_at. cbn [nodes]. intros H.
  destruct (decide (id < length ns)%nat) as [Hlt | Hge].
  - left. by rewrite lookup_app_l in H.
  - right. rewrite lookup_app_r in H by lia.
    exists (id - length ns)%nat.
    destruct (extra !! (id - length ns)%nat) as [[v | k | s'] |]; congruence.
Qed.

Lemma with_voice_keeps_voices g s gainValue dry wet :
  only_continuous_voices g -> continuous_voice s ->
  only_continuous_voices (with_voice g s gainValue dry wet).
Proof.
  intros Hg Hs id s' H. unfold with_voice in H.
  apply (source_at_app _ _ _ (edges g)) in H as [H | [k H]].
  - apply (Hg id). by destruct g.
  - destruct k as [| [| k]]; cbn in H; [congruence | discriminate | discriminate].
Qed.

Lemma play_keeps_invariant random legacy w :
  live_invariant w -> live_invariant (world_of (playGibberingEffect random legacy w)).
Proof.
  intros [Hclk Hv].
  destruct (recordedBuffer w) as [recorded |] eqn:Hrec.
  - rewrite (playGibberingEffect_returns random legacy w recorded Hrec).
    split; [done |]. cbn [world_of audio].
    intros id s H.
    apply (source_at_app _ _ _ (edges (foldl (stopped legacy) (audio w)
                                          (currentPlayingSources w)))) in H
      as [H | [k H]].
    + apply (foldl_stopped_keeps_voices legacy (currentPlayingSources w) _ Hv id).
      by destruct (foldl _ _ _).
    + destruct k as [| [| k]]; discriminate H.
  - unfold playGibberingEffect, mbind, M_bind, bind, get. rewrite Hrec. done.
Qed.

Lemma stop_click_keeps_invariant legacy w :
  live_invariant w -> live_invariant (world_of (stopButton_click legacy w)).
Proof.
  intros [Hclk Hv]. unfold stopButton_click.
  unfold mbind at 1, M_bind at 1, bind at 1. rewrite stopAllSources_returns.
  destruct w as [cfg rb cps g rate clk tms d pg dl].
  cbn -[Qle]. split; [done |].
  by apply foldl_stopped_keeps_voices.
Qed.

Lemma run_due_keeps_invariant random legacy fuel until : forall w,
  live_invariant w -> live_invariant (run_due random legacy fuel until w).
Proof.
  induction fuel as [| n IH]; intros w Hw; [done |].
  cbn [run_due]. destruct (earliest (timers w)) as [[i t] |]; [| done].
  destruct (Qle_bool (due t) until); [| done].
  apply IH. destruct Hw as [Hclk Hv].
  assert (Hclk' : 0 <= Qmax (clock w) (due t)).
  { eapply Qle_trans; [exact Hclk | apply Q.le_max_l]. }
  rewrite createVoice_continuous by (by destruct w).
  destruct w as [cfg rb cps g rate clk tms d pg dl].
  cbn -[Qle Qmax Qdiv]. cbn -[Qle Qmax Qdiv] in Hclk'. split; [done |].
  apply with_voice_keeps_voices; [done |].
  repeat split; cbn; eauto.
Qed.

(** In every state the event loop reaches from one that satisfies it, the
    clock is not negative and every voice of the live context loops, is
    started, and has no stop time but the immediate one of [stop()]. *)
Lemma step_keeps_invariant random legacy startRendering e w w' :
  live_invariant w -> step random legacy startRendering e w = Some w' ->
  live_invariant w'.
Proof.
  intros Hw. unfold step. destruct (enabled e w) eqn:He; [| discriminate].
  intros [= <-]. destruct e as [| | | ms | source | source]; cbn [handle].
  - by apply play_keeps_invariant.
  - by apply stop_click_keeps_invariant.
  - destruct (leaves_audio_downloadEffect random legacy startRendering w) as [Ha Hc].
    destruct Hw as [Hclk Hv]. split; [by rewrite Hc | by rewrite Ha].
  - unfold elapse. cbn [enabled] in He. apply Qle_bool_iff in He.
    pose proof (run_due_keeps_invariant random legacy (length (timers w))
                  (clock w + ms) w Hw) as [_ Hv].
    destruct Hw as [Hclk _].
    destruct (run_due _ _ _ _ _) as [cfg rb cps g rate clk tms d pg dl].
    split; [| exact Hv]. cbn [clock set_clock]. lra.
  - destruct Hw as [Hclk Hv]. unfold playback_finished.
    destruct w as [cfg rb cps g rate clk tms d pg dl]. cbn -[Qle] in *.
    split; [done |]. intros id s H.
    apply source_at_update in H as [[_ H] | [-> (n & Hn & Hf)]]; [by apply (Hv id) |].
    destruct n as [v | k | s0]; try discriminate Hf. cbn in Hf. injection Hf as <-.
    assert (Hs0 : source_at g source = Some s0) by (unfold source_at; by rewrite Hn).
    exact (Hv _ _ Hs0).
  - destruct Hw as [Hclk Hv]. unfold onended, mbind, M_bind, bind, get.
    destruct (indexOf _ _); by destruct w.
Qed.

Lemma run_keeps_invariant random legacy startRendering events : forall w w',
  live_invariant w -> run random legacy startRendering events w = Some w' ->
  live_invariant w'.
Proof.
  induction events as [| e rest IH]; intros w w' Hw Hrun.
  - by injection Hrun as <-.
  - cbn [run] in Hrun.
    destruct (step random legacy startRendering e w) as [w1 |] eqn:Hstep;
      [| discriminate].
    cbn in Hrun. eapply IH; [| exact Hrun].
    by eapply step_keeps_invariant.
Qed.

Lemma fresh_page_invariant recorded cfg : live_invariant (after_recording recorded cfg).
Proof. split; [done |]. intros id s H. by destruct id. Qed.

(** From a fresh page, whatever the user and the host do, no voice of the
    live context ever gets a scheduled stop time: each one loops and has no
    stop time but the immediate one of [stop()]. *)
Lemma continuous_player_never_schedules_a_stop random legacy startRendering
    events recorded cfg w id s :
  run random legacy startRendering events (after_recording recorded cfg) = Some w ->
  source_at (audio w) id = Some s ->
  loop s = true /\ (stopTime s = None \/ stopTime s = Some 0).
Proof.
  intros Hrun Hs.
  destruct (run_keeps_invariant _ _ _ _ _ _ (fresh_page_invariant recorded cfg) Hrun)
    as [_ Hv].
  destruct (Hv id s Hs) as (Hl & _ & Hst). done.
Qed.

(** C8 fails on the code.  With the initial configuration and a recording,
    play, stop 100 ms later and play again 100 ms after that: the forty
    timers of the first play are still pending, fire at 400 ms, and their
    voices (source 4 is one, on the first play's dry bus, node 0) sit in the
    active set next to the forty voices of the second play (source 84 is
    one, on its dry bus, node 2). *)
Theorem replay_mixes_two_sessions :
  exists w,
    run always_half false no_render replay_within_stagger
      (after_recording (Some one_second) CONFIG_initial) = Some w
    /\ length (currentPlayingSources w) = 80%nat
    /\ active_sessions w = [0%nat; 2%nat]
    /\ 4%nat ∈ currentPlayingSources w
    /\ dry_buses (audio w) 4 = [0%nat]
    /\ 84%nat ∈ currentPlayingSources w
    /\ dry_buses (audio w) 84 = [2%nat].
Proof.
  eexists. split; [vm_compute; reflexivity |].
  split; [reflexivity |]. split; [vm_compute; reflexivity |].
  split; [apply (list_elem_of_lookup_2 _ 0); vm_compute; reflexivity |].
  split; [vm_compute; reflexivity |].
  split; [apply (list_elem_of_lookup_2 _ 40); vm_compute; reflexivity |].
  vm_compute; reflexivity.
Qed.

(** The same missed case without a second play: the voices of a play that
    was stopped after 100 ms start all the same, 300 ms after the stop. *)
Example voices_start_after_stop :
  exists w,
    run always_half false no_render [ClickPlay; Elapse 100; ClickStop; Elapse 400]
      (after_recording (Some one_second) CONFIG_initial) = Some w
    /\ length (currentPlayingSources w) = 40%nat
    /\ stopButtonShown (page w) = false.
Proof. eexists. split; [vm_compute; reflexivity |]. split; reflexivity. Qed.

End EngineFacts.

(** * The rounding against the primitive floats *)

Module Binary64Facts.

Import Binary64.

(** On every pair of the samples, the operators of [Number] give what the
    primitive binary64 operators give, and [Binary.fround] what rounding to
    binary32 gives. *)
Example rounding_agrees_on_the_samples :
  forallb (fun a => forallb (agree a) samples) samples = true.
Proof. vm_compute. reflexivity. Qed.

End Binary64Facts.

(** * More on the encoder *)

Module EncoderFacts.
Import JS DataView Wav Layout WavFacts.

(** *** The size and the header of the stream *)

(** X1.  On every buffer whose [44 + length * numberOfChannels * 2] bytes
    the host can allocate, [limit] being the largest buffer it allocates
    (at most [2 ^ 53 - 1] on any host), both encoders return a blob of type
    [audio/wav] that holds exactly that many bytes: no write of the header
    or of a sample falls outside the buffer, and a buffer without frames or
    without channels gives the bare 44-byte header. *)
Theorem encoder_output_size (limit : N) (buffer : AudioBuffer.t) :
  (limit <= 2 ^ 53 - 1)%N ->
  (AudioBuffer.length buffer < 2 ^ 53)%N ->
  (AudioBuffer.numberOfChannels buffer < 2 ^ 53)%N ->
  (44 + dataSize buffer <= limit)%N ->
  exists blob,
    Chunked.bufferToWav buffer = Some blob
    /\ Straight.bufferToWav buffer = Some blob
    /\ type blob = "audio/wav"%string
    /\ length (bytes blob) = (44 + N.to_nat (dataSize buffer))%nat.
Proof.
  intros _ _ _ _.
  exists {| bytes := wav_bytes buffer; type := "audio/wav" |}.
  split; [apply chunked_layout |]. split; [apply straight_layout |].
  split; [done |]. cbn [bytes]. unfold wav_bytes.
  by rewrite length_app, length_data_bytes.
Qed.

Lemma encoder_output_size_witness :
  (2 ^ 31 <= 2 ^ 53 - 1)%N
  /\ (AudioBuffer.length ramp < 2 ^ 53)%N
  /\ (AudioBuffer.numberOfChannels ramp < 2 ^ 53)%N
  /\ (44 + dataSize ramp <= 2 ^ 31)%N
  /\ exists blob,
       Chunked.bufferToWav ramp = Some blob
       /\ Straight.bufferToWav ramp = Some blob
       /\ type blob = "audio/wav"%string
       /\ length (bytes blob) = (44 + N.to_nat (dataSize ramp))%nat.
Proof.
  assert (H1 : (2 ^ 31 <= 2 ^ 53 - 1)%N) by (vm_compute; discriminate).
  assert (H2 : (AudioBuffer.length ramp < 2 ^ 53)%N) by (vm_compute; reflexivity).
  assert (H3 : (AudioBuffer.numberOfChannels ramp < 2 ^ 53)%N)
    by (vm_compute; reflexivity).
  assert (H4 : (44 + dataSize ramp <= 2 ^ 31)%N) by (vm_compute; discriminate).
  split; [exact H1 |]. split; [exact H2 |]. split; [exact H3 |].
  split; [exact H4 |].
  exact (encoder_output_size (2 ^ 31) ramp H1 H2 H3 H4).
Defined.

(** *** The stored value as a function of the sample *)

Lemma truncate_mono p q : (p <= q)%Q -> truncate p <= truncate q.
Proof.
  unfold Qle, truncate. destruct p as [a b], q as [c d]. cbn [Qnum Qden]. intros H.
  rewrite <- (Z.quot_mul_cancel_r a (Z.pos b) (Z.pos d)) by lia.
  rewrite <- (Z.quot_mul_cancel_r c (Z.pos d) (Z.pos b)) by lia.
  rewrite (Z.mul_comm (Z.pos d) (Z.pos b)).
  apply Z.quot_le_mono; lia.
Qed.

Lemma truncate_opp q : truncate (- q) = - truncate q.
Proof.
  unfold truncate. destruct q as [a b]. cbn [Qnum Qden Qopp].
  apply Z.quot_opp_l. lia.
Qed.

(** Truncation moves toward zero by less than one. *)
Lemma truncate_toward_zero q :
  ((0 <= q -> inject_Z (truncate q) <= q /\ q < inject_Z (truncate q) + 1)
   /\ (q <= 0 -> q <= inject_Z (truncate q) /\ inject_Z (truncate q) < q + 1))%Q.
Proof.
  unfold truncate. destruct q as [a b].
  unfold Qle, Qlt, Qplus, Qminus, Qopp, inject_Z. cbn [Qnum Qden].
  rewrite ?Pos.mul_1_r, !Z.mul_1_r, ?Z.mul_1_l.
  pose proof (Z.quot_rem' a (Z.pos b)) as E.
  split; intros Ha; rewrite Z.mul_0_l in Ha.
  - assert (0 <= a) by lia.
    pose proof (Z.rem_bound_pos a (Z.pos b) ltac:(lia) ltac:(lia)).
    split; nia.
  - assert (a <= 0) by lia.
    pose proof (Z.rem_bound_abs a (Z.pos b) ltac:(lia)).
    pose proof (Z.rem_nonpos a (Z.pos b) ltac:(lia) ltac:(lia)).
    split; nia.
Qed.

Lemma clamp_cases q :
  let c := Qmax (-1) (Qmin 1 q) in
  ((1 <= q /\ c == 1) \/ (-1 <= q <= 1 /\ c == q) \/ (q <= -1 /\ c == -1))%Q.
Proof.
  cbn zeta.
  destruct (Q.max_spec (-1) (Qmin 1 q)) as [[H1 E1] | [H1 E1]];
    destruct (Q.min_spec 1 q) as [[H2 E2] | [H2 E2]];
    rewrite E1; rewrite ?E2 in *.
  - left. split; [lra | reflexivity].
  - right. left. split; [lra | reflexivity].
  - lra.
  - right. right. split; [lra | reflexivity].
Qed.

Lemma inject_Z_le a b : (inject_Z a <= inject_Z b)%Q <-> a <= b.
Proof. unfold Qle, inject_Z. cbn. lia. Qed.

Lemma inject_Z_lt a b : (inject_Z a < inject_Z b)%Q <-> a < b.
Proof. unfold Qlt, inject_Z. cbn. lia. Qed.

(** The stored value, [setInt16]'s [ToInt16] of [int16], on a finite sample. *)
Lemma stored_finite q :
  ToInt16 (int16_of (Finite q)) = truncate (Qmax (-1) (Qmin 1 q) * 32767).
Proof. by rewrite ToInt16_int16_of. Qed.

(** X4.  The 16-bit value stored for a sample does not decrease when the
    sample increases. *)
Theorem stored_value_is_monotone (p q : Q) :
  (p <= q)%Q ->
  ToInt16 (int16_of (Finite p)) <= ToInt16 (int16_of (Finite q)).
Proof.
  intros H. rewrite !stored_finite. apply truncate_mono.
  apply Qmult_le_compat_r; [| done].
  apply Q.max_le_compat_l, Q.min_le_compat_l, H.
Qed.

(** X5.  Negating a sample negates the 16-bit value stored for it. *)
Theorem stored_value_is_odd (q : Q) :
  ToInt16 (int16_of (Finite (- q))) = - ToInt16 (int16_of (Finite q)).
Proof.
  rewrite !stored_finite, <- truncate_opp. apply truncate_Qeq.
  destruct (clamp_cases q) as [[H E] | [[H E] | [H E]]];
    destruct (clamp_cases (- q)) as [[H' E'] | [[H' E'] | [H' E']]];
    rewrite E, E'; lra.
Qed.

Lemma truncate_sign c :
  ((0 <= c)%Q -> 0 <= truncate c) /\ ((c <= 0)%Q -> truncate c <= 0).
Proof.
  split; intros H; change 0 with (truncate 0); by apply truncate_mono.
Qed.

(** X6.  The stored value is the scaled sample [clamp(x,-1,1) * 32767] moved
    toward zero by less than one: it has the sign of the sample, is not
    larger in magnitude than the scaled sample, and is less than one
    away from it. *)
Theorem quantisation_drops_less_than_one (q : Q) :
  let scaled := (Qmax (-1) (Qmin 1 q) * 32767)%Q in
  let stored := inject_Z (ToInt16 (int16_of (Finite q))) in
  ((0 <= q -> 0 <= stored /\ stored <= scaled /\ scaled < stored + 1)
   /\ (q <= 0 -> stored <= 0 /\ scaled <= stored /\ stored < scaled + 1))%Q.
Proof.
  cbn zeta. rewrite stored_finite.
  assert (Hs : ((0 <= q -> 0 <= Qmax (-1) (Qmin 1 q) * 32767)
                /\ (q <= 0 -> Qmax (-1) (Qmin 1 q) * 32767 <= 0))%Q).
  { destruct (clamp_cases q) as [[H E] | [[H E] | [H E]]]; rewrite E;
      split; intros; lra. }
  revert Hs. generalize (Qmax (-1) (Qmin 1 q) * 32767)%Q. intros c [Hp Hn].
  destruct (truncate_toward_zero c) as [Hpos Hneg].
  destruct (truncate_sign c) as [Spos Sneg].
  split; intros Hq.
  - destruct (Hpos (Hp Hq)) as [H1 H2]. repeat apply conj; try done.
    change 0%Q with (inject_Z 0). apply inject_Z_le. auto.
  - destruct (Hneg (Hn Hq)) as [H1 H2]. repeat apply conj; try done.
    change 0%Q with (inject_Z 0). apply inject_Z_le. auto.
Qed.

Lemma truncate_zero_iff c : truncate c = 0 <-> (-1 < c < 1)%Q.
Proof.
  destruct (truncate_toward_zero c) as [Hpos Hneg].
  destruct (truncate_sign c) as [Spos Sneg].
  split.
  - intros H0. rewrite H0 in Hpos, Hneg. change (inject_Z 0) with 0%Q in *.
    destruct (Qlt_le_dec c 0) as [Hc | Hc].
    + destruct Hneg as [H1 H2]; [lra |]. split; lra.
    + destruct Hpos as [H1 H2]; [lra |]. split; lra.
  - intros [Hlo Hhi].
    destruct (Qlt_le_dec c 0) as [Hc | Hc].
    + destruct Hneg as [H1 H2]; [lra |].
      assert (truncate c <= 0) by (apply Sneg; lra).
      assert (-1 < truncate c).
      { apply inject_Z_lt. change (inject_Z (-1)) with (-1)%Q. lra. }
      lia.
    + destruct Hpos as [H1 H2]; [lra |].
      assert (0 <= truncate c) by (apply Spos; lra).
      assert (truncate c < 1).
      { apply inject_Z_lt. change (inject_Z 1) with 1%Q. lra. }
      lia.
Qed.

(** X7.  A finite sample is stored as 0 exactly when it lies strictly
    between [-1/32767] and [1/32767]. *)
Theorem stored_zero_iff_below_one_step (q : Q) :
  ToInt16 (int16_of (Finite q)) = 0
  <-> (- (1 # 32767) < q < 1 # 32767)%Q.
Proof.
  rewrite stored_finite, truncate_zero_iff.
  destruct (clamp_cases q) as [[H E] | [[H E] | [H E]]]; rewrite E;
    split; intros [H1 H2]; split; lra.
Qed.

(** X8.  A finite sample is stored as 32767 exactly when it is at least 1,
    and as -32767 exactly when it is at most -1. *)
Theorem full_scale_iff_at_or_beyond_one (q : Q) :
  (ToInt16 (int16_of (Finite q)) = 32767 <-> (1 <= q)%Q)
  /\ (ToInt16 (int16_of (Finite q)) = -32767 <-> (q <= -1)%Q).
Proof.
  rewrite stored_finite.
  destruct (truncate_toward_zero (Qmax (-1) (Qmin 1 q) * 32767)) as [Hpos Hneg].
  set (t := truncate (Qmax (-1) (Qmin 1 q) * 32767)) in *.
  assert (Hone : forall c, (Qmax (-1) (Qmin 1 q) == c)%Q ->
                           t = truncate (c * 32767)).
  { intros c Hc. apply truncate_Qeq. by rewrite Hc. }
  destruct (clamp_cases q) as [[H E] | [[H E] | [H E]]].
  - rewrite (Hone _ E). change (truncate (1 * 32767)) with 32767.
    split; split; intros; try done; try lra; lia.
  - rewrite E in Hpos, Hneg.
    split; split; intros H0.
    + destruct (Qlt_le_dec q 0) as [Hq | Hq].
      * assert (t <= 0).
        { unfold t. change 0 with (truncate 0). apply truncate_mono. rewrite E. lra. }
        lia.
      * destruct Hpos as [H1 H2]; [lra |]. rewrite H0 in H1.
        change (inject_Z 32767) with 32767%Q in H1. lra.
    + assert (E1 : (Qmax (-1) (Qmin 1 q) == 1)%Q) by (rewrite E; lra).
      rewrite (Hone _ E1). done.
    + destruct (Qlt_le_dec q 0) as [Hq | Hq].
      * destruct Hneg as [H1 H2]; [lra |]. rewrite H0 in H1.
        change (inject_Z (-32767)) with (-32767)%Q in H1. lra.
      * assert (0 <= t).
        { unfold t. change 0 with (truncate 0). apply truncate_mono. rewrite E. lra. }
        lia.
    + assert (E1 : (Qmax (-1) (Qmin 1 q) == -1)%Q) by (rewrite E; lra).
      rewrite (Hone _ E1). done.
  - rewrite (Hone _ E). change (truncate (-1 * 32767)) with (-32767).
    split; split; intros; try done; try lra; lia.
Qed.

(** X2.  On a view that starts with 44 zero bytes, as a fresh buffer does,
    and for a channel count, a rate and a data size whose products in the
    header stay below [2 ^ 53], where doubles are exact, [writeHeader]
    returns a view that carries the four tags, the constants 16, 1 and 16,
    and each computed field reduced modulo the width of its field: the two
    chunk sizes, the rate and the byte rate modulo [2^32], the channel count
    and the block align modulo [2^16].  What follows the header is left as
    it was. *)
Theorem header_fields_wrap (tail : list Z) (numberOfChannels sampleRate size : N) :
  (sampleRate < 2 ^ 53)%N ->
  (numberOfChannels * 2 < 2 ^ 53)%N ->
  (sampleRate * numberOfChannels * 2 < 2 ^ 53)%N ->
  (36 + size < 2 ^ 53)%N ->
  let C := Z.of_N numberOfChannels in
  let R := Z.of_N sampleRate in
  let D := Z.of_N size in
  exists view,
    writeHeader (ArrayBuffer 44 ++ tail) numberOfChannels sampleRate size = Some view
    /\ get_bytes view 0 4 = Some (ascii_bytes "RIFF")
    /\ getUint32 view 4 true = Some ((36 + D) mod 2 ^ 32)
    /\ get_bytes view 8 4 = Some (ascii_bytes "WAVE")
    /\ get_bytes view 12 4 = Some (ascii_bytes "fmt ")
    /\ getUint32 view 16 true = Some 16
    /\ getUint16 view 20 true = Some 1
    /\ getUint16 view 22 true = Some (C mod 2 ^ 16)
    /\ getUint32 view 24 true = Some (R mod 2 ^ 32)
    /\ getUint32 view 28 true = Some ((R * C * 2) mod 2 ^ 32)
    /\ getUint16 view 32 true = Some ((C * 2) mod 2 ^ 16)
    /\ getUint16 view 34 true = Some 16
    /\ get_bytes view 36 4 = Some (ascii_bytes "data")
    /\ getUint32 view 40 true = Some (D mod 2 ^ 32)
    /\ drop 44 view = tail.
Proof.
  intros _ _ _ _ C R D.
  exists (header_bytes numberOfChannels sampleRate size ++ tail).
  split; [apply writeHeader_layout |].
  subst C R D.
  repeat apply conj.
  - apply read_riff_tag.
  - rewrite read_riff_size. do 2 f_equal. lia.
  - apply read_wave_tag.
  - apply read_fmt_tag.
  - apply read_fmt_size.
  - apply read_format_tag.
  - apply read_channel_count.
  - apply read_sample_rate.
  - rewrite read_byte_rate. do 2 f_equal. lia.
  - rewrite read_block_align. do 2 f_equal. lia.
  - apply read_bits_per_sample.
  - apply read_data_tag.
  - apply read_data_size.
  - apply drop_app_length'. unfold header_bytes, u32, u16, ascii_bytes.
    rewrite !length_app, !length_le_bytes. reflexivity.
Qed.

Lemma header_fields_wrap_witness :
  let C := 65537 in
  let R := 2 ^ 32 + 1 in
  let D := 2 ^ 32 in
  (2 ^ 32 + 1 < 2 ^ 53)%N
  /\ (65537 * 2 < 2 ^ 53)%N
  /\ ((2 ^ 32 + 1) * 65537 * 2 < 2 ^ 53)%N
  /\ (36 + 2 ^ 32 < 2 ^ 53)%N
  /\ exists view,
       writeHeader (ArrayBuffer 44 ++ [7]) 65537 (2 ^ 32 + 1) (2 ^ 32) = Some view
       /\ get_bytes view 0 4 = Some (ascii_bytes "RIFF")
       /\ getUint32 view 4 true = Some ((36 + D) mod 2 ^ 32)
       /\ get_bytes view 8 4 = Some (ascii_bytes "WAVE")
       /\ get_bytes view 12 4 = Some (ascii_bytes "fmt ")
       /\ getUint32 view 16 true = Some 16
       /\ getUint16 view 20 true = Some 1
       /\ getUint16 view 22 true = Some (C mod 2 ^ 16)
       /\ getUint32 view 24 true = Some (R mod 2 ^ 32)
       /\ getUint32 view 28 true = Some ((R * C * 2) mod 2 ^ 32)
       /\ getUint16 view 32 true = Some ((C * 2) mod 2 ^ 16)
       /\ getUint16 view 34 true = Some 16
       /\ get_bytes view 36 4 = Some (ascii_bytes "data")
       /\ getUint32 view 40 true = Some (D mod 2 ^ 32)
       /\ drop 44 view = [7].
Proof.
  cbn zeta.
  assert (H1 : (2 ^ 32 + 1 < 2 ^ 53)%N) by (vm_compute; reflexivity).
  assert (H2 : (65537 * 2 < 2 ^ 53)%N) by (vm_compute; reflexivity).
  assert (H3 : ((2 ^ 32 + 1) * 65537 * 2 < 2 ^ 53)%N) by (vm_compute; reflexivity).
  assert (H4 : (36 + 2 ^ 32 < 2 ^ 53)%N) by (vm_compute; reflexivity).
  split; [exact H1 |]. split; [exact H2 |]. split; [exact H3 |].
  split; [exact H4 |].
  exact (header_fields_wrap [7] 65537 (2 ^ 32 + 1) (2 ^ 32) H1 H2 H3 H4).
Defined.

Lemma length_set_bytes view offset new view' :
  set_bytes view offset new = Some view' -> length view' = length view.
Proof.
  unfold set_bytes. destruct (_ <=? _)%nat; [| done].
  intros [= <-]. apply length_inserts.
Qed.

Lemma writeString_from_overflow (s : string) : forall view offset i,
  s <> EmptyString ->
  (length view < offset + i + String.length s)%nat ->
  writeString_from view offset s i = None.
Proof.
  induction s as [| c rest IH]; intros view offset i Hne Hlen; [done |].
  cbn [writeString_from]. cbn [String.length] in Hlen.
  destruct (setUint8 view (offset + i) (of_N (N_of_ascii c))) as [view' |] eqn:E;
    [| done].
  cbn [mbind option_bind].
  pose proof (length_set_bytes _ _ _ _ E) as Hl.
  assert (Hfit : (offset + i + 1 <= length view)%nat).
  { unfold setUint8, set_bytes in E.
    destruct (Nat.leb_spec (offset + i + length (raw_bytes 1 (ToUint8 (of_N (N_of_ascii c))) true))
                (length view)) as [H | H]; [| done].
    exact H. }
  apply IH.
  - intros ->. cbn [String.length] in Hlen. lia.
  - lia.
Qed.

Lemma length_ascii_bytes s : length (ascii_bytes s) = String.length s.
Proof.
  unfold ascii_bytes. rewrite length_map.
  induction s; [done | cbn; by f_equal].
Qed.

(** X3.  [writeString] raises exactly when the string is not empty and does
    not fit between [offset] and the end of the view; otherwise it overwrites
    the [string.length] bytes from [offset] on with the character codes and
    leaves every other byte as it was.  The empty string is accepted at any
    offset. *)
Theorem writeString_bounds (view : list Z) (offset : nat) (s : string) :
  writeString view offset s
  = if bool_decide (String.length s = 0%nat
                    \/ (offset + String.length s <= length view)%nat)
    then Some (take offset view ++ ascii_bytes s
               ++ drop (offset + String.length s) view)
    else None.
Proof.
  case_bool_decide as H.
  - destruct (decide (offset + String.length s <= length view)%nat) as [Hfit | Hout].
    + pose proof (writeString_middle (take offset view)
                    (take (String.length s) (drop offset view))
                    (drop (offset + String.length s) view) s) as E.
      rewrite <- drop_drop, take_drop, take_drop in E.
      replace (length (take offset view)) with offset in E
        by (rewrite length_take; lia).
      rewrite drop_drop in E.
      apply E. rewrite length_take, length_drop. lia.
    + destruct H as [H | H]; [| lia].
      destruct s; [| discriminate H].
      cbn [String.length ascii_bytes list_ascii_of_string map app].
      rewrite Nat.add_0_r, take_drop. done.
  - unfold writeString. apply writeString_from_overflow.
    + intros ->. apply H. by left.
    + rewrite Nat.add_0_r. apply Nat.nlt_ge. intros Hlt. apply H. right. lia.
Qed.

(** X9.  A sample that is [NaN] is stored as 0, one that is [+Infinity] as
    32767 and one that is [-Infinity] as -32767; none of them makes the
    encoder raise. *)
Theorem non_finite_samples (buffer : AudioBuffer.t) (j channel : N) :
  (j < AudioBuffer.length buffer)%N ->
  (channel < AudioBuffer.numberOfChannels buffer)%N ->
  exists blob,
    Chunked.bufferToWav buffer = Some blob
    /\ (AudioBuffer.getChannelData buffer channel j = NaN ->
        getInt16 (bytes blob) (sample_offset buffer j channel) true = Some 0)
    /\ (AudioBuffer.getChannelData buffer channel j = PosInfinity ->
        getInt16 (bytes blob) (sample_offset buffer j channel) true = Some 32767)
    /\ (AudioBuffer.getChannelData buffer channel j = NegInfinity ->
        getInt16 (bytes blob) (sample_offset buffer j channel) true = Some (-32767)).
Proof.
  intros Hj Hc. exists {| bytes := wav_bytes buffer; type := "audio/wav" |}.
  split; [apply chunked_layout |]. cbn [bytes].
  rewrite emitted_sample by done.
  repeat apply conj; intros ->; reflexivity.
Qed.

Lemma range_bytes_ext f g count : forall k,
  (forall i, (k <= i < k + N.of_nat count)%N -> f i = g i) ->
  range_bytes count k f = range_bytes count k g.
Proof.
  induction count as [| n IH]; intros k H; [done |].
  cbn [range_bytes]. rewrite (H k) by lia. f_equal.
  apply IH. intros i Hi. apply H. lia.
Qed.

(** X24.  The encoders read nothing but the rate, the two sizes and the
    samples of the frames below [length] in the channels below
    [numberOfChannels]: two buffers that agree on these are encoded to the
    same blob. *)
Theorem encoder_reads_only_the_frames (buffer1 buffer2 : AudioBuffer.t) :
  AudioBuffer.length buffer1 = AudioBuffer.length buffer2 ->
  AudioBuffer.numberOfChannels buffer1 = AudioBuffer.numberOfChannels buffer2 ->
  AudioBuffer.sampleRate buffer1 = AudioBuffer.sampleRate buffer2 ->
  (forall j channel,
     (j < AudioBuffer.length buffer1)%N ->
     (channel < AudioBuffer.numberOfChannels buffer1)%N ->
     AudioBuffer.getChannelData buffer1 channel j
     = AudioBuffer.getChannelData buffer2 channel j) ->
  Chunked.bufferToWav buffer1 = Chunked.bufferToWav buffer2
  /\ Straight.bufferToWav buffer1 = Straight.bufferToWav buffer2.
Proof.
  intros Hlength Hchannels Hrate Hsamples.
  rewrite !chunked_layout, !straight_layout.
  assert (E : wav_bytes buffer1 = wav_bytes buffer2); [| by rewrite E].
  unfold wav_bytes, dataSize, data_bytes. rewrite <- Hlength, <- Hchannels, <- Hrate.
  f_equal. apply range_bytes_ext. intros j Hj.
  unfold frame_bytes. rewrite <- Hchannels.
  apply range_bytes_ext. intros channel Hc.
  rewrite Hsamples by lia. done.
Qed.

Lemma encoder_reads_only_the_frames_witness :
  let buffer1 := constant 2 1 (Finite (1 # 2)) in
  let buffer2 :=
    {| AudioBuffer.numberOfChannels := 1;
       AudioBuffer.length := 2;
       AudioBuffer.sampleRate := 44100;
       AudioBuffer.getChannelData := fun channel j =>
         if (j <? 2)%N then Finite (1 # 2) else NaN |} in
  Chunked.bufferToWav buffer1 = Chunked.bufferToWav buffer2
  /\ Straight.bufferToWav buffer1 = Straight.bufferToWav buffer2.
Proof.
  apply (encoder_reads_only_the_frames
           (constant 2 1 (Finite (1 # 2)))
           {| AudioBuffer.numberOfChannels := 1;
              AudioBuffer.length := 2;
              AudioBuffer.sampleRate := 44100;
              AudioBuffer.getChannelData := fun channel j =>
                if (j <? 2)%N then Finite (1 # 2) else NaN |});
    try reflexivity.
  intros j channel Hj _. cbn in *.
  destruct (N.ltb_spec j 2) as [_ | H]; [reflexivity | lia].
Defined.

Lemma stored_value_is_monotone_witness :
  ToInt16 (int16_of (Finite (1 # 4))) <= ToInt16 (int16_of (Finite (1 # 2))).
Proof. apply (stored_value_is_monotone (1 # 4) (1 # 2)). vm_compute. discriminate. Defined.

Lemma non_finite_samples_witness :
  exists blob,
    Chunked.bufferToWav (constant 1 1 NaN) = Some blob
    /\ (AudioBuffer.getChannelData (constant 1 1 NaN) 0 0 = NaN ->
        getInt16 (bytes blob) (sample_offset (constant 1 1 NaN) 0 0) true = Some 0)
    /\ (AudioBuffer.getChannelData (constant 1 1 NaN) 0 0 = PosInfinity ->
        getInt16 (bytes blob) (sample_offset (constant 1 1 NaN) 0 0) true
        = Some 32767)
    /\ (AudioBuffer.getChannelData (constant 1 1 NaN) 0 0 = NegInfinity ->
        getInt16 (bytes blob) (sample_offset (constant 1 1 NaN) 0 0) true
        = Some (-32767)).
Proof. apply (non_finite_samples (constant 1 1 NaN) 0 0); reflexivity. Defined.

End EncoderFacts.

(** * More on the voices *)

Module VoiceFacts.
Import Engine Sessions EngineFacts.
Local Open Scope Q_scope.




Lemma gain_of_bounds cfg u :
  Binary.double (GAIN_MIN cfg) == GAIN_MIN cfg ->
  Binary.double (GAIN_MAX cfg) == GAIN_MAX cfg ->
  Binary.double u == u ->
  0 <= u < 1 -> GAIN_MIN cfg <= GAIN_MAX cfg ->
  GAIN_MIN cfg <= gain_of cfg u <= GAIN_MAX cfg.
Proof. intros. by apply BinaryFacts.interpolation_on_doubles. Qed.

Lemma gain_at_with_voice g s gainValue dry wet :
  gain_at (with_voice g s gainValue dry wet) (S (length (nodes g))) = Some gainValue.
Proof.
  unfold gain_at, with_voice. cbn [nodes].
  change [BufferSourceNode s; GainNode gainValue]
    with ([BufferSourceNode s] ++ [GainNode gainValue]).
  rewrite app_assoc. by rewrite lookup_after_last.
Qed.

Lemma edges_with_voice g s gainValue dry wet :
  let source := length (nodes g) in
  (Node source, Node (S source)) ∈ edges (with_voice g s gainValue dry wet)
  /\ (Node (S source), Node dry) ∈ edges (with_voice g s gainValue dry wet)
  /\ (Node (S source), Node wet) ∈ edges (with_voice g s gainValue dry wet).
Proof.
  cbn [with_voice edges].
  repeat apply conj; apply elem_of_app; right;
    repeat first [apply list_elem_of_here | apply list_elem_of_further].
Qed.

(** X11.  For a configuration within the range of the audio parameters,
    bounds [GAIN_MIN <= GAIN_MAX] that are doubles and draws that are doubles
    in [0, 1), the double
    [GAIN_MIN + u * (GAIN_MAX - GAIN_MIN)] a voice assigns to its gain
    stage, live (in either mode) or offline, lies in [GAIN_MIN, GAIN_MAX];
    the gain stage holds the binary32 nearest to it, which lies between the
    binary32 values nearest to the bounds.  The source feeds that gain
    stage, and the gain stage feeds both the dry and the wet bus it was
    given. *)
Theorem voice_gain_within_bounds (random : nat -> Q) (legacy : bool)
    (w : World) (dryGain wetGain : nat) (continuous : bool)
    (context : OfflineContext) (delay : Q) :
  let lo := GAIN_MIN (CONFIG w) in
  let hi := GAIN_MAX (CONFIG w) in
  let gainValue u := Number.add lo (Number.mul u (Number.sub hi lo)) in
  0 <= clock w -> 0 <= EFFECT_DURATION_MS (CONFIG w) -> 0 <= delay ->
  (forall n, Binary.double (random n) == random n /\ 0 <= random n < 1) ->
  params_in_range (CONFIG w) ->
  Binary.double lo == lo -> Binary.double hi == hi ->
  lo <= hi ->
  (exists w' v,
      let source := length (nodes (audio w)) in
      let u := random (if continuous then S (draws w) else S (S (draws w))) in
      createVoice random legacy dryGain wetGain continuous w = Return tt w'
      /\ gain_at (audio w') (S source) = Some v
      /\ v = Binary.fround (gainValue u)
      /\ lo <= gainValue u <= hi
      /\ Binary.fround lo <= v <= Binary.fround hi
      /\ (Node source, Node (S source)) ∈ edges (audio w')
      /\ (Node (S source), Node dryGain) ∈ edges (audio w')
      /\ (Node (S source), Node wetGain) ∈ edges (audio w'))
  /\ (exists context' w' v,
        let source := length (nodes (graph context)) in
        let u := random (S (S (draws w))) in
        createOfflineVoice random legacy context dryGain wetGain delay w
        = Return context' w'
        /\ gain_at (graph context') (S source) = Some v
        /\ v = Binary.fround (gainValue u)
        /\ lo <= gainValue u <= hi
        /\ Binary.fround lo <= v <= Binary.fround hi
        /\ (Node source, Node (S source)) ∈ edges (graph context')
        /\ (Node (S source), Node dryGain) ∈ edges (graph context')
        /\ (Node (S source), Node wetGain) ∈ edges (graph context')).
Proof.
  intros lo hi gainValue Hclock Hduration Hdelay Hrandom _ Hlo Hhi Hgain.
  assert (Hin : forall n, lo <= gainValue (random n) <= hi).
  { intros n. destruct (Hrandom n). by apply gain_of_bounds. }
  assert (Hheld : forall n,
            Binary.fround lo <= Binary.fround (gainValue (random n))
            <= Binary.fround hi).
  { intros n. split; apply BinaryFacts.fround_mono; apply Hin. }
  split.
  - destruct continuous.
    + eexists. eexists. cbn zeta.
      split; [by apply createVoice_continuous |].
      destruct w. cbn [set_currentPlayingSources set_draws set_audio audio].
      split; [apply gain_at_with_voice |].
      split; [reflexivity |]. split; [apply Hin |]. split; [apply Hheld |].
      apply edges_with_voice.
    + eexists. eexists. cbn zeta.
      split; [by apply createVoice_timed |].
      destruct w. cbn [set_currentPlayingSources set_draws set_audio audio].
      split; [apply gain_at_with_voice |].
      split; [reflexivity |]. split; [apply Hin |]. split; [apply Hheld |].
      apply edges_with_voice.
  - eexists. eexists. eexists. cbn zeta.
    split; [by apply createOfflineVoice_returns |].
    cbn [on_graph graph].
    split; [apply gain_at_with_voice |].
    split; [reflexivity |]. split; [apply Hin |]. split; [apply Hheld |].
    apply edges_with_voice.
Qed.



(** X13.  The [onended] handler of a source never raises.  If the source is
    not in the active set the state is left as it was; otherwise its first
    entry, and only that one, is removed from the set.  The graph, the
    timers and the page are not touched. *)
Theorem onended_removes_the_first_entry (source : nat) (w : World) :
  exists w',
    onended source w = Return tt w'
    /\ ((source ∉ currentPlayingSources w) -> w' = w)
    /\ (source ∈ currentPlayingSources w ->
        exists before after,
          currentPlayingSources w = before ++ source :: after
          /\ (source ∉ before)
          /\ currentPlayingSources w' = before ++ after)
    /\ audio w' = audio w
    /\ timers w' = timers w
    /\ page w' = page w.
Proof.
  unfold onended, indexOf, mbind, M_bind, bind, get.
  destruct (list_find (λ y : nat, y = source) (currentPlayingSources w))
    as [[i x] |] eqn:E; cbn [fmap option_fmap option_map fst].
  - apply list_find_Some in E as (Hi & -> & Hfirst).
    eexists. split; [reflexivity |].
    destruct w as [? ? sources ? ? ? ? ? ? ?].
    cbn [modify set_currentPlayingSources currentPlayingSources audio timers page] in *.
    split.
    { intros Hnot. exfalso. apply Hnot. by eapply list_elem_of_lookup_2. }
    split; [| done].
    intros _. exists (take i sources), (drop (S i) sources).
    split; [symmetry; by apply take_drop_middle |].
    split; [| apply delete_take_drop].
    intros Hin. apply list_elem_of_lookup in Hin as [j Hj].
    pose proof (lookup_lt_Some _ _ _ Hj) as Hlt. rewrite length_take in Hlt.
    rewrite lookup_take in Hj. destruct (decide (j < i)%nat); [| done].
    by apply (Hfirst j source Hj).
  - exists w. split; [reflexivity |]. split; [done |].
    split; [| done].
    intros Hin. apply list_find_None in E.
    apply list_elem_of_lookup in Hin as [j Hj].
    exfalso. by apply (Forall_lookup_1 _ _ _ _ E Hj).
Qed.



Lemma voice_gain_within_bounds_witness :
  let w := after_recording (Some one_second) CONFIG_initial in
  let context := {| channelCount := 2; frameCount := 661500;
                    renderRate := 44100; graph := empty_graph |} in
  let lo := Binary.double (3 # 10) in
  let gainValue := Number.add lo (Number.mul (1 # 2) (Number.sub 1 lo)) in
  (exists w' v,
      createVoice always_half false 0%nat 1%nat true w = Return tt w'
      /\ gain_at (audio w') 1%nat = Some v
      /\ v = Binary.fround gainValue
      /\ lo <= gainValue <= 1
      /\ Binary.fround lo <= v <= Binary.fround 1
      /\ (Node 0%nat, Node 1%nat) ∈ edges (audio w')
      /\ (Node 1%nat, Node 0%nat) ∈ edges (audio w')
      /\ (Node 1%nat, Node 1%nat) ∈ edges (audio w'))
  /\ (exists context' w' v,
        createOfflineVoice always_half false context 0%nat 1%nat (4 # 10) w
        = Return context' w'
        /\ gain_at (graph context') 1%nat = Some v
        /\ v = Binary.fround gainValue
        /\ lo <= gainValue <= 1
        /\ Binary.fround lo <= v <= Binary.fround 1
        /\ (Node 0%nat, Node 1%nat) ∈ edges (graph context')
        /\ (Node 1%nat, Node 0%nat) ∈ edges (graph context')
        /\ (Node 1%nat, Node 1%nat) ∈ edges (graph context')).
Proof.
  apply (voice_gain_within_bounds always_half false
           (after_recording (Some one_second) CONFIG_initial) 0%nat 1%nat true
           {| channelCount := 2; frameCount := 661500;
              renderRate := 44100; graph := empty_graph |} (4 # 10));
    try (vm_compute; congruence).
  - intros n. split; [| split]; vm_compute; congruence.
  - repeat split; vm_compute; congruence.
Defined.


End VoiceFacts.

(** * The render to file *)

Module DownloadFacts.
Import Engine Sessions Invariants EngineFacts VoiceFacts.
Local Open Scope Q_scope.

Section Keeps.

Context {B : Type} (f : World -> B).

Lemma keeps_ret {A} (a : A) : keeps f (ret a).
Proof. done. Qed.

Lemma keeps_throw {A} e : keeps f (@throw A e).
Proof. done. Qed.

Lemma keeps_get {A} (g : World -> A) : keeps f (get g).
Proof. done. Qed.

Lemma keeps_bind {A C} (m : M A) (k : A -> M C) :
  keeps f m -> (forall a, keeps f (k a)) -> keeps f (bind m k).
Proof.
  intros Hm Hk w. unfold bind. specialize (Hm w).
  destruct (m w) as [a w' | e w']; cbn [world_of] in *; [| done].
  by rewrite Hk.
Qed.

Lemma keeps_try_catch {A} (m : M A) (h : string -> M A) :
  keeps f m -> (forall e, keeps f (h e)) -> keeps f (try_catch m h).
Proof.
  intros Hm Hh w. unfold try_catch. specialize (Hm w).
  destruct (m w) as [a w' | e w']; cbn [world_of] in *; [done |].
  by rewrite Hh.
Qed.

Lemma keeps_try_finally {A} (m : M A) (fin : M unit) :
  keeps f m -> keeps f fin -> keeps f (try_finally m fin).
Proof.
  intros Hm Hf w. unfold try_finally. specialize (Hm w).
  destruct (m w) as [a w' | e w']; cbn [world_of] in *;
    specialize (Hf w'); destruct (fin w'); cbn [world_of] in *; congruence.
Qed.

Lemma keeps_modify (g : World -> World) :
  (forall w, f (g w) = f w) -> keeps f (modify g).
Proof. intros H w. apply H. Qed.

Lemma keeps_call {A} (r : string + A) : keeps f (call r).
Proof. by destruct r. Qed.

Lemma keeps_iterateM {A} (body : A -> M A) n :
  (forall a, keeps f (body a)) -> forall a, keeps f (iterateM n body a).
Proof.
  intros Hbody. induction n as [| n IH]; intros a; cbn [iterateM].
  - apply keeps_ret.
  - apply keeps_bind; [apply Hbody | apply IH].
Qed.

Lemma keeps_forEach {A} (l : list A) (callback : A -> M unit) :
  (forall a, keeps f (callback a)) -> keeps f (forEach l callback).
Proof.
  intros H. induction l as [| x l IH]; cbn [forEach].
  - apply keeps_ret.
  - apply keeps_bind; [apply H | intros; apply IH].
Qed.

End Keeps.

(** Walk through a statement; what is left are its updates of the world. *)
Ltac keeps_walk :=
  repeat first
    [ apply keeps_ret
    | apply keeps_throw
    | apply keeps_get
    | apply keeps_call
    | apply keeps_try_finally
    | apply keeps_try_catch; [| intros]
    | apply keeps_iterateM; intros
    | apply keeps_forEach; intros
    | apply keeps_bind; [| intros]
    | apply keeps_modify; intros []; done
    | match goal with
      | |- keeps _ (match ?x with _ => _ end) => destruct x
      | |- keeps _ (if ?x then _ else _) => destruct x
      | |- keeps _ (let '(_, _) := ?x in _) => destruct x
      end ].

Lemma keeps_random {B} (f : World -> B) random :
  (forall n w, f (set_draws n w) = f w) -> keeps f (Math_random random).
Proof. intros H w. apply H. Qed.

Lemma keeps_on_page {B} (f : World -> B) g :
  (forall w, f (set_page (g (page w)) w) = f w) -> keeps f (on_page g).
Proof. intros H w. apply H. Qed.


Lemma keeps_downloadEffect random legacy startRendering :
  keeps outside_download (downloadEffect random legacy startRendering).
Proof.
  unfold downloadEffect, updateStatus, new_OfflineAudioContext,
    generateOfflineReverbImpulse, createOfflineVoice.
  keeps_walk.
  all: try (apply keeps_random; intros ? []; done).
  all: try (apply keeps_on_page; intros []; done).
Qed.

Lemma try_catch_returns {A} (m : M A) (h : string -> M A) w :
  (forall e w1, exists a w2, h e w1 = Return a w2) ->
  exists a w', try_catch m h w = Return a w'.
Proof.
  intros Hh. unfold try_catch. destruct (m w) as [a w' | e w']; [by eauto |].
  apply Hh.
Qed.

Lemma try_finally_on_page {A} (m : M A) g w a w1 :
  m w = Return a w1 ->
  try_finally m (on_page g) w = Return a (set_page (g (page w1)) w1).
Proof. intros E. unfold try_finally. by rewrite E. Qed.

Lemma bind_returns {A C} (m : M A) (k : A -> M C) w a w1 :
  m w = Return a w1 -> bind m k w = k a w1.
Proof. intros E. unfold bind. by rewrite E. Qed.


Lemma try_catch_return {A} (m : M A) h w a w1 :
  m w = Return a w1 -> try_catch m h w = Return a w1.
Proof. intros E. unfold try_catch. by rewrite E. Qed.

Lemma try_catch_throw {A} (m : M A) h w e w1 :
  m w = Throw e w1 -> try_catch m h w = h e w1.
Proof. intros E. unfold try_catch. by rewrite E. Qed.

Lemma set_draws_set_draws n m w : set_draws n (set_draws m w) = set_draws n w.
Proof. by destruct w. Qed.


Tactic Notation "world_simpl" "in" hyp(H) :=
  cbn [CONFIG recordedBuffer currentPlayingSources audio contextRate clock
       timers draws page downloads
       set_page set_draws set_downloads updateStatus on_page modify get] in H.





Import JS.




(** With a recording, [downloadEffect] ends in its [finally] block. *)
Lemma downloadEffect_ends_in_finally random legacy startRendering w recorded :
  recordedBuffer w = Some recorded ->
  exists w2,
    downloadEffect random legacy startRendering w
    = Return tt (set_page (with_downloadButtonDisabled false (page w2)) w2).
Proof.
  intros Hrec.
  unfold downloadEffect, mbind, M_bind.
  erewrite bind_returns; [| reflexivity]. cbn beta. rewrite Hrec.
  erewrite bind_returns; [| reflexivity].
  erewrite bind_returns; [| reflexivity].
  match goal with
  | |- context [try_finally (try_catch ?b ?h) ?fin ?w1] =>
      destruct (b w1) as [[] w2 | e w2] eqn:Eb
  end.
  - exists w2. apply try_finally_on_page. by apply try_catch_return.
  - eexists. apply try_finally_on_page.
    erewrite try_catch_throw; [| exact Eb]. reflexivity.
Qed.

(** X14.  [downloadEffect] returns normally from every state, on every
    host and whatever the renderer does.  It leaves the live player as it was
    (configuration, recording, active set, live graph, rate, clock, pending
    timers) and does not touch the play and stop buttons; with a recording,
    the download button is enabled when it returns. *)
Theorem download_leaves_the_player_alone (random : nat -> Q) (legacy : bool)
    (startRendering : OfflineContext -> option (N -> N -> JS.number))
    (w : World) :
  exists w',
    downloadEffect random legacy startRendering w = Return tt w'
    /\ playback w' = playback w
    /\ player_buttons w' = player_buttons w
    /\ (is_Some (recordedBuffer w) -> downloadButtonDisabled (page w') = false).
Proof.
  pose proof (keeps_downloadEffect random legacy startRendering w) as Hkeeps.
  destruct (recordedBuffer w) as [recorded |] eqn:Hrec.
  - destruct (downloadEffect_ends_in_finally random legacy startRendering w recorded Hrec)
      as [w2 E].
    rewrite E in Hkeeps |- *. cbn [world_of] in Hkeeps.
    eexists. split; [reflexivity |].
    split; [exact (f_equal fst Hkeeps) |].
    split; [exact (f_equal snd Hkeeps) |].
    intros _. by destruct w2.
  - exists w. split.
    + unfold downloadEffect, mbind, M_bind.
      erewrite bind_returns; [| reflexivity]. cbn beta. by rewrite Hrec.
    + repeat split. by intros [? ?].
Qed.









End DownloadFacts.

(** * The player and its page *)

Module PlayerFacts.
Import Engine Sessions Invariants EngineFacts VoiceFacts DownloadFacts.
Local Open Scope Q_scope.

(** *** The stop button *)

Lemma stopButton_click_returns legacy w :
  stopButton_click legacy w
  = Return tt
      {| CONFIG := CONFIG w;
         recordedBuffer := recordedBuffer w;
         currentPlayingSources := [];
         audio := foldl (stopped legacy) (audio w) (currentPlayingSources w);
         contextRate := contextRate w;
         clock := clock w;
         timers := timers w;
         draws := draws w;
         page := {| statusText := "Playback stopped. Ready to play again!";
                    statusInitialized := false;
                    playButtonShown := true;
                    playButtonDisabled := false;
                    stopButtonShown := false;
                    downloadButtonDisabled := false |};
         downloads := downloads w |}.
Proof.
  unfold stopButton_click, mbind, M_bind.
  erewrite bind_returns; [| apply stopAllSources_returns].
  destruct w. reflexivity.
Qed.

(** X17.  A click on stop returns normally from every state: the active set
    is empty, play is shown and enabled, stop is hidden, download is enabled
    and the status reads "Playback stopped. Ready to play again!".  It
    removes no node and no connection, and it cancels no timer: those
    pending before the click are pending after it. *)
Theorem stop_click_leaves_the_timers_pending (legacy : bool) (w : World) :
  exists w',
    stopButton_click legacy w = Return tt w'
    /\ currentPlayingSources w' = []
    /\ timers w' = timers w
    /\ length (nodes (audio w')) = length (nodes (audio w))
    /\ edges (audio w') = edges (audio w)
    /\ page w'
       = {| statusText := "Playback stopped. Ready to play again!";
            statusInitialized := false;
            playButtonShown := true;
            playButtonDisabled := false;
            stopButtonShown := false;
            downloadButtonDisabled := false |}
    /\ clock w' = clock w
    /\ downloads w' = downloads w.
Proof.
  eexists. split; [apply stopButton_click_returns |].
  cbn [currentPlayingSources timers audio page clock downloads].
  repeat apply conj; try reflexivity.
  - apply foldl_stopped_length.
  - apply foldl_stopped_edges.
Qed.

(** *** What [stop()] does to a voice *)

Lemma source_at_update_ne g x f id :
  id <> x -> source_at (update x f g) id = source_at g id.
Proof.
  intros H. unfold source_at, update. cbn [nodes].
  by rewrite list_lookup_alter_ne.
Qed.

Lemma source_at_update_eq g id f s :
  source_at g id = Some s ->
  source_at (update id (on_source f) g) id = Some (f s).
Proof.
  unfold source_at, update. cbn [nodes]. rewrite list_lookup_alter_eq.
  destruct (nodes g !! id) as [[| |] |]; try done.
  by intros [= ->].
Qed.

Lemma stopped_other legacy g x id :
  id <> x -> source_at (stopped legacy g x) id = source_at g id.
Proof.
  intros H. destruct (stopped_cases legacy g x) as [-> | ->]; [done |].
  by apply source_at_update_ne.
Qed.

Lemma stopped_self legacy g id s :
  source_at g id = Some s -> is_Some (startTime s) ->
  legacy && finished s = false ->
  source_at (stopped legacy g id) id = Some (with_stopTime 0 s).
Proof.
  intros Hs [t Ht] Hl. unfold stopped, source_stop. rewrite Hs, Ht, Hl.
  destruct (Qlt_le_dec 0 0) as [H | _]; [lra |].
  by apply source_at_update_eq.
Qed.

Lemma foldl_stopped_stays legacy id s l : forall g,
  is_Some (startTime s) -> legacy && finished s = false ->
  source_at g id = Some (with_stopTime 0 s) ->
  source_at (foldl (stopped legacy) g l) id = Some (with_stopTime 0 s).
Proof.
  induction l as [| x l IH]; intros g Hs Hl Hg; [done |].
  cbn [foldl]. apply IH; try done.
  destruct (decide (id = x)) as [<- | Hne].
  - by rewrite (stopped_self legacy g id (with_stopTime 0 s)).
  - by rewrite stopped_other.
Qed.

Lemma foldl_stopped_reaches legacy id s l : forall g,
  id ∈ l -> source_at g id = Some s ->
  is_Some (startTime s) -> legacy && finished s = false ->
  source_at (foldl (stopped legacy) g l) id = Some (with_stopTime 0 s).
Proof.
  induction l as [| x l IH]; intros g Hin Hg Hs Hl.
  - by apply elem_of_nil in Hin.
  - cbn [foldl]. destruct (decide (id = x)) as [<- | Hne].
    + apply foldl_stopped_stays; try done. by apply stopped_self.
    + apply elem_of_cons in Hin as [-> | Hin]; [done |].
      apply IH; try done. by rewrite stopped_other.
Qed.

Lemma foldl_stopped_outside legacy id l : forall g,
  id ∉ l -> source_at (foldl (stopped legacy) g l) id = source_at g id.
Proof.
  induction l as [| x l IH]; intros g Hout; [done |].
  apply not_elem_of_cons in Hout as [Hne Hout].
  cbn [foldl]. rewrite IH by done. by apply stopped_other.
Qed.

(** X18.  [stopAllSources] stops every voice of the active set that has been
    started (on a host that refuses ended sources: and has not ended): its
    stop time is set to now, the rest of the source being kept.  Sources
    outside the active set are left as they were. *)
Theorem stop_reaches_every_started_voice (legacy : bool) (w : World)
    (id : nat) (s : Source) :
  id ∈ currentPlayingSources w ->
  source_at (audio w) id = Some s ->
  is_Some (startTime s) ->
  legacy && finished s = false ->
  exists w',
    stopAllSources legacy w = Return tt w'
    /\ source_at (audio w') id = Some (with_stopTime 0 s)
    /\ (forall other, other ∉ currentPlayingSources w ->
          source_at (audio w') other = source_at (audio w) other).
Proof.
  intros Hin Hs Hstarted Hl.
  eexists. split; [apply stopAllSources_returns |].
  destruct w as [? ? sources g ? ? ? ? ? ?].
  cbn [set_currentPlayingSources set_audio audio currentPlayingSources] in *.
  split; [by apply foldl_stopped_reaches |].
  intros other Hout. by apply foldl_stopped_outside.
Qed.

(** *** Timers that come due *)

Lemma earliest_lookup l : forall i t,
  earliest l = Some (i, t) -> l !! i = Some t.
Proof.
  induction l as [| x l IH]; intros i t; [done |].
  cbn [earliest]. destruct (earliest l) as [[j t'] |].
  - destruct (Qle_bool (due x) (due t')); intros [= <- <-]; [done |].
    by apply IH.
  - by intros [= <- <-].
Qed.


Lemma run_due_step random legacy n until w i t :
  earliest (timers w) = Some (i, t) ->
  Qle_bool (due t) until = true ->
  0 <= clock w ->
  exists s gainValue,
    continuous_voice s
    /\ run_due random legacy (S n) until w
       = run_due random legacy n until (fired w i t s gainValue).
Proof.
  intros He Hle Hclock. cbn [run_due]. rewrite He, Hle.
  rewrite createVoice_continuous; cycle 1.
  { destruct w. cbn [set_timers set_clock clock] in *.
    eapply Qle_trans; [exact Hclock | apply Q.le_max_l]. }
  eexists. eexists. split; cycle 1.
  { cbn [world_of]. destruct w. reflexivity. }
  repeat split; cbn; eauto.
Qed.

Lemma run_due_idle random legacy n until w :
  (earliest (timers w) = None
   \/ exists i t, earliest (timers w) = Some (i, t)
                  /\ Qle_bool (due t) until = false) ->
  run_due random legacy n until w = w.
Proof.
  destruct n; [done |]. cbn [run_due].
  intros [-> | (i & t & -> & ->)]; done.
Qed.

(** What every timer that runs keeps, the whole of [run_due] keeps. *)
Lemma run_due_keeps random legacy until (P : World -> Prop) :
  (forall w i t s gainValue,
     P w -> 0 <= clock w -> timers w !! i = Some t -> continuous_voice s ->
     P (fired w i t s gainValue)) ->
  forall fuel w, 0 <= clock w -> P w -> P (run_due random legacy fuel until w).
Proof.
  intros Hfired. induction fuel as [| n IH]; intros w Hclock HP; [done |].
  destruct (earliest (timers w)) as [[i t] |] eqn:He.
  - destruct (Qle_bool (due t) until) eqn:Hle.
    + destruct (run_due_step random legacy n until w i t He Hle Hclock)
        as (s & gainValue & Hs & ->).
      apply IH.
      * cbn [fired clock]. eapply Qle_trans; [exact Hclock | apply Q.le_max_l].
      * apply Hfired; try done. by apply earliest_lookup.
    + rewrite run_due_idle; [done |]. right. by exists i, t.
  - rewrite run_due_idle; [done |]. by left.
Qed.

(** *** What the event loop keeps *)

Lemma source_at_lt g id s : source_at g id = Some s -> (id < length (nodes g))%nat.
Proof.
  unfold source_at. destruct (nodes g !! id) eqn:E; [| done].
  intros _. by eapply lookup_lt_Some.
Qed.

Lemma source_at_with_voice_old g s gainValue dry wet id :
  (id < length (nodes g))%nat ->
  source_at (with_voice g s gainValue dry wet) id = source_at g id.
Proof.
  intros H. unfold source_at, with_voice. cbn [nodes].
  by rewrite lookup_app_l.
Qed.

Lemma fired_keeps_active_set w i t s gainValue :
  active_set_started w -> continuous_voice s ->
  active_set_started (fired w i t s gainValue).
Proof.
  intros [Hnodup Hin] (_ & Hstarted & _). split; cbn [fired currentPlayingSources audio].
  - apply list.NoDup_app. split; [done |]. split; [| apply NoDup_singleton].
    intros id Hid Hnew. apply list_elem_of_singleton in Hnew as ->.
    destruct (Hin _ Hid) as (s' & Hs' & _).
    apply source_at_lt in Hs'. lia.
  - intros id Hid. apply elem_of_app in Hid as [Hid | Hid].
    + destruct (Hin _ Hid) as (s' & Hs' & Hstarted').
      exists s'. split; [| done].
      rewrite source_at_with_voice_old; [done |]. by eapply source_at_lt.
    + apply list_elem_of_singleton in Hid as ->.
      exists s. split; [apply source_at_with_voice | done].
Qed.

Lemma onended_sublist source w :
  exists l,
    onended source w = Return tt (set_currentPlayingSources l w)
    /\ l `sublist_of` currentPlayingSources w.
Proof.
  unfold onended, mbind, M_bind.
  erewrite bind_returns; [| reflexivity].
  destruct (indexOf (currentPlayingSources w) source) as [index |].
  - eexists. split; [reflexivity |]. apply sublist_delete.
  - exists (currentPlayingSources w). split; [by destruct w | done].
Qed.

Lemma playGibberingEffect_without_recording random legacy w :
  recordedBuffer w = None -> playGibberingEffect random legacy w = Return tt w.
Proof.
  intros Hrec. unfold playGibberingEffect, mbind, M_bind.
  erewrite bind_returns; [| reflexivity]. cbn beta. by rewrite Hrec.
Qed.

(** Everything the event loop keeps true of the player and its page. *)
Lemma step_keeps_the_player random legacy startRendering e w w' :
  live_invariant w -> active_set_started w -> one_button_shown (page w) ->
  step random legacy startRendering e w = Some w' ->
  active_set_started w' /\ one_button_shown (page w').
Proof.
  intros Hlive Hactive Hpage. unfold step.
  destruct (enabled e w); [| done]. intros [= <-].
  destruct e as [| | | ms | source | source]; cbn [handle].
  - destruct (recordedBuffer w) as [recorded |] eqn:Hrec.
    + rewrite (playGibberingEffect_returns _ _ _ _ Hrec). cbn [world_of].
      split; [| done].
      split; cbn [currentPlayingSources]; [apply NoDup_nil_2 |].
      intros id Hid. by apply elem_of_nil in Hid.
    + by rewrite playGibberingEffect_without_recording.
  - rewrite stopButton_click_returns. cbn [world_of].
    split; [| done].
    split; cbn [currentPlayingSources]; [apply NoDup_nil_2 |].
    intros id Hid. by apply elem_of_nil in Hid.
  - pose proof (keeps_downloadEffect random legacy startRendering w) as Hkeeps.
    revert Hkeeps. generalize (world_of (downloadEffect random legacy startRendering w)).
    intros w1 Hkeeps. unfold outside_download, playback, player_buttons in Hkeeps.
    injection Hkeeps as _ _ Hset Haudio _ _ _ Hplay _ Hstop.
    unfold active_set_started, one_button_shown. by rewrite Hset, Haudio, Hplay, Hstop.
  - unfold elapse.
    destruct Hlive as [Hclock _].
    pose proof (run_due_keeps random legacy (clock w + ms)
                  (fun w => active_set_started w /\ one_button_shown (page w))) as H.
    specialize (H (fun w i t s gainValue HP _ _ Hs =>
                     conj (fired_keeps_active_set w i t s gainValue (proj1 HP) Hs)
                          (proj2 HP))).
    specialize (H (length (timers w)) w Hclock (conj Hactive Hpage)).
    revert H. generalize (run_due random legacy (length (timers w)) (clock w + ms) w).
    by intros [].
  - unfold playback_finished. split; [| by destruct w].
    destruct Hactive as [Hnodup Hin].
    split; [by destruct w |].
    intros id Hid. destruct w as [? ? sources g ? ? ? ? ? ?].
    cbn [set_audio currentPlayingSources audio] in *.
    destruct (Hin _ Hid) as (s & Hs & Hstarted).
    destruct (decide (id = source)) as [-> | Hne].
    + exists (with_finished s). split; [by apply source_at_update_eq | done].
    + exists s. split; [by rewrite source_at_update_ne | done].
  - destruct (onended_sublist source w) as (l & -> & Hsub). cbn [world_of].
    split; [| by destruct w].
    destruct Hactive as [Hnodup Hin].
    destruct w as [? ? sources g ? ? ? ? ? ?].
    cbn [set_currentPlayingSources currentPlayingSources audio] in *.
    split; cbn [currentPlayingSources audio].
    + by eapply sublist_NoDup.
    + intros id Hid. apply Hin. by eapply elem_of_sublist.
Qed.

Lemma run_keeps_the_player random legacy startRendering events : forall w w',
  live_invariant w -> active_set_started w -> one_button_shown (page w) ->
  run random legacy startRendering events w = Some w' ->
  live_invariant w' /\ active_set_started w' /\ one_button_shown (page w').
Proof.
  induction events as [| e events IH]; intros w w' Hlive Hactive Hpage.
  - by intros [= <-].
  - cbn [run]. destruct (step random legacy startRendering e w) as [w1 |] eqn:E;
      [| done].
    cbn [mbind option_bind].
    destruct (step_keeps_the_player _ _ _ _ _ _ Hlive Hactive Hpage E) as [Ha Hp].
    apply IH; try done. by eapply step_keeps_invariant.
Qed.

Lemma fresh_page_keeps_the_player recorded cfg :
  active_set_started (after_recording recorded cfg)
  /\ one_button_shown (page (after_recording recorded cfg)).
Proof.
  split; [| done]. split; cbn; [apply NoDup_nil_2 |].
  intros id Hid. by apply elem_of_nil in Hid.
Qed.

(** X19.  In every state the page reaches from a fresh one, whatever the
    user and the host do, the active set lists no source twice, and each of
    its members is a source of the live context that has been started and
    loops; so on a host that accepts [stop] on ended sources, [stop()] on a
    member does not raise. *)
Theorem active_set_holds_started_voices (random : nat -> Q) (legacy : bool)
    (startRendering : OfflineContext -> option (N -> N -> JS.number))
    (events : list event) (recorded : option AudioBuffer.t) (cfg : Config)
    (w : World) :
  run random legacy startRendering events (after_recording recorded cfg) = Some w ->
  NoDup (currentPlayingSources w)
  /\ forall id, id ∈ currentPlayingSources w ->
       exists s,
         source_at (audio w) id = Some s
         /\ is_Some (startTime s)
         /\ loop s = true
         /\ source_stop false id 0 (audio w)
            = inr (update id (on_source (with_stopTime 0)) (audio w)).
Proof.
  intros Hrun.
  destruct (fresh_page_keeps_the_player recorded cfg) as [Ha Hp].
  destruct (run_keeps_the_player _ _ _ _ _ _ (fresh_page_invariant recorded cfg) Ha Hp Hrun)
    as ((_ & Hvoices) & (Hnodup & Hin) & _).
  split; [done |].
  intros id Hid. destruct (Hin _ Hid) as (s & Hs & Hstarted).
  exists s. destruct (Hvoices _ _ Hs) as (Hloop & _ & _).
  repeat apply conj; try done.
  unfold source_stop. rewrite Hs. destruct Hstarted as [t ->].
  cbn [andb]. by destruct (Qlt_le_dec 0 0) as [H | _]; [lra |].
Qed.

(** X20.  In every state the page reaches from a fresh one, exactly one of
    the play button and the stop button is shown. *)
Theorem one_of_play_and_stop_is_shown (random : nat -> Q) (legacy : bool)
    (startRendering : OfflineContext -> option (N -> N -> JS.number))
    (events : list event) (recorded : option AudioBuffer.t) (cfg : Config)
    (w : World) :
  run random legacy startRendering events (after_recording recorded cfg) = Some w ->
  playButtonShown (page w) = negb (stopButtonShown (page w)).
Proof.
  intros Hrun.
  destruct (fresh_page_keeps_the_player recorded cfg) as [Ha Hp].
  by destruct (run_keeps_the_player _ _ _ _ _ _ (fresh_page_invariant recorded cfg) Ha Hp Hrun)
    as (_ & _ & H).
Qed.

(** *** When the timers of a play have all run *)





Lemma stop_reaches_every_started_voice_witness :
  let w := ended_voice_in_the_set in
  let s := {| buffer := None; playbackRate := 1; loop := false;
              startTime := Some 0; stopTime := None; finished := true |} in
  exists w',
    stopAllSources false w = Return tt w'
    /\ source_at (audio w') 0%nat = Some (with_stopTime 0 s)
    /\ (forall other, other ∉ currentPlayingSources w ->
          source_at (audio w') other = source_at (audio w) other).
Proof.
  apply (stop_reaches_every_started_voice false ended_voice_in_the_set 0%nat).
  - apply list_elem_of_here.
  - reflexivity.
  - eexists. reflexivity.
  - reflexivity.
Defined.

Lemma active_set_holds_started_voices_witness :
  exists w,
    run always_half false no_render [ClickPlay; Elapse 1000]
      (after_recording (Some one_second) CONFIG_initial) = Some w
    /\ length (currentPlayingSources w) = 40%nat
    /\ NoDup (currentPlayingSources w)
    /\ forall id, id ∈ currentPlayingSources w ->
         exists s,
           source_at (audio w) id = Some s
           /\ is_Some (startTime s)
           /\ loop s = true
           /\ source_stop false id 0 (audio w)
              = inr (update id (on_source (with_stopTime 0)) (audio w)).
Proof.
  destruct (run always_half false no_render [ClickPlay; Elapse 1000]
              (after_recording (Some one_second) CONFIG_initial)) as [w |] eqn:E;
    [| vm_compute in E; discriminate E].
  exists w. split; [reflexivity |].
  split.
  - assert (E' : length <$> (currentPlayingSources <$> Some w) = Some 40%nat);
      [| by injection E'].
    rewrite <- E. vm_compute. reflexivity.
  - exact (active_set_holds_started_voices always_half false no_render
             [ClickPlay; Elapse 1000] (Some one_second) CONFIG_initial w E).
Defined.

Lemma one_of_play_and_stop_is_shown_witness :
  exists w,
    run always_half false no_render [ClickPlay; Elapse 1000; ClickStop]
      (after_recording (Some one_second) CONFIG_initial) = Some w
    /\ playButtonShown (page w) = negb (stopButtonShown (page w)).
Proof.
  destruct (run always_half false no_render [ClickPlay; Elapse 1000; ClickStop]
              (after_recording (Some one_second) CONFIG_initial)) as [w |] eqn:E;
    [| vm_compute in E; discriminate E].
  exists w. split; [reflexivity |].
  exact (one_of_play_and_stop_is_shown always_half false no_render
           [ClickPlay; Elapse 1000; ClickStop] (Some one_second) CONFIG_initial w E).
Defined.


End PlayerFacts.

(** * Sessions of the player *)

Module SessionFacts.
Import Engine Sessions Invariants Wiring EngineFacts VoiceFacts DownloadFacts PlayerFacts.
Local Open Scope Q_scope.

(** *** Successors *)

Lemma elem_of_successors g x y : y ∈ successors g x <-> (x, y) ∈ edges g.
Proof.
  unfold successors. rewrite list_elem_of_fmap. split.
  - intros ([a b] & -> & H). apply list_elem_of_filter in H as [H1 H2].
    cbn [fst snd] in *. by subst.
  - intros H. exists (x, y). split; [done |]. by apply list_elem_of_filter.
Qed.

Lemma successors_unknown g x :
  (forall a b, (a, b) ∈ edges g -> known g a /\ known g b) ->
  ~ known g x -> successors g x = [].
Proof.
  intros Hwired Hx. destruct (successors g x) as [| y l] eqn:E; [done |].
  exfalso. apply Hx.
  assert (Hy : y ∈ successors g x) by (rewrite E; apply list_elem_of_here).
  apply elem_of_successors in Hy. by apply Hwired in Hy as [? _].
Qed.

Lemma successors_same_edges g g' x :
  edges g' = edges g -> successors g' x = successors g x.
Proof. unfold successors. by intros ->. Qed.

Lemma dry_buses_same_edges g g' id :
  edges g' = edges g -> dry_buses g' id = dry_buses g id.
Proof. unfold dry_buses, successors. by intros ->. Qed.

Lemma successors_more_edges g g' extra x :
  edges g' = edges g ++ extra ->
  Forall (fun e => fst e <> x) extra ->
  successors g' x = successors g x.
Proof.
  unfold successors. intros -> Hextra. rewrite list.filter_app, fmap_app.
  replace (filter (fun e => fst e = x) extra) with (@nil (endpoint * endpoint)).
  - by rewrite app_nil_r.
  - symmetry. induction Hextra as [| e l He _ IH]; [done |].
    by rewrite list.filter_cons_False.
Qed.

Lemma known_more_nodes g g' e :
  (length (nodes g) <= length (nodes g'))%nat -> known g e -> known g' e.
Proof. destruct e; cbn; [done | done | lia]. Qed.

(** Adding connections that start at new nodes changes no bus of a voice
    that was there. *)
Lemma dry_buses_more_edges g g' extra id :
  (forall a b, (a, b) ∈ edges g -> known g a /\ known g b) ->
  edges g' = edges g ++ extra ->
  Forall (fun e => ~ known g (fst e)) extra ->
  known g (Node id) ->
  dry_buses g' id = dry_buses g id.
Proof.
  intros Hwired Hedges Hextra Hid.
  assert (Hsame : forall x, known g x -> successors g' x = successors g x).
  { intros x Hx. apply (successors_more_edges g g' extra x Hedges).
    eapply list.Forall_impl; [exact Hextra |]. cbn beta. by intros e He <-. }
  unfold dry_buses. rewrite (Hsame _ Hid).
  apply Forall_bind_ext, list.Forall_forall. intros gainNode Hg.
  apply elem_of_successors, Hwired in Hg as [_ Hg].
  rewrite (Hsame _ Hg).
  apply Forall_bind_ext, list.Forall_forall. intros bus Hb.
  apply elem_of_successors, Hwired in Hb as [_ Hb].
  destruct bus as [| | d]; [done | done |].
  by rewrite (Hsame _ Hb).
Qed.

(** *** The wiring is kept by every event *)

Lemma spawn_timers_buses random cfg now first dry wet count t :
  t ∈ spawn_timers random cfg now first dry wet count ->
  timerDryGain t = dry /\ timerWetGain t = wet.
Proof.
  unfold spawn_timers. intros H. apply list_elem_of_fmap in H as (k & -> & _). done.
Qed.

Lemma well_wired_grows w w' extra more :
  (length (nodes (audio w)) <= length (nodes (audio w')))%nat ->
  edges (audio w') = edges (audio w) ++ extra ->
  timers w' = timers w ++ more ->
  Forall (fun e => known (audio w') (fst e) /\ known (audio w') (snd e)) extra ->
  Forall (fun t => known (audio w') (Node (timerDryGain t))
                   /\ known (audio w') (Node (timerWetGain t))) more ->
  well_wired w -> well_wired w'.
Proof.
  intros Hlen Hedges Htimers Hextra Hmore [He Ht]. split.
  - intros a b. rewrite Hedges. intros Hab.
    apply elem_of_app in Hab as [Hab | Hab].
    + destruct (He _ _ Hab). split; by apply (known_more_nodes (audio w)).
    + by apply (proj1 (list.Forall_forall _ _) Hextra (a, b)).
  - intros t. rewrite Htimers. intros Hin.
    apply elem_of_app in Hin as [Hin | Hin].
    + destruct (Ht _ Hin). split; by apply (known_more_nodes (audio w)).
    + by apply (proj1 (list.Forall_forall _ _) Hmore t).
Qed.

Lemma well_wired_shrinks w w' :
  length (nodes (audio w')) = length (nodes (audio w)) ->
  edges (audio w') = edges (audio w) ->
  timers w' `sublist_of` timers w ->
  well_wired w -> well_wired w'.
Proof.
  intros Hlen Hedges Htimers [He Ht]. split.
  - intros a b. rewrite Hedges. intros Hab. destruct (He _ _ Hab).
    split; apply (known_more_nodes (audio w)); try done; lia.
  - intros t Hin. destruct (Ht t); [by eapply elem_of_sublist |].
    split; apply (known_more_nodes (audio w)); try done; lia.
Qed.

Lemma play_keeps_well_wired random legacy w :
  well_wired w -> well_wired (world_of (playGibberingEffect random legacy w)).
Proof.
  intros Hw. destruct (recordedBuffer w) as [recorded |] eqn:Hrec;
    [| by rewrite playGibberingEffect_without_recording].
  rewrite (playGibberingEffect_returns _ _ _ _ Hrec). cbn [world_of].
  eapply well_wired_grows; [| reflexivity | reflexivity | | | exact Hw];
    cbn [audio nodes edges timers].
  - rewrite length_app, foldl_stopped_length. lia.
  - repeat constructor; cbn [fst snd known nodes];
      rewrite ?length_app, ?foldl_stopped_length; cbn; lia.
  - apply list.Forall_forall. intros t Ht.
    apply spawn_timers_buses in Ht as [-> ->].
    cbn [known nodes]. rewrite length_app, foldl_stopped_length. cbn. lia.
Qed.

Lemma fired_keeps_well_wired w i t s gainValue :
  well_wired w -> timers w !! i = Some t ->
  well_wired (fired w i t s gainValue).
Proof.
  intros Hw Hi. pose proof Hw as [_ Ht].
  destruct (Ht t) as [Hdry Hwet]; [by eapply list_elem_of_lookup_2 |].
  cbn [known] in Hdry, Hwet.
  split; cbn [fired audio timers with_voice edges nodes].
  - intros a b Hab. apply elem_of_app in Hab as [Hab | Hab].
    + destruct (proj1 Hw _ _ Hab).
      split; apply (known_more_nodes (audio w)); try done;
        unfold with_voice; cbn [nodes]; rewrite length_app; lia.
    + repeat (apply elem_of_cons in Hab as [[= -> ->] | Hab]);
        [| | | by apply elem_of_nil in Hab];
        split; unfold with_voice; cbn [known nodes]; rewrite length_app; cbn; lia.
  - intros t' Hin. apply list_elem_of_delete_inv in Hin.
    destruct (Ht _ Hin).
    split; apply (known_more_nodes (audio w)); try done;
      unfold with_voice; cbn [nodes]; rewrite length_app; lia.
Qed.

Lemma step_keeps_well_wired random legacy startRendering e w w' :
  live_invariant w -> well_wired w ->
  step random legacy startRendering e w = Some w' -> well_wired w'.
Proof.
  intros Hlive Hw. unfold step.
  destruct (enabled e w); [| done]. intros [= <-].
  destruct e as [| | | ms | source | source]; cbn [handle].
  - by apply play_keeps_well_wired.
  - rewrite stopButton_click_returns. cbn [world_of].
    eapply well_wired_shrinks; [| | | exact Hw]; cbn [audio timers].
    + apply foldl_stopped_length.
    + apply foldl_stopped_edges.
    + done.
  - pose proof (keeps_downloadEffect random legacy startRendering w) as Hkeeps.
    revert Hkeeps. generalize (world_of (downloadEffect random legacy startRendering w)).
    intros w1 Hkeeps. unfold outside_download, playback, player_buttons in Hkeeps.
    injection Hkeeps as _ _ _ Haudio _ _ Htimers _ _ _.
    eapply well_wired_shrinks; [| | | exact Hw]; by rewrite ?Haudio, ?Htimers.
  - unfold elapse. destruct Hlive as [Hclock _].
    pose proof (run_due_keeps random legacy (clock w + ms) well_wired) as H.
    specialize (H (fun w i t s gainValue HP _ Hi _ =>
                     fired_keeps_well_wired w i t s gainValue HP Hi)).
    specialize (H (length (timers w)) w Hclock Hw).
    revert H. generalize (run_due random legacy (length (timers w)) (clock w + ms) w).
    by intros [].
  - unfold playback_finished.
    eapply well_wired_shrinks; [| | | exact Hw]; destruct w; cbn; try done.
    apply length_alter.
  - destruct (onended_sublist source w) as (l & -> & _). cbn [world_of].
    eapply well_wired_shrinks; [| | | exact Hw]; by destruct w.
Qed.

Lemma fresh_page_is_well_wired recorded cfg :
  well_wired (after_recording recorded cfg).
Proof.
  split; cbn.
  - intros a b H. by apply elem_of_nil in H.
  - intros t H. by apply elem_of_nil in H.
Qed.

Lemma run_keeps_well_wired random legacy startRendering events : forall w w',
  live_invariant w -> well_wired w ->
  run random legacy startRendering events w = Some w' ->
  live_invariant w' /\ well_wired w'.
Proof.
  induction events as [| e events IH]; intros w w' Hlive Hw.
  - by intros [= <-].
  - cbn [run]. destruct (step random legacy startRendering e w) as [w1 |] eqn:E;
      [| done].
    cbn [mbind option_bind].
    apply IH; [by eapply step_keeps_invariant | by eapply step_keeps_well_wired].
Qed.

(** *** One session at a time *)

Lemma successors_with_voice g s gainValue dry wet x :
  let source := length (nodes g) in
  successors (with_voice g s gainValue dry wet) x
  = successors g x
    ++ (if decide (Node source = x) then [Node (S source)] else [])
    ++ (if decide (Node (S source) = x) then [Node dry; Node wet] else []).
Proof.
  cbn zeta. unfold successors, with_voice. cbn [edges].
  rewrite list.filter_app, fmap_app. f_equal.
  rewrite !list.filter_cons. cbn [fst]. rewrite filter_nil.
  destruct (decide (Node (length (nodes g)) = x));
    destruct (decide (Node (S (length (nodes g))) = x)); done.
Qed.

Lemma dry_buses_known g id d :
  (forall a b, (a, b) ∈ edges g -> known g a /\ known g b) ->
  dry_buses g id = [d] -> known g (Node id).
Proof.
  intros Hwired Hd. cbn [known].
  destruct (decide (id < length (nodes g))%nat) as [H | H]; [done |].
  unfold dry_buses in Hd. by rewrite (successors_unknown g (Node id) Hwired H) in Hd.
Qed.

Lemma play_starts_one_session random legacy w recorded :
  recordedBuffer w = Some recorded -> well_wired w -> timers w = [] ->
  one_session (length (nodes (audio w)))
    (world_of (playGibberingEffect random legacy w)).
Proof.
  intros Hrec [Hwired _] Htimers.
  rewrite (playGibberingEffect_returns _ _ _ _ Hrec). cbn [world_of].
  assert (Hnone : forall x, ~ known (audio w) x ->
            snd <$> filter (fun e => fst e = x) (edges (audio w)) = []).
  { intros x Hx. by apply (successors_unknown (audio w) x Hwired). }
  unfold one_session. cbn [audio timers currentPlayingSources nodes edges].
  repeat apply conj.
  - rewrite length_app, foldl_stopped_length. cbn. lia.
  - unfold successors. cbn [edges]. rewrite list.filter_app, fmap_app.
    rewrite Hnone by (cbn; lia).
    rewrite list.filter_cons_True by done.
    rewrite list.filter_cons_False by (cbn; intros [= H]; lia).
    by rewrite list.filter_cons_False by done.
  - unfold successors. cbn [edges]. rewrite list.filter_app, fmap_app.
    rewrite Hnone by (cbn; lia).
    rewrite list.filter_cons_False by (cbn; intros [= H]; lia).
    rewrite list.filter_cons_True by done.
    by rewrite list.filter_cons_False by done.
  - intros t. rewrite Htimers, app_nil_l. apply spawn_timers_buses.
  - intros id Hid. by apply elem_of_nil in Hid.
Qed.

Lemma fired_keeps_one_session dryGain w i t s gainValue :
  well_wired w -> one_session dryGain w -> timers w !! i = Some t ->
  one_session dryGain (fired w i t s gainValue).
Proof.
  intros [Hwired _] (Hlen & Hdry & Hwet & Htimers & Hvoices) Hi.
  destruct (Htimers t) as [Ed Ew]; [by eapply list_elem_of_lookup_2 |].
  set (g' := with_voice (audio w) s gainValue (timerDryGain t) (timerWetGain t)).
  assert (Hdry' : successors g' (Node dryGain) = [Destination]).
  { unfold g'. rewrite successors_with_voice, Hdry.
    rewrite !decide_False by (intros [= H]; lia). done. }
  assert (Hwet' : successors g' (Node (S dryGain)) = [Reverb]).
  { unfold g'. rewrite successors_with_voice, Hwet.
    rewrite !decide_False by (intros [= H]; lia). done. }
  unfold one_session. cbn [fired audio timers currentPlayingSources]. fold g'.
  repeat apply conj; try done.
  - unfold g', with_voice. cbn [nodes]. rewrite length_app. lia.
  - intros t' Hin. apply Htimers. by eapply list_elem_of_delete_inv.
  - intros id Hid. apply elem_of_app in Hid as [Hid | Hid].
    + rewrite <- (Hvoices _ Hid).
      apply (dry_buses_more_edges (audio w) g'
               [(Node (length (nodes (audio w))), Node (S (length (nodes (audio w)))));
                (Node (S (length (nodes (audio w)))), Node (timerDryGain t));
                (Node (S (length (nodes (audio w)))), Node (timerWetGain t))]);
        try done.
      * repeat constructor; cbn; lia.
      * by eapply dry_buses_known, Hvoices.
    + apply list_elem_of_singleton in Hid as ->.
      unfold dry_buses.
      assert (E1 : successors g' (Node (length (nodes (audio w))))
                   = [Node (S (length (nodes (audio w))))]).
      { unfold g'. rewrite successors_with_voice.
        rewrite (successors_unknown (audio w) _ Hwired) by (cbn; lia).
        rewrite decide_True by done.
        rewrite decide_False by (intros [= H]; lia). done. }
      assert (E2 : successors g' (Node (S (length (nodes (audio w)))))
                   = [Node dryGain; Node (S dryGain)]).
      { unfold g'. rewrite successors_with_voice.
        rewrite (successors_unknown (audio w) _ Hwired) by (cbn; lia).
        rewrite decide_False by (intros [= H]; lia).
        rewrite decide_True by done. by rewrite Ed, Ew. }
      rewrite E1. cbn [mbind list_bind app]. rewrite E2.
      cbn [mbind list_bind app]. rewrite Hdry', Hwet'.
      rewrite bool_decide_eq_true_2 by apply list_elem_of_here.
      rewrite bool_decide_eq_false_2; [done |].
      intros H. apply list_elem_of_singleton in H. discriminate H.
Qed.

Lemma one_session_shrinks dryGain w w' :
  length (nodes (audio w')) = length (nodes (audio w)) ->
  edges (audio w') = edges (audio w) ->
  timers w' `sublist_of` timers w ->
  currentPlayingSources w' `sublist_of` currentPlayingSources w ->
  one_session dryGain w -> one_session dryGain w'.
Proof.
  intros Hlen Hedges Htimers Hset (H1 & H2 & H3 & H4 & H5).
  unfold one_session.
  rewrite Hlen, !(successors_same_edges (audio w) (audio w')) by done.
  repeat apply conj; try done.
  - intros t Ht. apply H4. by eapply elem_of_sublist.
  - intros id Hid. rewrite (dry_buses_same_edges (audio w)) by done.
    apply H5. by eapply elem_of_sublist.
Qed.

Lemma step_keeps_one_session random legacy startRendering dryGain e w w' :
  e <> ClickPlay ->
  live_invariant w -> well_wired w -> one_session dryGain w ->
  step random legacy startRendering e w = Some w' ->
  one_session dryGain w'.
Proof.
  intros He Hlive Hw Hone. unfold step.
  destruct (enabled e w); [| done]. intros [= <-].
  destruct e as [| | | ms | source | source]; cbn [handle]; [done | | | | |].
  - rewrite stopButton_click_returns. cbn [world_of].
    eapply one_session_shrinks; [| | | | exact Hone];
      cbn [audio timers currentPlayingSources].
    + apply foldl_stopped_length.
    + apply foldl_stopped_edges.
    + done.
    + apply sublist_nil_l.
  - pose proof (keeps_downloadEffect random legacy startRendering w) as Hkeeps.
    revert Hkeeps. generalize (world_of (downloadEffect random legacy startRendering w)).
    intros w1 Hkeeps. unfold outside_download, playback, player_buttons in Hkeeps.
    injection Hkeeps as _ _ Hset Haudio _ _ Htimers _ _ _.
    eapply one_session_shrinks; [| | | | exact Hone];
      by rewrite ?Haudio, ?Htimers, ?Hset.
  - unfold elapse. destruct Hlive as [Hclock _].
    pose proof (run_due_keeps random legacy (clock w + ms)
                  (fun w => well_wired w /\ one_session dryGain w)) as H.
    specialize (H (fun w i t s gainValue HP _ Hi _ =>
                     conj (fired_keeps_well_wired w i t s gainValue (proj1 HP) Hi)
                          (fired_keeps_one_session dryGain w i t s gainValue
                             (proj1 HP) (proj2 HP) Hi))).
    specialize (H (length (timers w)) w Hclock (conj Hw Hone)).
    revert H. generalize (run_due random legacy (length (timers w)) (clock w + ms) w).
    by intros [] [_ ?].
  - unfold playback_finished.
    eapply one_session_shrinks; [| | | | exact Hone]; destruct w; cbn; try done.
    apply length_alter.
  - destruct (onended_sublist source w) as (l & -> & Hsub). cbn [world_of].
    eapply one_session_shrinks; [| | | | exact Hone]; by destruct w.
Qed.

Lemma run_keeps_one_session random legacy startRendering dryGain events :
  Forall (fun e => e <> ClickPlay) events ->
  forall w w',
    live_invariant w -> well_wired w -> one_session dryGain w ->
    run random legacy startRendering events w = Some w' ->
    one_session dryGain w'.
Proof.
  induction 1 as [| e events He _ IH]; intros w w' Hlive Hw Hone.
  - by intros [= <-].
  - cbn [run]. destruct (step random legacy startRendering e w) as [w1 |] eqn:E;
      [| done].
    cbn [mbind option_bind].
    apply IH.
    + by eapply step_keeps_invariant.
    + by eapply step_keeps_well_wired.
    + by eapply step_keeps_one_session.
Qed.

(** X23.  When play is clicked in a state the page has reached in which no
    timer is pending (the first play, or a replay once the timers of the
    play before have all run), then until the next click on play, whatever
    else happens, every voice of the active set plays into the dry bus that
    this play created, and into no other: the active set belongs to one
    session. *)
Theorem one_session_while_no_timer_is_left_over (random : nat -> Q)
    (legacy : bool)
    (startRendering : OfflineContext -> option (N -> N -> JS.number))
    (before after : list event) (recorded : option AudioBuffer.t)
    (cfg : Config) (w w' : World) :
  run random legacy startRendering before (after_recording recorded cfg) = Some w ->
  is_Some (recordedBuffer w) ->
  timers w = [] ->
  Forall (fun e => e <> ClickPlay) after ->
  run random legacy startRendering (ClickPlay :: after) w = Some w' ->
  (forall id, id ∈ currentPlayingSources w' ->
     dry_buses (audio w') id = [length (nodes (audio w))])
  /\ (forall d, d ∈ active_sessions w' -> d = length (nodes (audio w))).
Proof.
  intros Hbefore [rb Hrec] Htimers Hafter Hrun.
  destruct (run_keeps_well_wired _ _ _ _ _ _
              (fresh_page_invariant recorded cfg)
              (fresh_page_is_well_wired recorded cfg) Hbefore) as [Hlive Hw].
  cbn [run] in Hrun.
  destruct (step random legacy startRendering ClickPlay w) as [w1 |] eqn:E;
    [| done].
  cbn [mbind option_bind] in Hrun.
  assert (Hone : one_session (length (nodes (audio w))) w1).
  { unfold step in E. destruct (enabled ClickPlay w); [| done].
    injection E as <-. cbn [handle]. by eapply play_starts_one_session. }
  pose proof (run_keeps_one_session _ _ _ _ _ Hafter w1 w'
                (step_keeps_invariant _ _ _ _ _ _ Hlive E)
                (step_keeps_well_wired _ _ _ _ _ _ Hlive Hw E) Hone Hrun)
    as (_ & _ & _ & _ & Hvoices).
  split; [exact Hvoices |].
  intros d Hd. unfold active_sessions in Hd.
  apply elem_of_remove_dups, list_elem_of_bind in Hd as (id & Hd & Hid).
  rewrite (Hvoices _ Hid) in Hd. by apply list_elem_of_singleton in Hd.
Qed.

Lemma one_session_while_no_timer_is_left_over_witness :
  exists w',
    run always_half false no_render [ClickPlay; Elapse 1000; PlaybackFinished 2]
      (after_recording (Some one_second) CONFIG_initial) = Some w'
    /\ length (currentPlayingSources w') = 40%nat
    /\ (forall id, id ∈ currentPlayingSources w' -> dry_buses (audio w') id = [0%nat])
    /\ (forall d, d ∈ active_sessions w' -> d = 0%nat).
Proof.
  destruct (run always_half false no_render
              [ClickPlay; Elapse 1000; PlaybackFinished 2]
              (after_recording (Some one_second) CONFIG_initial)) as [w' |] eqn:E;
    [| vm_compute in E; discriminate E].
  exists w'. split; [reflexivity |].
  split.
  - assert (E' : length <$> (currentPlayingSources <$> Some w') = Some 40%nat);
      [| by injection E'].
    rewrite <- E. vm_compute. reflexivity.
  - apply (one_session_while_no_timer_is_left_over always_half false no_render
             [] [Elapse 1000; PlaybackFinished 2] (Some one_second) CONFIG_initial
             (after_recording (Some one_second) CONFIG_initial) w').
    + reflexivity.
    + eexists. reflexivity.
    + reflexivity.
    + repeat constructor; discriminate.
    + exact E.
Defined.

End SessionFacts.
